(** * Flat clusterings from a concept tree: [concept_formation/cluster.py]

    A shallow embedding of [cluster_iter], [cluster], [k_cluster] and
    [depth_labels].  Concept nodes are Python objects with identity, so a tree
    is an arena: a finite map from node references to node records.  Trees
    themselves are objects too (the driver deep-copies its argument and one
    entry point fits instances in place), so every entry point runs against a
    store of tree objects.

    The two generators of random data sets of [test/benchmark_cobweb.py]
    follow at the end of the definitions, over an explicit source of random
    numbers. *)

From Stdlib Require Import ZArith Lia.
From stdpp Require Import gmap strings list fin_maps sorting pretty.

Local Open Scope Z_scope.

(** ** Results and exceptions *)

(** [ValueError] and [IndexError] are the two Python exceptions the module can
    raise by itself.  [Undefined] marks runs with no Python counterpart to
    report: a reference to an object that is not in the store, or an ancestor
    walk that visits more nodes than the arena holds (a cycle of [parent]
    links, on which the Python loop does not terminate). *)
Inductive exn : Type :=
| ValueError (msg : string)
| IndexError
| Undefined.

Inductive res (A : Type) : Type :=
| Ok (a : A)
| Raise (e : exn).
Arguments Ok {A} a.
Arguments Raise {A} e.

#[global] Instance res_bind : MBind res := fun A B f m =>
  match m with
  | Ok a => f a
  | Raise e => Raise e
  end.
#[global] Instance res_ret : MRet res := fun A a => Ok a.

Fixpoint res_mapM {A B : Type} (f : A -> res B) (l : list A) : res (list B) :=
  match l with
  | [] => Ok []
  | x :: l' => y ← f x; ys ← res_mapM f l'; Ok (y :: ys)
  end.

(** ** Data model *)

(** Modelled from the spec: the node class, which the module only uses.  A
    concept node has the three attributes the module reads ([concept_id], a
    string; [parent], a node or [None]; [children], an ordered sequence of
    nodes) and the statistics the tree keeps for itself. *)
Record Node (Stats : Type) : Type := mkNode {
  concept_id : string;
  parent : option nat;
  children : list nat;
  stats : Stats
}.
Arguments mkNode {Stats} _ _ _ _.
Arguments concept_id {Stats} _.
Arguments parent {Stats} _.
Arguments children {Stats} _.
Arguments stats {Stats} _.

(** Modelled from the spec: the tree class.  A tree object is [tree.root] and
    the arena of the nodes it owns. *)
Record Tree (Stats : Type) : Type := mkTree {
  root : nat;
  nodes : gmap nat (Node Stats)
}.
Arguments mkTree {Stats} _ _.
Arguments root {Stats} _.
Arguments nodes {Stats} _.

(** Modelled from the spec: the methods of the tree the module calls, taken as
    parameters (the interface is duck-typed in the source: CobwebTree,
    Cobweb3Tree and TrestleTree all provide it).  [ifit] "inserts and
    incorporates instance, mutating tree statistics, returns the leaf it
    settled into"; [categorize] "locates best-fit leaf without mutating tree
    statistics".  Scores are the values [cu_for_split] and [category_utility]
    return, with the three operations the driver applies to them: [-], [==]
    and [<]. *)
Class TreeOps (Stats Instance Score : Type) : Type := {
  ifit : Tree Stats -> Instance -> Tree Stats * nat;
  categorize : Tree Stats -> Instance -> nat;
  cu_for_split : Tree Stats -> nat -> Score;
  category_utility : Tree Stats -> Score;
  score_sub : Score -> Score -> Score;
  score_eqb : Score -> Score -> bool;
  score_ltb : Score -> Score -> bool
}.

Definition set_parent {Stats} (p : option nat) (n : Node Stats) : Node Stats :=
  mkNode (concept_id n) p (children n) (stats n).

Definition set_children {Stats} (cs : list nat) (n : Node Stats) : Node Stats :=
  mkNode (concept_id n) (parent n) cs (stats n).

(** [list.remove(x)]: drops the first occurrence. *)
Fixpoint remove_first (x : nat) (l : list nat) : list nat :=
  match l with
  | [] => []
  | y :: l' => if decide (x = y) then l' else y :: remove_first x l'
  end.

(** Modelled from the spec: the tree's [split] operation, which is not part of
    the module ([root.split(node)] "mutates the tree by splitting node into its
    children's children (promoting grandchildren)"; a split is "replacing a
    node's children with its grandchildren").  The selected child leaves the
    root's [children], its own children join them and get the root as
    [parent]; the selected node itself is left as it is.  The promoted
    children are put at the end of the root's child list; no theorem below
    depends on that position. *)
Definition split {Stats} (t : Tree Stats) (best : nat) : res (Tree Stats) :=
  match nodes t !! root t, nodes t !! best with
  | Some r, Some b =>
      let r' := set_children (remove_first best (children r) ++ children b) r in
      let h := <[root t := r']> (nodes t) in
      Ok (mkTree (root t)
            (foldr (fun c h' => alter (set_parent (Some (root t))) c h') h (children b)))
  | _, _ => Raise Undefined
  end.

(** ** Label vectors *)

Definition label_of {Stats} (t : Tree Stats) (c : nat) : res string :=
  match nodes t !! c with
  | Some n => Ok ("Concept" +:+ concept_id n)
  | None => Raise Undefined
  end.

(** [cluster_iter], lines 59-60:
    [while (c.parent and c.parent.parent): c = c.parent].
    Every call stands for one test of the loop condition at node [c]. *)
Fixpoint climb {Stats} (fuel : nat) (t : Tree Stats) (c : nat) : res nat :=
  match fuel with
  | O => Raise Undefined
  | S fuel' =>
      match nodes t !! c with
      | None => Raise Undefined
      | Some n =>
          match parent n with
          | None => Ok c
          | Some p =>
              match nodes t !! p with
              | None => Raise Undefined
              | Some pn =>
                  match parent pn with
                  | None => Ok c
                  | Some _ => climb fuel' t p
                  end
              end
          end
      end
  end.

(** [cluster_iter], lines 57-61: the label vector of the recorded nodes.  A
    walk over pairwise distinct nodes tests the loop condition at most once per
    node of the arena, which is the bound handed to [climb]. *)
Definition clusters_of {Stats} (t : Tree Stats) (temp_clusters : list nat)
  : res (list string) :=
  res_mapM (fun c => x ← climb (size (nodes t)) t c; label_of t x) temp_clusters.

(** [len(set(c))] *)
Definition distinct (c : list string) : nat :=
  size (list_to_set c : gset string).

(** ** The driver's loop *)

Section Driver.
Context {Stats Instance Score : Type} `{Ops : TreeOps Stats Instance Score}.

(** Python's [<] on the triples [(gain, i, c)] of line 64: the first position
    where the two triples differ under [==] decides.  The positions [i] of two
    entries of one [enumerate] always differ, so the node objects in the third
    position are never compared. *)
Definition triple_lt (a b : Score * nat * nat) : bool :=
  let '(g1, i1, c1) := a in
  let '(g2, i2, c2) := b in
  if score_eqb g1 g2 then
    if Nat.eqb i1 i2 then Nat.ltb c1 c2 else Nat.ltb i1 i2
  else score_ltb g1 g2.

(** [sorted]: a stable insertion sort that only asks [<], taking the elements
    from left to right and putting each one behind the elements it is not
    smaller than. *)
Fixpoint insert_sorted {A} (lt : A -> A -> bool) (x : A) (l : list A) : list A :=
  match l with
  | [] => [x]
  | y :: l' => if lt x y then x :: l else y :: insert_sorted lt x l'
  end.

Definition sorted {A} (lt : A -> A -> bool) (l : list A) : list A :=
  foldl (fun acc x => insert_sorted lt x acc) [] l.

(** [tree.root.cu_for_split(c) - tree.root.category_utility()] *)
Definition gain (t : Tree Stats) (c : nat) : Score :=
  score_sub (cu_for_split t c) (category_utility t).

(** The list comprehension of lines 64-66, over [enumerate(tree.root.children)]
    from position [i] on. *)
Fixpoint candidates (t : Tree Stats) (i : nat) (cs : list nat)
  : res (list (Score * nat * nat)) :=
  match cs with
  | [] => Ok []
  | c :: cs' =>
      match nodes t !! c with
      | None => Raise Undefined
      | Some n =>
          rest ← candidates t (S i) cs';
          Ok (match children n with
              | [] => rest
              | _ :: _ => (gain t c, i, c) :: rest
              end)
      end
  end.

Definition split_cus (t : Tree Stats) : res (list (Score * nat * nat)) :=
  match nodes t !! root t with
  | None => Raise Undefined
  | Some r => cands ← candidates t 0 (children r); Ok (sorted triple_lt cands)
  end.

(** How a run of the loop body ends: suspended at the [yield] of line 62 (with
    the value of [nth_split] and the number of values of the [range] not yet
    used up, the current one included), left for good, or failed. *)
Inductive paused : Type :=
| Paused (c : list string) (rem : nat) (nth_split : Z)
| Ended
| Failed (e : exn).

(** Lines 54-76, from the head of the [for] loop when [resumed] is [false] and
    from behind the [yield] when it is [true], up to the next [yield].  [rem]
    is the number of values [range(1, maxsplit+1)] still has to give,
    [nth_split] included.  The assignment of line 76 is overwritten by the
    next value of the range, which is the same number. *)
Fixpoint for_loop (minsplit : Z) (temp_clusters : list nat)
    (rem : nat) (resumed : bool) (nth_split : Z) (t : Tree Stats)
  : Tree Stats * paused :=
  match rem with
  | O => (t, Ended)
  | S rem' =>
      if negb resumed && (nth_split >=? minsplit) then
        match clusters_of t temp_clusters with
        | Ok clusters => (t, Paused clusters rem nth_split)
        | Raise e => (t, Failed e)
        end
      else
        match split_cus t with
        | Raise e => (t, Failed e)
        | Ok cus =>
            match last cus with
            | None => (t, Ended)
            | Some (_, _, c) =>
                match split t c with
                | Raise e => (t, Failed e)
                | Ok t' => for_loop minsplit temp_clusters rem' false (nth_split + 1) t'
                end
            end
        end
  end.

(** ** Tree objects in a store *)

(** [copy.deepcopy(tree)]: a new object with the same contents. *)
Definition deepcopy (w : gmap nat (Tree Stats)) (tree : nat)
  : res (nat * gmap nat (Tree Stats)) :=
  match w !! tree with
  | None => Raise Undefined
  | Some t => let r := fresh (dom w) in Ok (r, <[r := t]> w)
  end.

(** [[tree.ifit(instance) for instance in instances]] and
    [[tree.categorize(instance) for instance in instances]] on a tree value. *)
Fixpoint insert_all (mod_ : bool) (t : Tree Stats) (instances : list Instance)
  : Tree Stats * list nat :=
  match instances with
  | [] => (t, [])
  | x :: xs =>
      if mod_ then
        let '(t1, l) := ifit t x in
        let '(t2, ls) := insert_all mod_ t1 xs in (t2, l :: ls)
      else
        let '(t2, ls) := insert_all mod_ t xs in (t2, categorize t x :: ls)
  end.

(** Lines 49-52 and 152-155: the same on the tree object [tree]; only [ifit]
    writes to it.  ([mod_] is the source's [mod], a reserved word here.) *)
Definition fit_all (w : gmap nat (Tree Stats)) (tree : nat)
    (instances : list Instance) (mod_ : bool)
  : res (gmap nat (Tree Stats) * list nat) :=
  match w !! tree with
  | None => Raise Undefined
  | Some t =>
      let '(t', temp) := insert_all mod_ t instances in
      Ok (if mod_ then <[tree := t']> w else w, temp)
  end.

(** ** The generator *)

(** The local variables that survive a [yield]. *)
Record frame : Type := mkFrame {
  fr_tree : nat;
  fr_temp : list nat;
  fr_minsplit : Z;
  fr_nth : Z;
  fr_rem : nat
}.

(** A generator object: created and not yet started (the body of a generator
    function does not run before the first [next]), suspended at the [yield],
    or finished. *)
Inductive gen : Type :=
| GCreated (tree : nat) (instances : list Instance) (minsplit maxsplit : Z) (mod_ : bool)
| GSuspended (fr : frame)
| GClosed.

Inductive signal : Type :=
| Yield (c : list string)
| StopIteration
| Raised (e : exn).

(** [cluster_iter(tree, instances, minsplit, maxsplit, mod)]: the call itself
    only builds the generator object. *)
Definition cluster_iter (tree : nat) (instances : list Instance)
    (minsplit maxsplit : Z) (mod_ : bool) : gen :=
  GCreated tree instances minsplit maxsplit mod_.

Definition run_loop (w : gmap nat (Tree Stats)) (r : nat) (temp : list nat)
    (minsplit : Z) (rem : nat) (resumed : bool) (nth_split : Z)
  : gmap nat (Tree Stats) * gen * signal :=
  match w !! r with
  | None => (w, GClosed, Raised Undefined)
  | Some t =>
      let '(t', out) := for_loop minsplit temp rem resumed nth_split t in
      let w' := <[r := t']> w in
      match out with
      | Paused c rem' n' => (w', GSuspended (mkFrame r temp minsplit n' rem'), Yield c)
      | Ended => (w', GClosed, StopIteration)
      | Failed e => (w', GClosed, Raised e)
      end
  end.

(** [next(g)]: the body of [cluster_iter] from where it stands to the next
    [yield], to its end, or to an exception. *)
Definition gen_next (w : gmap nat (Tree Stats)) (g : gen)
  : gmap nat (Tree Stats) * gen * signal :=
  match g with
  | GCreated tree instances minsplit maxsplit mod_ =>
      if minsplit <? 1 then
        (w, GClosed, Raised (ValueError "minsplit must be >= 1"))
      else if minsplit >? maxsplit then
        (w, GClosed, Raised (ValueError "maxsplit must be >= minsplit"))
      else
        match deepcopy w tree with
        | Raise e => (w, GClosed, Raised e)
        | Ok (r, w1) =>
            match fit_all w1 r instances mod_ with
            | Raise e => (w1, GClosed, Raised e)
            | Ok (w2, temp) => run_loop w2 r temp minsplit (Z.to_nat maxsplit) false 1
            end
        end
  | GSuspended fr =>
      run_loop w (fr_tree fr) (fr_temp fr) (fr_minsplit fr) (fr_rem fr) true (fr_nth fr)
  | GClosed => (w, GClosed, StopIteration)
  end.

(** A bound on the number of [next] calls a generator answers with a [yield],
    plus one for the call that ends it. *)
Definition gen_fuel (g : gen) : nat :=
  match g with
  | GCreated _ _ _ maxsplit _ => S (S (Z.to_nat maxsplit))
  | GSuspended fr => S (fr_rem fr)
  | GClosed => 1%nat
  end.

(** [[c for c in g]] *)
Fixpoint exhaust (fuel : nat) (w : gmap nat (Tree Stats)) (g : gen)
  : gmap nat (Tree Stats) * res (list (list string)) :=
  match fuel with
  | O => (w, Raise Undefined)
  | S fuel' =>
      match gen_next w g with
      | (w', g', Yield c) =>
          let '(w'', r) := exhaust fuel' w' g' in (w'', cs ← r; Ok (c :: cs))
      | (w', _, StopIteration) => (w', Ok [])
      | (w', _, Raised e) => (w', Raise e)
      end
  end.

(** [cluster], line 98. *)
Definition cluster (w : gmap nat (Tree Stats)) (tree : nat)
    (instances : list Instance) (minsplit maxsplit : Z) (mod_ : bool)
  : gmap nat (Tree Stats) * res (list (list string)) :=
  let g := cluster_iter tree instances minsplit maxsplit mod_ in
  exhaust (gen_fuel g) w g.

(** The default value of [maxsplit] in the signature of [cluster_iter]. *)
Definition default_maxsplit : Z := 100000.

(** [k_cluster], lines 128-131: the [for] loop over the generator. *)
Fixpoint k_loop (fuel : nat) (w : gmap nat (Tree Stats)) (g : gen) (k : Z)
    (clustering : list string)
  : gmap nat (Tree Stats) * res (list string) :=
  match fuel with
  | O => (w, Raise Undefined)
  | S fuel' =>
      match gen_next w g with
      | (w', g', Yield c) =>
          if Z.of_nat (distinct c) >? k then (w', Ok clustering)
          else k_loop fuel' w' g' k c
      | (w', _, StopIteration) => (w', Ok clustering)
      | (w', _, Raised e) => (w', Raise e)
      end
  end.

(** [k_cluster], lines 124-133. *)
Definition k_cluster (w : gmap nat (Tree Stats)) (tree : nat)
    (instances : list Instance) (k : Z) (mod_ : bool)
  : gmap nat (Tree Stats) * res (list string) :=
  if k <? 2 then
    (w, Raise (ValueError
      "k must be >=2, all nodes in Cobweb are guaranteed to have at least 2 children."))
  else
    match w !! tree with
    | None => (w, Raise Undefined)
    | Some t =>
        match res_mapM (fun _ => label_of t (root t)) instances with
        | Raise e => (w, Raise e)
        | Ok clustering =>
            let g := cluster_iter tree instances 1 default_maxsplit mod_ in
            k_loop (gen_fuel g) w g k clustering
        end
    end.

End Driver.

(** ** The depth-aligned labeler *)

Section Labeler.
Context {Stats Instance Score : Type} `{Ops : TreeOps Stats Instance Score}.

(** [depth_labels], lines 160-168: the labels from the recorded node up to the
    root, the root's own label last.  [depth] counts the appends to [labs], so
    it is the length of the result. *)
Fixpoint ancestry (fuel : nat) (t : Tree Stats) (label : nat) : res (list string) :=
  match fuel with
  | O => Raise Undefined
  | S fuel' =>
      match nodes t !! label with
      | None => Raise Undefined
      | Some n =>
          match parent n with
          | None => Ok ["Concept" +:+ concept_id n]
          | Some p =>
              labs ← ancestry fuel' t p;
              Ok (("Concept" +:+ concept_id n) :: labs)
          end
      end
  end.

(** Lines 158 and 170-171 over all instances. *)
Definition max_depth_of (instance_labels : list (list string)) : nat :=
  foldl (fun max_depth labs =>
           if (max_depth <? length labs)%nat then length labs else max_depth)
        0%nat instance_labels.

(** Lines 174-177 for one list [f]. *)
Definition pad_labels (max_depth : nat) (f : list string) : res (list string) :=
  let f' := reverse f in
  match last f' with
  | None => Raise IndexError
  | Some last_label => Ok (f' ++ replicate (max_depth - length f') last_label)
  end.

(** Lines 179-184. *)
Definition transpose (instance_labels : list (list string)) : res (list (list string)) :=
  match instance_labels with
  | [] => Raise IndexError
  | first :: _ =>
      res_mapM (fun d =>
                  res_mapM (fun i : list string =>
                              match i !! d with
                              | Some x => Ok x
                              | None => Raise IndexError
                              end) instance_labels)
               (seq 0 (length first))
  end.

(** [depth_labels], lines 152-186. *)
Definition depth_labels (w : gmap nat (Tree Stats)) (tree : nat)
    (instances : list Instance) (mod_ : bool)
  : gmap nat (Tree Stats) * res (list (list string)) :=
  match fit_all w tree instances mod_ with
  | Raise e => (w, Raise e)
  | Ok (w1, temp_labels) =>
      match w1 !! tree with
      | None => (w1, Raise Undefined)
      | Some t =>
          (w1,
           instance_labels ← res_mapM (ancestry (size (nodes t)) t) temp_labels;
           padded ← res_mapM (pad_labels (max_depth_of instance_labels)) instance_labels;
           transpose padded)
      end
  end.

End Labeler.

(** ** Shapes of trees *)

(** [chain t c k]: following [parent] from [c] reaches a node without parent,
    over [k] nodes in all. *)
Inductive chain {Stats} (t : Tree Stats) : nat -> nat -> Prop :=
| chain_top c n :
    nodes t !! c = Some n -> parent n = None -> chain t c 1
| chain_up c n p k :
    nodes t !! c = Some n -> parent n = Some p -> chain t p k -> chain t c (S k).

(** [depth1 t c x]: [x] is where the walk of lines 59-60 started at [c] stops:
    [x] is [c] or an ancestor of [c], and [x] has no parent or a parent that
    has none. *)
Inductive depth1 {Stats} (t : Tree Stats) : nat -> nat -> Prop :=
| depth1_orphan c n :
    nodes t !! c = Some n -> parent n = None -> depth1 t c c
| depth1_here c n p pn :
    nodes t !! c = Some n -> parent n = Some p ->
    nodes t !! p = Some pn -> parent pn = None -> depth1 t c c
| depth1_up c n p pn q x :
    nodes t !! c = Some n -> parent n = Some p ->
    nodes t !! p = Some pn -> parent pn = Some q ->
    depth1 t p x -> depth1 t c x.

(** The part of a tree's shape the clustering relies on: the root is in the
    arena and is the one node without a parent; the children of a node are in
    the arena and name as their parent the node or (after a split has promoted
    them) the root; and concept ids are unique within the tree. *)
Record wf_tree {Stats} (t : Tree Stats) : Prop := mk_wf {
  wf_root : exists r, nodes t !! root t = Some r /\ parent r = None;
  wf_sole : forall c n, nodes t !! c = Some n -> parent n = None -> c = root t;
  wf_children : forall a na c,
    nodes t !! a = Some na -> c ∈ children na ->
    exists nc, nodes t !! c = Some nc /\
               (parent nc = Some a \/ parent nc = Some (root t));
  wf_ids : forall a b na nb,
    nodes t !! a = Some na -> nodes t !! b = Some nb ->
    concept_id na = concept_id nb -> a = b
}.

(** [lineage t c labs]: [labs] are the labels of [c] and its ancestors, from
    [c] up to the node without parent. *)
Inductive lineage {Stats} (t : Tree Stats) : nat -> list string -> Prop :=
| lineage_top c n :
    nodes t !! c = Some n -> parent n = None ->
    lineage t c ["Concept" +:+ concept_id n]
| lineage_up c n p labs :
    nodes t !! c = Some n -> parent n = Some p -> lineage t p labs ->
    lineage t c (("Concept" +:+ concept_id n) :: labs).

(** [rooted t c]: the ancestor walk from [c] ends. *)
Definition rooted {Stats} (t : Tree Stats) (c : nat) : Prop :=
  exists k, chain t c k.

(** What a split does to the record of node [c]. *)
Definition split_node {Stats} (t : Tree Stats) (r b : Node Stats) (best c : nat)
    (n : Node Stats) : Node Stats :=
  let n1 := if decide (c = root t)
            then set_children (remove_first best (children r) ++ children b) n
            else n in
  if decide (c ∈ children b) then set_parent (Some (root t)) n1 else n1.

(** The children of the split node [best], with record [b], that a split
    moves under the root. *)
Definition promoted {Stats} (t : Tree Stats) (best : nat) (b : Node Stats)
    (y : nat) : Prop :=
  y ∈ children b /\ exists ny, nodes t !! y = Some ny /\ parent ny = Some best.

(** Scores as the driver needs them for [sorted]: [==] is equality and [<] is
    a strict total order (the case of the floats a category utility can be,
    where none of them is a NaN). *)
Record score_order {Stats Instance Score} (Ops : TreeOps Stats Instance Score)
  : Prop := mk_score_order {
  so_eqb : forall a b : Score, score_eqb a b = true <-> a = b;
  so_irrefl : forall a : Score, score_ltb a a = false;
  so_trans : forall a b c : Score,
    score_ltb a b = true -> score_ltb b c = true -> score_ltb a c = true;
  so_total : forall a b : Score,
    score_ltb a b = true \/ a = b \/ score_ltb b a = true
}.

(** The order of the sort keys [(gain, i, c)], as a proposition. *)
Definition lex {Stats Instance Score} `{Ops : TreeOps Stats Instance Score}
    (a b : Score * nat * nat) : Prop :=
  score_ltb a.1.1 b.1.1 = true \/
  (a.1.1 = b.1.1 /\ ((a.1.2 < b.1.2)%nat \/ (a.1.2 = b.1.2 /\ (a.2 < b.2)%nat))).

(** ** Runs of the generator *)

Section Runs.
Context {Stats Instance Score : Type} `{Ops : TreeOps Stats Instance Score}.

(** One round of lines 64-74 in which a child is split. *)
Inductive split_step (t t' : Tree Stats) : Prop :=
| split_step_intro cus g i c :
    split_cus t = Ok cus -> last cus = Some (g, i, c) -> split t c = Ok t' ->
    split_step t t'.

(** [yields w g cs w' g']: consecutive [next] calls on [g], started in store
    [w], give the clusterings [cs] one after the other and leave the store
    [w'] and the generator [g']. *)
Inductive yields
  : gmap nat (Tree Stats) -> gen (Instance := Instance) -> list (list string) ->
    gmap nat (Tree Stats) -> gen (Instance := Instance) -> Prop :=
| yields_nil w g : yields w g [] w g
| yields_cons w g w1 g1 c cs w2 g2 :
    gen_next w g = (w1, g1, Yield c) -> yields w1 g1 cs w2 g2 ->
    yields w g (c :: cs) w2 g2.

(** [emitted minsplit temp lo t hi snaps cs]: the clusterings [cs] belong to
    rising values [n] of [nth_split] between [lo] and [hi], none below
    [minsplit]; [snaps] gives for each of them that [n] and the tree the driver
    had then, reached by splits from the tree of the one before ([t] for the
    first), and the clustering is the label vector of the recorded nodes
    [temp] in that tree. *)
Inductive emitted (minsplit : Z) (temp : list nat)
  : Z -> Tree Stats -> Z -> list (Z * Tree Stats) -> list (list string) -> Prop :=
| emitted_nil lo t hi : emitted minsplit temp lo t hi [] []
| emitted_cons lo t hi n t' c snaps cs :
    lo <= n <= hi -> minsplit <= n ->
    rtc split_step t t' ->
    clusters_of t' temp = Ok c ->
    emitted minsplit temp (n + 1) t' hi snaps cs ->
    emitted minsplit temp lo t hi ((n, t') :: snaps) (c :: cs).

(** One [next] call, whatever it answers. *)
Definition next_step
    (a b : gmap nat (Tree Stats) * gen (Instance := Instance)) : Prop :=
  exists s, gen_next a.1 a.2 = (b.1, b.2, s).

(** Two generators at the same point of the same run, each on its own copy
    of the same tree. *)
Definition gen_sim (a b : gmap nat (Tree Stats) * gen (Instance := Instance)) : Prop :=
  match a.2, b.2 with
  | GCreated tree X ms Ms md, GCreated tree' X' ms' Ms' md' =>
      X = X' /\ ms = ms' /\ Ms = Ms' /\ md = md' /\ a.1 !! tree = b.1 !! tree'
  | GSuspended fr, GSuspended fr' =>
      fr_temp fr = fr_temp fr' /\ fr_minsplit fr = fr_minsplit fr' /\
      fr_nth fr = fr_nth fr' /\ fr_rem fr = fr_rem fr' /\
      a.1 !! fr_tree fr = b.1 !! fr_tree fr'
  | GClosed, GClosed => True
  | _, _ => False
  end.

(** The tree objects of the store [w0] are as they were, and a running
    generator works on an object that was not in [w0]. *)
Definition keeps (w0 : gmap nat (Tree Stats))
    (a : gmap nat (Tree Stats) * gen (Instance := Instance)) : Prop :=
  (forall r0, r0 ∈ dom w0 -> a.1 !! r0 = w0 !! r0) /\
  match a.2 with
  | GCreated _ _ _ _ _ => a.1 = w0
  | GSuspended fr => fr_tree fr ∉ dom w0
  | GClosed => True
  end.

(** What a generator needs for its [next] calls to go through: a tree object
    that, with the instances in, is well-formed and has ending ancestor walks
    from the recorded nodes. *)
Definition gen_ok (w : gmap nat (Tree Stats)) (g : gen (Instance := Instance)) : Prop :=
  match g with
  | GCreated tree X _ _ md =>
      exists t_in, w !! tree = Some t_in /\
        wf_tree (insert_all md t_in X).1 /\
        Forall (rooted (insert_all md t_in X).1) (insert_all md t_in X).2
  | GSuspended fr =>
      exists t, w !! fr_tree fr = Some t /\ wf_tree t /\ Forall (rooted t) (fr_temp fr)
  | GClosed => True
  end.

(** The arguments pass the checks of lines 42-45. *)
Definition valid_args (g : gen (Instance := Instance)) : Prop :=
  match g with
  | GCreated _ _ minsplit maxsplit _ => 1 <= minsplit <= maxsplit
  | _ => True
  end.

End Runs.

(** The selection rule of the specification's Bounded-K Selector, over a
    finished sequence of clusterings: "if the count exceeds k, stop and return the
    previous clustering; otherwise adopt it as the new candidate result and
    continue"; at the end of the sequence, the last one adopted. *)
Fixpoint bounded_k (k : Z) (candidate : list string) (cs : list (list string))
  : list string :=
  match cs with
  | [] => candidate
  | c :: cs' =>
      if Z.of_nat (distinct c) >? k then candidate else bounded_k k c cs'
  end.

(** ** The loop run to its end *)

Section Whole.
Context {Stats Instance Score : Type} `{Ops : TreeOps Stats Instance Score}.

(** Lines 54-76 as [cluster] runs them, from the head of the loop with [rem]
    values of the range left to the end of the loop: the clusterings of all
    the [yield]s in a row. *)
Fixpoint splits_seq (minsplit : Z) (temp_clusters : list nat)
    (rem : nat) (nth_split : Z) (t : Tree Stats) : res (list (list string)) :=
  match rem with
  | O => Ok []
  | S rem' =>
      let rest :=
        cus ← split_cus t;
        match last cus with
        | None => Ok []
        | Some (_, _, c) =>
            t' ← split t c;
            splits_seq minsplit temp_clusters rem' (nth_split + 1) t'
        end in
      if nth_split >=? minsplit then
        clusters ← clusters_of t temp_clusters; cs ← rest; Ok (clusters :: cs)
      else rest
  end.

(** The same from behind the [yield] (lines 64-76 and the rounds after). *)
Definition splits_rest (minsplit : Z) (temp_clusters : list nat)
    (rem : nat) (nth_split : Z) (t : Tree Stats) : res (list (list string)) :=
  match rem with
  | O => Ok []
  | S rem' =>
      cus ← split_cus t;
      match last cus with
      | None => Ok []
      | Some (_, _, c) =>
          t' ← split t c;
          splits_seq minsplit temp_clusters rem' (nth_split + 1) t'
      end
  end.

(** What the comprehension of [cluster] makes of the answer to one [next]
    call: the clustering in front of what the later calls give. *)
Definition finish (fuel : nat)
    (a : gmap nat (Tree Stats) * gen (Instance := Instance) * signal)
  : res (list (list string)) :=
  match a with
  | (w', g', Yield c) => cs ← (exhaust fuel w' g').2; Ok (c :: cs)
  | (_, _, StopIteration) => Ok []
  | (_, _, Raised e) => Raise e
  end.

(** The number of values from [nth_split] on, of the [rem] the range still
    has, that are not below [minsplit]: the [yield]s the loop has room for. *)
Definition room (minsplit nth_split : Z) (rem : nat) : nat :=
  Z.to_nat (nth_split + Z.of_nat rem - Z.max nth_split minsplit).

(** [refines c' c]: instances with the same label in [c'] have the same label
    in [c]; the clusters of [c'] are parts of the clusters of [c]. *)
Definition refines (c' c : list string) : Prop :=
  forall a b, c' !! a = c' !! b -> c !! a = c !! b.

(** [rising cs]: the number of distinct labels never falls along [cs]. *)
Definition rising (cs : list (list string)) : Prop :=
  forall i j ci cj,
    (i < j)%nat -> cs !! i = Some ci -> cs !! j = Some cj ->
    (distinct ci <= distinct cj)%nat.

(** Python's [<] on the triples of line 64 once more, now with the comparison
    of two node objects in the third position as a parameter: [node_lt] says
    what [c1 < c2] gives, and [None] stands for a TypeError (node objects need
    not have an order). *)
Definition triple_lt_with (node_lt : nat -> nat -> option bool)
    (a b : Score * nat * nat) : option bool :=
  let '(g1, i1, c1) := a in
  let '(g2, i2, c2) := b in
  if score_eqb g1 g2 then
    if Nat.eqb i1 i2 then node_lt c1 c2 else Some (Nat.ltb i1 i2)
  else Some (score_ltb g1 g2).

(** [split_chain temp t cs]: the clusterings [cs] come one split after the
    other: each is the label vector of [temp] in the tree one split step
    after the tree of the one before ([t] for the first). *)
Inductive split_chain (temp : list nat) : Tree Stats -> list (list string) -> Prop :=
| split_chain_nil t : split_chain temp t []
| split_chain_cons t t' c cs :
    split_step t t' -> clusters_of t' temp = Ok c -> split_chain temp t' cs ->
    split_chain temp t (c :: cs).

End Whole.

(** ** Two generators at once *)

Section Pairs.
Context {Stats Instance Score : Type} `{Ops : TreeOps Stats Instance Score}.

(** [answers w g ss w' g']: consecutive [next] calls on [g], started in store
    [w], are answered by the signals [ss]: clusterings, the end of the
    iteration, exceptions. *)
Inductive answers
  : gmap nat (Tree Stats) -> gen (Instance := Instance) -> list signal ->
    gmap nat (Tree Stats) -> gen (Instance := Instance) -> Prop :=
| answers_nil w g : answers w g [] w g
| answers_cons w g w1 g1 s ss w2 g2 :
    gen_next w g = (w1, g1, s) -> answers w1 g1 ss w2 g2 ->
    answers w g (s :: ss) w2 g2.

(** [interleaved w g1 g2 ss1 ss2 w' g1' g2']: [next] calls on the two
    generators [g1] and [g2] in one store, in any order; [ss1] are the
    answers to the calls on [g1] and [ss2] those to the calls on [g2]. *)
Inductive interleaved
  : gmap nat (Tree Stats) -> gen (Instance := Instance) -> gen (Instance := Instance) ->
    list signal -> list signal ->
    gmap nat (Tree Stats) -> gen (Instance := Instance) -> gen (Instance := Instance) ->
    Prop :=
| interleaved_nil w g1 g2 : interleaved w g1 g2 [] [] w g1 g2
| interleaved_left w g1 g2 w1 g1' s ss1 ss2 w' g1'' g2' :
    gen_next w g1 = (w1, g1', s) ->
    interleaved w1 g1' g2 ss1 ss2 w' g1'' g2' ->
    interleaved w g1 g2 (s :: ss1) ss2 w' g1'' g2'
| interleaved_right w g1 g2 w1 g2' s ss1 ss2 w' g1' g2'' :
    gen_next w g2 = (w1, g2', s) ->
    interleaved w1 g1 g2' ss1 ss2 w' g1' g2'' ->
    interleaved w g1 g2 ss1 (s :: ss2) w' g1' g2''.

(** The tree object a generator reads at its next call: the tree it was made
    for, or its copy. *)
Definition reads (g : gen (Instance := Instance)) : option nat :=
  match g with
  | GCreated tree _ _ _ _ => Some tree
  | GSuspended fr => Some (fr_tree fr)
  | GClosed => None
  end.

(** The copy a generator has made. *)
Definition own (g : gen (Instance := Instance)) : option nat :=
  match g with
  | GSuspended fr => Some (fr_tree fr)
  | _ => None
  end.

(** Two generators in a store, each reading an object of the store that is
    not the copy of the other. *)
Definition apart (w : gmap nat (Tree Stats)) (g1 g2 : gen (Instance := Instance)) : Prop :=
  (forall r, reads g1 = Some r -> r ∈ dom w /\ own g2 <> Some r) /\
  (forall r, reads g2 = Some r -> r ∈ dom w /\ own g1 <> Some r).

End Pairs.

(** ** A small tree to run the functions on *)

(** A stand-in for the collaborator: an instance names the node it is sorted
    into, fitting keeps the tree as it is, the utility of splitting a node is
    the number of its children, and scores are integers. *)
Definition toy_ops : TreeOps unit nat Z := {|
  ifit := fun t x => (t, x);
  categorize := fun t x => x;
  cu_for_split := fun t c =>
    match nodes t !! c with
    | Some n => Z.of_nat (length (children n))
    | None => 0
    end;
  category_utility := fun t => 0;
  score_sub := Z.sub;
  score_eqb := Z.eqb;
  score_ltb := Z.ltb
|}.

Definition arena (l : list (nat * (string * option nat * list nat)))
  : gmap nat (Node unit) :=
  list_to_map (map (fun '(c, (i, p, cs)) => (c, mkNode i p cs tt)) l).

(** Root [r] over [a] and [b]; [a] over [c] and [d]; [b] over [e] and [f];
    [c] over [g] and [h]. *)
Definition toy_tree : Tree unit :=
  mkTree 0%nat (arena [
    (0, ("r", None, [1; 2])); (1, ("a", Some 0, [3; 4])); (2, ("b", Some 0, [5; 6]));
    (3, ("c", Some 1, [7; 8])); (4, ("d", Some 1, [])); (5, ("e", Some 2, []));
    (6, ("f", Some 2, [])); (7, ("g", Some 3, [])); (8, ("h", Some 3, []))
  ]%nat).

(** A store with that tree as object 5, and five instances on its leaves. *)
Definition toy_store : gmap nat (Tree unit) := {[ 5%nat := toy_tree ]}.
Definition toy_instances : list nat := [7; 8; 4; 5; 6]%nat.

(** The clusterings of the five instances after no, one, two and three
    splits of [toy_tree]. *)
Definition toy_cut0 : list string :=
  ["Concepta"; "Concepta"; "Concepta"; "Conceptb"; "Conceptb"].
Definition toy_cut1 : list string :=
  ["Concepta"; "Concepta"; "Concepta"; "Concepte"; "Conceptf"].
Definition toy_cut2 : list string :=
  ["Conceptc"; "Conceptc"; "Conceptd"; "Concepte"; "Conceptf"].
Definition toy_cut3 : list string :=
  ["Conceptg"; "Concepth"; "Conceptd"; "Concepte"; "Conceptf"].

(** A stand-in for a collaborator that learns: fitting an instance renames
    the root, so that a tree with an instance in shows in every label of the
    root cut. *)
Definition marking_ops : TreeOps unit nat Z := {|
  ifit := fun t x =>
    (mkTree (root t) (alter (fun n => mkNode (concept_id n +:+ "'") (parent n)
                                             (children n) (stats n))
                            (root t) (nodes t)), x);
  categorize := fun t x => x;
  cu_for_split := fun t c =>
    match nodes t !! c with
    | Some n => Z.of_nat (length (children n))
    | None => 0
    end;
  category_utility := fun t => 0;
  score_sub := Z.sub;
  score_eqb := Z.eqb;
  score_ltb := Z.ltb
|}.

(** ** A wide tree *)

(** A fan of [N] inner nodes under the root, beside a small cluster: the root
    0 has the children 1 and 4, ..., [N+3]; node 1 has the leaves 2 and 3; a
    node [e] of 4, ..., [N+3] has the leaves [e + N] and [e + 2N].  No node is
    more than two parent links away from the root.  Concept ids are the
    numbers in decimal. *)
Definition fan_node (N e : nat) : Node unit :=
  if (e =? 0)%nat then mkNode (pretty e) None (1%nat :: seq 4 N) tt
  else if (e =? 1)%nat then mkNode (pretty e) (Some 0%nat) [2; 3]%nat tt
  else if (e <? 4)%nat then mkNode (pretty e) (Some 1%nat) [] tt
  else if (e <? 4 + N)%nat then
    mkNode (pretty e) (Some 0%nat) [e + N; e + 2 * N]%nat tt
  else if (e <? 4 + 2 * N)%nat then mkNode (pretty e) (Some (e - N)%nat) [] tt
  else mkNode (pretty e) (Some (e - 2 * N)%nat) [] tt.

Definition fan (N : nat) : Tree unit :=
  mkTree 0%nat (list_to_map (map (fun e => (e, fan_node N e)) (seq 0 (3 * N + 4)))).

Definition fan_store (N : nat) : gmap nat (Tree unit) := {[ 0%nat := fan N ]}.

(** A fan the default [maxsplit] cannot split to the end: 99999 inner nodes
    and node 1, one split more than 100000 clusterings come with. *)
Definition wide : nat := Z.to_nat (default_maxsplit - 1).

(** The collaborator for the fan: an instance names its node, and splitting
    node 1 is worth less than splitting any other node. *)
Definition fan_ops : TreeOps unit nat Z := {|
  ifit := fun t x => (t, x);
  categorize := fun t x => x;
  cu_for_split := fun t c => if (c =? 1)%nat then 0 else 1;
  category_utility := fun t => 0;
  score_sub := Z.sub;
  score_eqb := Z.eqb;
  score_ltb := Z.ltb
|}.

(** The fan after [j] of its inner nodes have been split, the ones with the
    greatest numbers: the root has node 1, the other inner nodes and promoted
    leaves as children. *)
Record fan_inv (N j : nat) (t : Tree unit) : Prop := mk_fan_inv {
  fi_wf : wf_tree t;
  fi_root : root t = 0%nat;
  fi_children : exists rn ls,
    nodes t !! 0%nat = Some rn /\ parent rn = None /\
    children rn = 1%nat :: seq 4 (N - j) ++ ls /\
    Forall (fun l => (4 + N <= l < 4 + 3 * N)%nat) ls;
  fi_one : exists n1,
    nodes t !! 1%nat = Some n1 /\ parent n1 = Some 0%nat /\
    children n1 = [2; 3]%nat /\ concept_id n1 = pretty 1%nat;
  fi_two : exists n2,
    nodes t !! 2%nat = Some n2 /\ parent n2 = Some 1%nat /\
    children n2 = [] /\ concept_id n2 = pretty 2%nat;
  fi_three : exists n3, nodes t !! 3%nat = Some n3 /\ children n3 = [];
  fi_inner : forall e, (4 <= e < 4 + (N - j))%nat ->
    exists ne, nodes t !! e = Some ne /\ children ne = [e + N; e + 2 * N]%nat;
  fi_leaf : forall e, (4 + N <= e < 4 + 3 * N)%nat ->
    exists nl, nodes t !! e = Some nl /\ children nl = []
}.

(** The clusterings of the one instance on node 2 that follow a [yield] with
    [j] inner nodes split and [rem] values of the range left. *)
Fixpoint fan_outs (N j rem : nat) : list (list string) :=
  match rem with
  | O => []
  | S rem' =>
      match rem' with
      | O => []
      | S _ =>
          if decide (j < N)%nat
          then ["Concept" +:+ pretty 1%nat] :: fan_outs N (S j) rem'
          else [["Concept" +:+ pretty 2%nat]]
      end
  end.

(** ** Checking the shape of a concrete tree *)

Definition child_ok {Stats} (t : Tree Stats) (a c : nat) : bool :=
  match nodes t !! c with
  | Some nc =>
      bool_decide (parent nc = Some a) || bool_decide (parent nc = Some (root t))
  | None => false
  end.

Definition node_ok {Stats} (t : Tree Stats) (c : nat) (n : Node Stats) : bool :=
  match parent n with
  | None => bool_decide (c = root t)
  | Some _ => true
  end
  && forallb (child_ok t c) (children n)
  && bool_decide (map_Forall (fun c' n' => concept_id n = concept_id n' -> c = c')
                             (nodes t)).

Definition wf_check {Stats} (t : Tree Stats) : bool :=
  match nodes t !! root t with
  | Some r => bool_decide (parent r = None)
  | None => false
  end
  && bool_decide (map_Forall (fun c n => node_ok t c n = true) (nodes t)).

(** ** Data sets for the benchmark: [test/benchmark_cobweb.py] *)

(** The two generators of random data sets.  [time_dt], [time] and the script
    at the end of the file measure running times and draw a plot; they have no
    counterpart here. *)

Section Datasets.
Context {Rng : Type}.

(** The source of the random numbers, which the module takes from
    [random]: from the state of the source, a number for the range [a..b] and
    the state after the draw. *)
Variable draw : Rng -> Z -> Z -> Z * Rng.

(** [random.randint(a, b)]: "a random integer N such that a <= N <= b", and
    a ValueError when the range is empty. *)
Definition randint (s : Rng) (a b : Z) : res (Z * Rng) :=
  if a >? b then Raise (ValueError "empty range for randrange()")
  else Ok (draw s a b).

(** [generate_dt_dataset], lines 13-17: the loop over [j], with the row [i]
    of the instance and the labels [y]. *)
Fixpoint dt_attrs (js : list nat) (n_val : Z) (i y : list Z) (s : Rng)
  : res (list Z * list Z * Rng) :=
  match js with
  | [] => Ok (i, y, s)
  | j :: js' =>
      '(v, s') ← randint s 1 n_val;
      if (j =? 0)%nat then dt_attrs js' n_val i (y ++ [v]) s'
      else dt_attrs js' n_val (i ++ [v]) y s'
  end.

(** Lines 11-18: the loop over the instances. *)
Fixpoint dt_insts (n n_attr : nat) (n_val : Z) (x : list (list Z)) (y : list Z) (s : Rng)
  : res (list (list Z) * list Z * Rng) :=
  match n with
  | O => Ok (x, y, s)
  | S n' =>
      '(i, y', s') ← dt_attrs (seq 0 n_attr) n_val [] y s;
      dt_insts n' n_attr n_val (x ++ [i]) y' s'
  end.

(** [generate_dt_dataset(n_inst, n_attr, n_val)], lines 8-19: the pair
    [(x, y)], and the state of the source afterwards. *)
Definition generate_dt_dataset (s : Rng) (n_inst n_attr n_val : Z)
  : res (list (list Z) * list Z * Rng) :=
  dt_insts (Z.to_nat n_inst) (Z.to_nat n_attr) n_val [] [] s.

(** [generate_dataset], lines 26-27: the loop over [j]; the instance [i] is
    a dict with the keys [str(j)]. *)
Fixpoint ds_attrs (js : list nat) (n_val : Z) (i : gmap string Z) (s : Rng)
  : res (gmap string Z * Rng) :=
  match js with
  | [] => Ok (i, s)
  | j :: js' =>
      '(v, s') ← randint s 1 n_val;
      ds_attrs js' n_val (<[pretty j := v]> i) s'
  end.

(** Lines 24-28: the loop over the instances. *)
Fixpoint ds_insts (n n_attr : nat) (n_val : Z) (instances : list (gmap string Z)) (s : Rng)
  : res (list (gmap string Z) * Rng) :=
  match n with
  | O => Ok (instances, s)
  | S n' =>
      '(i, s') ← ds_attrs (seq 0 n_attr) n_val ∅ s;
      ds_insts n' n_attr n_val (instances ++ [i]) s'
  end.

(** [generate_dataset(n_inst, n_attr, n_val)], lines 22-29. *)
Definition generate_dataset (s : Rng) (n_inst n_attr n_val : Z)
  : res (list (gmap string Z) * Rng) :=
  ds_insts (Z.to_nat n_inst) (Z.to_nat n_attr) n_val [] s.

(** What [random] promises of a draw. *)
Definition draw_in_range : Prop :=
  forall s a b, a <= b -> a <= (draw s a b).1 <= b.

End Datasets.

(** A source of numbers to run the generators on: a counter, taken modulo
    the size of the range. *)
Definition counter_draw (s a b : Z) : Z * Z := (a + s mod (b - a + 1), s + 1).

(** * Properties *)

(** ** The result monad *)

Lemma res_mapM_length {A B} (f : A -> res B) l ys :
  res_mapM f l = Ok ys -> length ys = length l.
Proof.
  revert ys; induction l as [|x l IH]; intros ys; simpl.
  - intros [= <-]. reflexivity.
  - destruct (f x) as [y|e]; simpl; [|discriminate].
    destruct (res_mapM f l) as [ys'|e]; simpl; [|discriminate].
    intros [= <-]. simpl. f_equal. apply IH. reflexivity.
Qed.

Lemma res_mapM_Forall2 {A B} (f : A -> res B) l ys :
  res_mapM f l = Ok ys <-> Forall2 (fun x y => f x = Ok y) l ys.
Proof.
  revert ys; induction l as [|x l IH]; intros ys; simpl.
  - split; [intros [= <-]; constructor | intros H; inversion H; reflexivity].
  - split.
    + destruct (f x) as [y|e] eqn:Hx; simpl; [|discriminate].
      destruct (res_mapM f l) as [ys'|e] eqn:Hl; simpl; [|discriminate].
      intros [= <-]. constructor; [assumption | apply IH; reflexivity].
    + intros H. inversion H as [|x' y l' ys' Hx Hl]; subst.
      rewrite Hx. simpl. apply IH in Hl. rewrite Hl. reflexivity.
Qed.

Lemma res_mapM_const {A B} (r : res B) (l : list A) y :
  r = Ok y -> res_mapM (fun _ => r) l = Ok (map (fun _ => y) l).
Proof.
  intros ->. induction l as [|x l IH]; simpl; [reflexivity|]. rewrite IH. reflexivity.
Qed.

Lemma res_mapM_const_inv {A B} (r : res B) (l : list A) ys :
  res_mapM (fun _ => r) l = Ok ys -> ys = [] \/ exists y, ys = map (fun _ => y) l.
Proof.
  destruct r as [y|e].
  - rewrite (res_mapM_const (Ok y) l y eq_refl). intros [= <-]. eauto.
  - destruct l; simpl; [intros [= <-]; tauto|discriminate].
Qed.

Lemma res_mapM_total {A B} (f : A -> res B) l :
  Forall (fun x => exists y, f x = Ok y) l -> exists ys, res_mapM f l = Ok ys.
Proof.
  induction 1 as [|x l [y Hy] _ [ys IH]]; simpl; [eauto|].
  rewrite Hy, IH. simpl. eauto.
Qed.

(** ** Lookups after a split *)

Lemma lookup_foldr_alter {V} (f : V -> V) (l : list nat) (h : gmap nat V) c :
  (forall v, f (f v) = f v) ->
  foldr (fun c h' => alter f c h') h l !! c =
  (if decide (c ∈ l) then f else id) <$> h !! c.
Proof.
  intros Hf. induction l as [|a l IH]; cbn [foldr].
  - rewrite decide_False by apply not_elem_of_nil.
    destruct (h !! c); reflexivity.
  - rewrite lookup_alter. destruct (decide (a = c)) as [->|Hne].
    + rewrite decide_True by apply list_elem_of_here.
      rewrite IH. destruct (decide (c ∈ l)); destruct (h !! c); simpl; congruence.
    + rewrite IH. destruct (decide (c ∈ l)) as [Hin|Hnin].
      * rewrite decide_True by (apply list_elem_of_further; exact Hin). reflexivity.
      * rewrite decide_False; [reflexivity|].
        intros Hin. apply elem_of_cons in Hin as [->|Hin]; tauto.
Qed.

Lemma split_inv {Stats} (t t' : Tree Stats) best :
  split t best = Ok t' ->
  exists r b,
    nodes t !! root t = Some r /\ nodes t !! best = Some b /\
    root t' = root t /\
    forall c, nodes t' !! c = split_node t r b best c <$> nodes t !! c.
Proof.
  unfold split. destruct (nodes t !! root t) as [r|] eqn:Hr; [|discriminate].
  destruct (nodes t !! best) as [b|] eqn:Hb; [|discriminate].
  intros [= <-]. exists r, b. repeat split; try reflexivity.
  intros c. cbn [nodes root]. rewrite lookup_foldr_alter by reflexivity.
  unfold split_node. rewrite lookup_insert.
  destruct (decide (root t = c)) as [<-|Hne].
  - rewrite Hr. destruct (decide (root t = root t)); [|congruence].
    destruct (decide (root t ∈ children b)); reflexivity.
  - destruct (decide (c = root t)); [congruence|].
    destruct (decide (c ∈ children b)); destruct (nodes t !! c); reflexivity.
Qed.

Lemma split_total {Stats} (t : Tree Stats) best r b :
  nodes t !! root t = Some r -> nodes t !! best = Some b ->
  exists t', split t best = Ok t'.
Proof. intros Hr Hb. unfold split. rewrite Hr, Hb. eauto. Qed.

Lemma elem_of_remove_first x c l : c ∈ remove_first x l -> c ∈ l.
Proof.
  induction l as [|y l IH]; simpl; [tauto|].
  destruct (decide (x = y)); intros H.
  - apply list_elem_of_further, H.
  - apply elem_of_cons in H as [->|H]; [apply list_elem_of_here|].
    apply list_elem_of_further, IH, H.
Qed.

Lemma split_node_id {Stats} (t : Tree Stats) r b best c n :
  concept_id (split_node t r b best c n) = concept_id n.
Proof.
  unfold split_node.
  destruct (decide (c = root t)), (decide (c ∈ children b)); reflexivity.
Qed.

Lemma split_node_parent {Stats} (t : Tree Stats) r b best c n :
  parent (split_node t r b best c n) =
  if decide (c ∈ children b) then Some (root t) else parent n.
Proof.
  unfold split_node.
  destruct (decide (c = root t)), (decide (c ∈ children b)); reflexivity.
Qed.

Lemma split_node_children {Stats} (t : Tree Stats) r b best c n :
  children (split_node t r b best c n) =
  if decide (c = root t)
  then remove_first best (children r) ++ children b
  else children n.
Proof.
  unfold split_node.
  destruct (decide (c = root t)), (decide (c ∈ children b)); reflexivity.
Qed.

Lemma split_lookup_Some {Stats} (t t' : Tree Stats) r b best :
  (forall c, nodes t' !! c = split_node t r b best c <$> nodes t !! c) ->
  forall c n', nodes t' !! c = Some n' ->
  exists n, nodes t !! c = Some n /\ n' = split_node t r b best c n.
Proof.
  intros H c n' Hc. rewrite H in Hc.
  destruct (nodes t !! c) as [n|]; [|discriminate].
  injection Hc as <-. eauto.
Qed.

(** A well-formed tree never lists the root among the children of a node. *)
Lemma wf_root_not_child {Stats} (t : Tree Stats) a na :
  wf_tree t -> nodes t !! a = Some na -> root t ∉ children na.
Proof.
  intros Hwf Ha Hin. destruct (wf_root t Hwf) as (r & Hr & Hp).
  destruct (wf_children t Hwf a na (root t) Ha Hin) as (nc & Hnc & Hpar).
  rewrite Hr in Hnc. injection Hnc as <-. rewrite Hp in Hpar.
  destruct Hpar; discriminate.
Qed.

(** Splitting keeps a tree well-formed. *)
Lemma split_wf {Stats} (t t' : Tree Stats) best :
  wf_tree t -> split t best = Ok t' -> wf_tree t'.
Proof.
  intros Hwf Hs. destruct (split_inv _ _ _ Hs) as (r & b & Hr & Hb & Hroot & Hl).
  pose proof (split_lookup_Some _ _ _ _ _ Hl) as Hinv.
  destruct (wf_root t Hwf) as (r0 & Hr0 & Hp0).
  assert (r0 = r) by congruence. subst r0.
  split.
  - exists (split_node t r b best (root t) r). rewrite Hroot, Hl, Hr. split; [reflexivity|].
    rewrite split_node_parent.
    rewrite decide_False by (eapply wf_root_not_child; eassumption). exact Hp0.
  - intros c n' Hc Hp. destruct (Hinv _ _ Hc) as (n & Hn & ->).
    rewrite split_node_parent in Hp. rewrite Hroot.
    destruct (decide (c ∈ children b)); [discriminate|].
    eapply wf_sole; eassumption.
  - intros a na' c Ha Hin. destruct (Hinv _ _ Ha) as (na & Hna & ->).
    rewrite split_node_children in Hin. rewrite Hroot.
    assert (Hcase : c ∈ children b \/ c ∈ children na).
    { destruct (decide (a = root t)) as [->|]; [|tauto].
      apply elem_of_app in Hin as [Hin|Hin]; [|tauto].
      right. apply elem_of_remove_first in Hin. congruence. }
    assert (exists nc, nodes t !! c = Some nc) as [nc Hnc].
    { destruct Hcase as [Hin'|Hin'].
      - destruct (wf_children t Hwf _ _ _ Hb Hin') as (nc & ? & _); eauto.
      - destruct (wf_children t Hwf _ _ _ Hna Hin') as (nc & ? & _); eauto. }
    exists (split_node t r b best c nc). rewrite Hl, Hnc. split; [reflexivity|].
    rewrite split_node_parent.
    destruct (decide (c ∈ children b)) as [|Hnb]; [tauto|].
    destruct Hcase as [|Hin']; [tauto|].
    destruct (wf_children t Hwf _ _ _ Hna Hin') as (nc' & Hnc' & Hpar).
    congruence.
  - intros a c na' nc' Ha Hc Hid.
    destruct (Hinv _ _ Ha) as (na & Hna & ->).
    destruct (Hinv _ _ Hc) as (nc & Hnc & ->).
    rewrite !split_node_id in Hid. eapply wf_ids; eassumption.
Qed.

(** ** Ancestor walks *)

Lemma chain_fun {Stats} (t : Tree Stats) c k1 k2 :
  chain t c k1 -> chain t c k2 -> k1 = k2.
Proof.
  intros H; revert k2; induction H as [c n Hn Hp|c n p k Hn Hp Hc IH]; intros k2 H2.
  - inversion H2; subst; [reflexivity|congruence].
  - inversion H2 as [|c' n' p' k' Hn' Hp' Hc']; subst; [congruence|].
    f_equal. apply IH. congruence.
Qed.

Lemma chain_pos {Stats} (t : Tree Stats) c k : chain t c k -> (1 <= k)%nat.
Proof. destruct 1; lia. Qed.

Lemma chain_node {Stats} (t : Tree Stats) c k :
  chain t c k -> exists n, nodes t !! c = Some n.
Proof. destruct 1; eauto. Qed.

(** The nodes of a chain are pairwise distinct nodes of the arena, so a chain
    is never longer than the arena is large. *)
Lemma chain_nodes {Stats} (t : Tree Stats) c k :
  chain t c k ->
  exists l : list nat,
    length l = k /\ NoDup l /\
    forall x, x ∈ l -> exists j, (j <= k)%nat /\ chain t x j.
Proof.
  induction 1 as [c n Hn Hp|c n p k Hn Hp Hc (l & Hlen & Hnd & Hl)].
  - exists [c]. split; [reflexivity|]. split; [apply NoDup_singleton|].
    intros x Hx. apply list_elem_of_singleton in Hx as ->.
    exists 1%nat. split; [lia|]. eapply chain_top; eassumption.
  - assert (Hck : chain t c (S k)) by (eapply chain_up; eassumption).
    exists (c :: l). split; [simpl; congruence|]. split.
    + apply NoDup_cons. split; [|assumption].
      intros Hin. destruct (Hl _ Hin) as (j & Hj & Hcj).
      pose proof (chain_fun _ _ _ _ Hck Hcj). lia.
    + intros x Hx. apply elem_of_cons in Hx as [->|Hx].
      * exists (S k). split; [lia|assumption].
      * destruct (Hl _ Hx) as (j & Hj & Hcj). exists j. split; [lia|assumption].
Qed.

Lemma chain_bound {Stats} (t : Tree Stats) c k :
  chain t c k -> (k <= size (nodes t))%nat.
Proof.
  intros H. destruct (chain_nodes _ _ _ H) as (l & <- & Hnd & Hl).
  rewrite <- size_dom. unfold size, set_size. simpl.
  apply submseteq_length, NoDup_submseteq; [assumption|].
  intros x Hx. apply elem_of_elements, elem_of_dom.
  destruct (Hl _ Hx) as (j & _ & Hj). destruct (chain_node _ _ _ Hj) as [n Hn].
  rewrite Hn. eauto.
Qed.

Lemma depth1_fun {Stats} (t : Tree Stats) c x y :
  depth1 t c x -> depth1 t c y -> x = y.
Proof.
  intros H; revert y.
  induction H as [c n Hn Hp|c n p pn Hn Hp Hpn Hpp|c n p pn q x Hn Hp Hpn Hpp _ IH];
    intros y Hy; inversion Hy; subst; try reflexivity; try congruence.
  apply IH. congruence.
Qed.

Lemma depth1_up_inv {Stats} (t : Tree Stats) c n p pn x :
  nodes t !! c = Some n -> parent n = Some p ->
  nodes t !! p = Some pn -> is_Some (parent pn) ->
  depth1 t c x -> depth1 t p x.
Proof.
  intros Hn Hp Hpn [q Hq] H. inversion H; subst; congruence.
Qed.

Lemma depth1_node {Stats} (t : Tree Stats) c x :
  depth1 t c x -> exists nx, nodes t !! x = Some nx.
Proof. induction 1; eauto. Qed.

Lemma climb_depth1 {Stats} (t : Tree Stats) fuel c x :
  climb fuel t c = Ok x -> depth1 t c x.
Proof.
  revert c; induction fuel as [|fuel IH]; intros c; simpl; [discriminate|].
  destruct (nodes t !! c) as [n|] eqn:Hn; [|discriminate].
  destruct (parent n) as [p|] eqn:Hp.
  - destruct (nodes t !! p) as [pn|] eqn:Hpn; [|discriminate].
    destruct (parent pn) as [q|] eqn:Hpp.
    + intros H. eapply depth1_up; eauto.
    + intros [= <-]. eapply depth1_here; eauto.
  - intros [= <-]. eapply depth1_orphan; eauto.
Qed.

Lemma climb_total {Stats} (t : Tree Stats) c k fuel :
  chain t c k -> (k <= fuel)%nat -> exists x, climb fuel t c = Ok x.
Proof.
  intros H; revert fuel.
  induction H as [c n Hn Hp|c n p k Hn Hp Hc IH]; intros fuel Hle.
  - destruct fuel as [|fuel]; [lia|]. simpl. rewrite Hn, Hp. eauto.
  - destruct fuel as [|fuel]; [lia|]. simpl. rewrite Hn, Hp.
    destruct (chain_node _ _ _ Hc) as [pn Hpn]. rewrite Hpn.
    destruct (parent pn); [|eauto]. apply IH. lia.
Qed.

(** On a node with an ancestor walk that ends, the bound of [clusters_of] is
    never hit. *)
Lemma climb_rooted {Stats} (t : Tree Stats) c :
  rooted t c -> exists x, climb (size (nodes t)) t c = Ok x.
Proof.
  intros [k Hk]. eapply climb_total; [exact Hk|]. eapply chain_bound, Hk.
Qed.

(** In a well-formed tree the walk stops below the root, or at the root when
    it starts there. *)
Lemma depth1_wf {Stats} (t : Tree Stats) c x :
  wf_tree t -> depth1 t c x ->
  exists nx, nodes t !! x = Some nx /\
             (parent nx = Some (root t) \/ (x = c /\ c = root t)).
Proof.
  intros Hwf. induction 1 as [c n Hn Hp|c n p pn Hn Hp Hpn Hpp|c n p pn q x Hn Hp Hpn Hpp _ IH].
  - exists n. split; [assumption|]. right. split; [reflexivity|].
    eapply wf_sole; eassumption.
  - exists n. split; [assumption|]. left.
    rewrite Hp. f_equal. eapply wf_sole; eassumption.
  - destruct IH as (nx & Hnx & [Hpar|[-> ->]]).
    + exists nx. tauto.
    + destruct (wf_root t Hwf) as (r & Hr & Hrp). congruence.
Qed.

Lemma clusters_of_spec {Stats} (t : Tree Stats) temp c :
  clusters_of t temp = Ok c ->
  Forall2 (fun leaf lab => exists x nx,
             depth1 t leaf x /\ nodes t !! x = Some nx /\
             lab = "Concept" +:+ concept_id nx) temp c.
Proof.
  unfold clusters_of. rewrite res_mapM_Forall2.
  intros HF. eapply Forall2_impl; [exact HF|]. clear HF. cbv beta. intros leaf lab H.
  destruct (climb (size (nodes t)) t leaf) as [x|] eqn:Hx; [|discriminate].
  simpl in H. unfold label_of in H.
  destruct (nodes t !! x) as [nx|] eqn:Hnx; [|discriminate].
  injection H as <-. exists x, nx. eauto using climb_depth1.
Qed.

Lemma clusters_of_total {Stats} (t : Tree Stats) temp :
  Forall (rooted t) temp -> exists c, clusters_of t temp = Ok c.
Proof.
  intros H. apply res_mapM_total. eapply Forall_impl; [exact H|].
  intros leaf Hr. destruct (climb_rooted _ _ Hr) as [x Hx]. rewrite Hx. simpl.
  destruct (depth1_node _ _ _ (climb_depth1 _ _ _ _ Hx)) as [nx Hnx].
  unfold label_of. rewrite Hnx. eauto.
Qed.

Lemma clusters_of_length {Stats} (t : Tree Stats) temp c :
  clusters_of t temp = Ok c -> length c = length temp.
Proof. apply res_mapM_length. Qed.

(** An ancestor walk that ends before a split ends after it. *)
Lemma split_rooted {Stats} (t t' : Tree Stats) best c :
  wf_tree t -> split t best = Ok t' -> rooted t c -> rooted t' c.
Proof.
  intros Hwf Hs [k Hk].
  pose proof (split_wf _ _ _ Hwf Hs) as Hwf'.
  destruct (split_inv _ _ _ Hs) as (r & b & Hr & Hb & Hroot & Hl).
  destruct (wf_root t' Hwf') as (r' & Hr' & Hrp').
  induction Hk as [c n Hn Hp|c n p k Hn Hp Hc IH].
  - exists 1%nat. rewrite (wf_sole t Hwf _ _ Hn Hp), <- Hroot.
    eapply chain_top; eassumption.
  - assert (Hn' : nodes t' !! c = Some (split_node t r b best c n))
      by (rewrite Hl, Hn; reflexivity).
    destruct (decide (c ∈ children b)) as [Hin|Hnin].
    + exists 2%nat. apply (chain_up t' c _ (root t) 1 Hn').
      * rewrite split_node_parent, decide_True by assumption. reflexivity.
      * rewrite <- Hroot. apply (chain_top t' _ r' Hr' Hrp').
    + destruct IH as [k' Hk']. exists (S k').
      eapply chain_up; [exact Hn'| |exact Hk'].
      rewrite split_node_parent, decide_False by assumption. assumption.
Qed.

(** ** Counting labels *)

Lemma distinct_cons_in a l : a ∈ l -> distinct (a :: l) = distinct l.
Proof.
  intros H. unfold distinct. simpl. f_equal.
  apply set_eq. intros x. rewrite elem_of_union, elem_of_singleton, !elem_of_list_to_set.
  split; [intros [->|]; assumption | tauto].
Qed.

Lemma distinct_cons_notin a l : a ∉ l -> distinct (a :: l) = S (distinct l).
Proof.
  intros H. unfold distinct. simpl.
  rewrite size_union, size_singleton; [reflexivity|].
  apply disjoint_singleton_l. rewrite elem_of_list_to_set. assumption.
Qed.

Lemma distinct_cons_le a l : (distinct l <= distinct (a :: l))%nat.
Proof.
  destruct (decide (a ∈ l)).
  - rewrite distinct_cons_in by assumption. lia.
  - rewrite distinct_cons_notin by assumption. lia.
Qed.

(** When every label of [new] determines the label of [old] at the same
    position, [old] has no more distinct labels than [new]. *)
Lemma distinct_le_of_functional (R : string -> string -> Prop) new old :
  (forall a b1 b2, R a b1 -> R a b2 -> b1 = b2) ->
  Forall2 R new old -> (distinct old <= distinct new)%nat.
Proof.
  intros Hfun. induction 1 as [|a b new old Hab HF IH]; [reflexivity|].
  destruct (decide (b ∈ old)) as [Hb|Hb].
  - rewrite (distinct_cons_in b) by assumption.
    pose proof (distinct_cons_le a new). lia.
  - rewrite (distinct_cons_notin b) by assumption.
    rewrite distinct_cons_notin; [lia|].
    intros Ha. apply list_elem_of_lookup in Ha as [i Hi].
    destruct (Forall2_lookup_l _ _ _ _ _ HF Hi) as (b' & Hb' & HR).
    rewrite (Hfun _ _ _ Hab HR) in Hb.
    apply Hb. eapply list_elem_of_lookup_2, Hb'.
Qed.

Lemma label_inj (s1 s2 : string) : "Concept" +:+ s1 = "Concept" +:+ s2 -> s1 = s2.
Proof. simpl. intros H. injection H as H. exact H. Qed.

(** ** One split and the labels *)

Section OneSplit.
Context {Stats : Type} (t t' : Tree Stats) (best : nat) (r b : Node Stats).
Hypothesis Hwf : wf_tree t.
Hypothesis Hsplit : split t best = Ok t'.
Hypothesis Hr : nodes t !! root t = Some r.
Hypothesis Hbest : best ∈ children r.
Hypothesis Hb : nodes t !! best = Some b.

Lemma best_not_root : best <> root t.
Proof.
  intros ->. eapply (wf_root_not_child t (root t) r); eassumption.
Qed.

Lemma best_parent : parent b = Some (root t).
Proof.
  destruct (wf_children t Hwf _ _ _ Hr Hbest) as (nb & Hnb & Hp).
  assert (nb = b) by congruence. subst nb. destruct Hp; assumption.
Qed.

Lemma split_lookup c :
  nodes t' !! c = split_node t r b best c <$> nodes t !! c.
Proof.
  destruct (split_inv _ _ _ Hsplit) as (r0 & b0 & Hr0 & Hb0 & _ & Hl).
  assert (r0 = r) by congruence. assert (b0 = b) by congruence. subst. apply Hl.
Qed.

Lemma split_root : root t' = root t.
Proof. destruct (split_inv _ _ _ Hsplit) as (_ & _ & _ & _ & H & _). exact H. Qed.

Lemma split_root_orphan :
  exists r', nodes t' !! root t = Some r' /\ parent r' = None.
Proof.
  destruct (wf_root t' (split_wf _ _ _ Hwf Hsplit)) as (r' & H1 & H2).
  rewrite split_root in H1. eauto.
Qed.

(** A walk ends where it ended before the split, unless it passed through a
    promoted child of the split node: then it ended at the split node before
    and ends at that child now. *)
Lemma split_depth1 c x x' :
  depth1 t c x -> depth1 t' c x' ->
  (x' = x /\ ~ promoted t best b x) \/ (x = best /\ promoted t best b x').
Proof.
  destruct split_root_orphan as (r' & Hr' & Hrp').
  destruct (wf_root t Hwf) as (r0 & Hr0 & Hrp). assert (r0 = r) by congruence. subst r0.
  intros H; revert x'.
  induction H as [c n Hn Hp|c n p pn Hn Hp Hpn Hpp|c n p pn q x Hn Hp Hpn Hpp Hd IH];
    intros x' Hx'.
  - assert (c = root t) by (eapply wf_sole; eassumption). subst c.
    left. split.
    + eapply depth1_fun; [exact Hx'|]. eapply depth1_orphan; eassumption.
    + intros [Hin _]. eapply (wf_root_not_child t best b); eassumption.
  - assert (p = root t) by (eapply wf_sole; eassumption). subst p.
    left. split.
    + eapply depth1_fun; [exact Hx'|].
      eapply (depth1_here t' c (split_node t r b best c n) (root t) r');
        [rewrite split_lookup, Hn; reflexivity| |assumption|assumption].
      rewrite split_node_parent. destruct (decide (c ∈ children b)); congruence.
    + intros [_ (ny & Hny & Hpy)]. apply best_not_root. congruence.
  - assert (Hn' : nodes t' !! c = Some (split_node t r b best c n))
      by (rewrite split_lookup, Hn; reflexivity).
    destruct (decide (c ∈ children b)) as [Hin|Hnin].
    + right.
      assert (x' = c).
      { eapply depth1_fun; [exact Hx'|].
        eapply (depth1_here t' c _ (root t) r'); [exact Hn'| |assumption|assumption].
        rewrite split_node_parent, decide_True by assumption. reflexivity. }
      subst x'.
      destruct (wf_children t Hwf _ _ _ Hb Hin) as (nc & Hnc & Hpc).
      assert (nc = n) by congruence. subst nc.
      assert (p = best) by (destruct Hpc; congruence). subst p.
      split.
      * eapply depth1_fun; [exact Hd|].
        eapply depth1_here; [exact Hb|apply best_parent|exact Hr|exact Hrp].
      * split; [assumption|]. eauto.
    + assert (Hp' : parent (split_node t r b best c n) = Some p)
        by (rewrite split_node_parent, decide_False by assumption; assumption).
      assert (Hpn' : nodes t' !! p = Some (split_node t r b best p pn))
        by (rewrite split_lookup, Hpn; reflexivity).
      apply IH. eapply depth1_up_inv; [exact Hn'|exact Hp'|exact Hpn'| |exact Hx'].
      rewrite split_node_parent. destruct (decide (p ∈ children b)); eauto.
Qed.

(** A split never lowers the number of distinct labels. *)
Lemma split_distinct temp c c' :
  clusters_of t temp = Ok c -> clusters_of t' temp = Ok c' ->
  (distinct c <= distinct c')%nat.
Proof.
  intros Hc Hc'.
  apply clusters_of_spec in Hc. apply clusters_of_spec in Hc'.
  apply (distinct_le_of_functional (fun a b' =>
    exists x x' nx nx',
      nodes t !! x = Some nx /\ nodes t !! x' = Some nx' /\
      a = "Concept" +:+ concept_id nx' /\ b' = "Concept" +:+ concept_id nx /\
      ((x' = x /\ ~ promoted t best b x) \/ (x = best /\ promoted t best b x')))).
  - intros a b1 b2 (x1 & x1' & nx1 & nx1' & H1 & H1' & Ha1 & -> & Hc1)
                   (x2 & x2' & nx2 & nx2' & H2 & H2' & Ha2 & -> & Hc2).
    assert (x1' = x2').
    { eapply (wf_ids t Hwf); [exact H1'|exact H2'|]. apply label_inj. congruence. }
    subst x2'.
    destruct Hc1 as [[-> Hn1]|[-> Hp1]], Hc2 as [[-> Hn2]|[-> Hp2]];
      try tauto; congruence.
  - apply Forall2_same_length_lookup. split.
    + rewrite <- (Forall2_length _ _ _ Hc), <- (Forall2_length _ _ _ Hc'). reflexivity.
    + intros i a b' Ha Hb'.
      destruct (Forall2_lookup_r _ _ _ _ _ Hc Hb') as (leaf & Hleaf & x & nx & Hd & Hnx & ->).
      destruct (Forall2_lookup_r _ _ _ _ _ Hc' Ha) as (leaf' & Hleaf' & x' & nx' & Hd' & Hnx' & ->).
      assert (leaf' = leaf) by congruence. subst leaf'.
      rewrite split_lookup in Hnx'.
      destruct (nodes t !! x') as [nx0'|] eqn:Hx0; [|discriminate].
      injection Hnx' as <-. rewrite split_node_id.
      exists x, x', nx, nx0'. repeat split; try assumption; try reflexivity.
      eapply split_depth1; eassumption.
Qed.

End OneSplit.

(** ** Sorting *)

Section Sorting.
Context {A : Type} (lt : A -> A -> bool).
Hypothesis lt_irrefl : forall a, lt a a = false.
Hypothesis lt_asym : forall a b, lt a b = true -> lt b a = false.
Hypothesis le_trans : forall a b c, lt b a = false -> lt c b = false -> lt c a = false.

Lemma insert_sorted_perm x l : insert_sorted lt x l ≡ₚ x :: l.
Proof.
  induction l as [|y l IH]; simpl; [reflexivity|].
  destruct (lt x y); [reflexivity|].
  rewrite IH. apply Permutation_swap.
Qed.

Lemma sorted_perm l : sorted lt l ≡ₚ l.
Proof.
  unfold sorted. rewrite <- (app_nil_l l) at 2. generalize (@nil A) as acc.
  induction l as [|x l IH]; intros acc; simpl.
  - rewrite app_nil_r. reflexivity.
  - rewrite IH, insert_sorted_perm. apply Permutation_middle.
Qed.

Lemma insert_sorted_ok x l :
  StronglySorted (fun a b => lt b a = false) l ->
  StronglySorted (fun a b => lt b a = false) (insert_sorted lt x l).
Proof.
  induction 1 as [|y l Hs IH Hy]; simpl.
  - constructor; constructor.
  - destruct (lt x y) eqn:Hxy.
    + constructor; [constructor; assumption|].
      constructor; [apply lt_asym, Hxy|].
      eapply Forall_impl; [exact Hy|]. intros z Hz. simpl in Hz.
      eapply le_trans; [|exact Hz]. apply lt_asym, Hxy.
    + constructor; [exact IH|].
      rewrite insert_sorted_perm. constructor; assumption.
Qed.

Lemma sorted_ok l : StronglySorted (fun a b => lt b a = false) (sorted lt l).
Proof.
  unfold sorted.
  assert (H : StronglySorted (fun a b => lt b a = false) (@nil A)) by constructor.
  revert H. generalize (@nil A) as acc.
  induction l as [|x l IH]; intros acc H; simpl; [exact H|].
  apply IH, insert_sorted_ok, H.
Qed.

Lemma sorted_last_max l m :
  StronglySorted (fun a b => lt b a = false) l ->
  last l = Some m -> forall a, a ∈ l -> lt m a = false.
Proof.
  induction 1 as [|y l Hs IH Hy]; [discriminate|].
  intros Hl a Ha. destruct l as [|z l].
  - injection Hl as <-. apply list_elem_of_singleton in Ha as ->. apply lt_irrefl.
  - rewrite last_cons_cons in Hl.
    apply elem_of_cons in Ha as [->|Ha]; [|apply IH; assumption].
    rewrite Forall_forall in Hy. apply Hy.
    eapply last_Some_elem_of, Hl.
Qed.

(** The last element of [sorted l] is an element of [l] that no element of [l]
    exceeds. *)
Lemma sorted_last l m :
  last (sorted lt l) = Some m ->
  m ∈ l /\ forall a, a ∈ l -> lt m a = false.
Proof.
  intros Hl. split.
  - rewrite <- (sorted_perm l). eapply last_Some_elem_of, Hl.
  - intros a Ha. eapply sorted_last_max; [apply sorted_ok|exact Hl|].
    rewrite sorted_perm. exact Ha.
Qed.

Lemma sorted_last_None l : last (sorted lt l) = None <-> l = [].
Proof.
  rewrite last_None. split; intros H.
  - apply Permutation_nil_r. rewrite <- H. symmetry. apply sorted_perm.
  - subst. reflexivity.
Qed.

End Sorting.

(** ** Selecting the child to split *)

Section Selection.
Context {Stats Instance Score : Type} `{Ops : TreeOps Stats Instance Score}.
Hypothesis Hso : score_order Ops.

Lemma triple_lt_lex a b : triple_lt a b = true <-> lex a b.
Proof.
  destruct a as [[g1 i1] c1], b as [[g2 i2] c2]. unfold triple_lt, lex. simpl.
  destruct (score_eqb g1 g2) eqn:E.
  - apply (so_eqb Ops Hso) in E. subst g2. rewrite (so_irrefl Ops Hso).
    destruct (Nat.eqb i1 i2) eqn:Ei.
    + apply Nat.eqb_eq in Ei. subst i2. rewrite Nat.ltb_lt.
      split; [intros H; right; split; [reflexivity|right; split; [reflexivity|exact H]]|].
      intros [H|[_ [H|[_ H]]]]; [discriminate|lia|exact H].
    + apply Nat.eqb_neq in Ei. rewrite Nat.ltb_lt.
      split; [intros H; right; split; [reflexivity|left; exact H]|].
      intros [H|[_ [H|[H _]]]]; [discriminate|exact H|lia].
  - assert (g1 <> g2).
    { intros Heq. apply (so_eqb Ops Hso) in Heq. congruence. }
    split; [tauto|]. intros [H'|[H' _]]; [exact H'|contradiction].
Qed.

Lemma lex_trans a b c : lex a b -> lex b c -> lex a c.
Proof.
  destruct a as [[g1 i1] c1], b as [[g2 i2] c2], c as [[g3 i3] c3].
  unfold lex; simpl. intros [H1|[-> H1]] [H2|[-> H2]].
  - left. eapply (so_trans Ops Hso); eassumption.
  - left. assumption.
  - left. assumption.
  - right. split; [reflexivity|]. lia.
Qed.

Lemma lex_irrefl a : ~ lex a a.
Proof.
  destruct a as [[g i] c]. unfold lex; simpl. rewrite (so_irrefl Ops Hso).
  intros [H|[_ H]]; [discriminate|lia].
Qed.

Lemma lex_total a b : lex a b \/ a = b \/ lex b a.
Proof.
  destruct a as [[g1 i1] c1], b as [[g2 i2] c2]. unfold lex; simpl.
  destruct (so_total Ops Hso g1 g2) as [H|[->|H]]; [tauto| |tauto].
  destruct (lt_eq_lt_dec i1 i2) as [[H| ->]|H]; [tauto| |tauto].
  destruct (lt_eq_lt_dec c1 c2) as [[H| ->]|H]; tauto.
Qed.

Lemma triple_lt_irrefl a : triple_lt a a = false.
Proof.
  apply not_true_iff_false. rewrite triple_lt_lex. apply lex_irrefl.
Qed.

Lemma triple_lt_asym a b : triple_lt a b = true -> triple_lt b a = false.
Proof.
  rewrite <- not_true_iff_false, !triple_lt_lex. intros H1 H2.
  eapply lex_irrefl, lex_trans; eassumption.
Qed.

Lemma triple_le_trans a b c :
  triple_lt b a = false -> triple_lt c b = false -> triple_lt c a = false.
Proof.
  rewrite <- !not_true_iff_false, !triple_lt_lex. intros H1 H2 H3.
  destruct (lex_total a b) as [H|[->|H]]; [|tauto|tauto].
  apply H2. eapply lex_trans; eassumption.
Qed.

(** The entries of the comprehension of lines 64-66: one for every position
    of the root's child list that holds a node with children. *)
Lemma candidates_spec (t : Tree Stats) i0 cs l :
  candidates t i0 cs = Ok l ->
  forall g i c,
    (g, i, c) ∈ l <->
    exists j nc, i = (i0 + j)%nat /\ cs !! j = Some c /\
                 nodes t !! c = Some nc /\ children nc <> [] /\ g = gain t c.
Proof.
  revert i0 l; induction cs as [|c0 cs IH]; intros i0 l; simpl.
  - intros [= <-] g i c. split; [intros H; inversion H|].
    intros (j & nc & _ & Hj & _). discriminate.
  - destruct (nodes t !! c0) as [n0|] eqn:Hn0; [|discriminate].
    destruct (candidates t (S i0) cs) as [rest|] eqn:Hrest; simpl; [|discriminate].
    intros [= <-] g i c. specialize (IH _ _ Hrest g i c).
    assert (Htail : (g, i, c) ∈ rest ->
      exists j nc, i = (i0 + j)%nat /\ (c0 :: cs) !! j = Some c /\
                   nodes t !! c = Some nc /\ children nc <> [] /\ g = gain t c).
    { intros H. apply IH in H as (j & nc & -> & Hj & Hnc & Hch & ->).
      exists (S j), nc. repeat split; try assumption. lia. }
    assert (Hback : forall j nc, i = (i0 + S j)%nat -> cs !! j = Some c ->
      nodes t !! c = Some nc -> children nc <> [] -> g = gain t c -> (g, i, c) ∈ rest).
    { intros j nc -> Hj Hnc Hch ->. apply IH. exists j, nc.
      repeat split; try assumption. lia. }
    destruct (children n0) as [|k ks] eqn:Hch0.
    + split; [exact Htail|]. intros (j & nc & Hi & Hj & Hnc & Hch & Hg).
      destruct j as [|j]; [|eapply Hback; eassumption].
      simpl in Hj. injection Hj as <-. congruence.
    + split.
      * intros H. apply elem_of_cons in H as [[= -> -> ->]|H]; [|exact (Htail H)].
        exists 0%nat, n0. repeat split; try assumption; [lia|congruence].
      * intros (j & nc & Hi & Hj & Hnc & Hch & Hg).
        destruct j as [|j]; [|apply list_elem_of_further; eapply Hback; eassumption].
        simpl in Hj. injection Hj as <-. subst.
        rewrite Nat.add_0_r. apply list_elem_of_here.
Qed.

Lemma candidates_total (t : Tree Stats) i0 cs :
  Forall (fun c => is_Some (nodes t !! c)) cs -> exists l, candidates t i0 cs = Ok l.
Proof.
  intros H; revert i0. induction H as [|c cs [n Hn] _ IH]; intros i0; simpl; [eauto|].
  rewrite Hn. destruct (IH (S i0)) as [l ->]. simpl. eauto.
Qed.

(** The child the loop selects: a splittable child of the root, of the
    greatest key [(gain, position)]. *)
Lemma split_cus_last (t : Tree Stats) cus g i c :
  split_cus t = Ok cus -> last cus = Some (g, i, c) ->
  exists r nc,
    nodes t !! root t = Some r /\ children r !! i = Some c /\
    nodes t !! c = Some nc /\ children nc <> [] /\ g = gain t c /\
    forall j c' nc',
      children r !! j = Some c' -> nodes t !! c' = Some nc' -> children nc' <> [] ->
      score_ltb (gain t c') g = true \/ (gain t c' = g /\ (j <= i)%nat).
Proof.
  unfold split_cus. destruct (nodes t !! root t) as [r|] eqn:Hr; [|discriminate].
  destruct (candidates t 0 (children r)) as [cands|] eqn:Hc; simpl; [|discriminate].
  intros [= <-] Hl.
  apply (sorted_last triple_lt triple_lt_irrefl triple_lt_asym triple_le_trans) in Hl
    as [Hin Hmax].
  pose proof (candidates_spec _ _ _ _ Hc) as Hspec.
  apply Hspec in Hin as (j & nc & -> & Hj & Hnc & Hch & ->).
  exists r, nc. repeat split; try assumption.
  intros j' c' nc' Hj' Hnc' Hch'.
  assert (Hin' : (gain t c', j', c') ∈ cands).
  { apply Hspec. exists j', nc'. repeat split; assumption. }
  apply Hmax in Hin'. apply not_true_iff_false in Hin'. rewrite triple_lt_lex in Hin'.
  unfold lex in Hin'. simpl in Hin'.
  destruct (so_total Ops Hso (gain t c') (gain t c)) as [H|[H|H]]; [tauto| |tauto].
  right. split; [exact H|].
  destruct (le_lt_dec j' j) as [Hle|Hlt]; [exact Hle|].
  exfalso. apply Hin'. right. split; [congruence|]. left. exact Hlt.
Qed.

Lemma split_cus_none (t : Tree Stats) cus :
  split_cus t = Ok cus -> last cus = None ->
  exists r, nodes t !! root t = Some r /\
    forall j c nc, children r !! j = Some c -> nodes t !! c = Some nc -> children nc = [].
Proof.
  unfold split_cus. destruct (nodes t !! root t) as [r|] eqn:Hr; [|discriminate].
  destruct (candidates t 0 (children r)) as [cands|] eqn:Hc; simpl; [|discriminate].
  intros [= <-] Hl. apply sorted_last_None in Hl. subst cands.
  exists r. split; [reflexivity|]. intros j c nc Hj Hnc.
  destruct (children nc) as [|k ks] eqn:Hch; [reflexivity|].
  exfalso. eapply (not_elem_of_nil (gain t c, j, c)).
  apply (candidates_spec _ _ _ _ Hc). exists j, nc.
  repeat split; try assumption. congruence.
Qed.

End Selection.

(** ** The loop *)

Section Loop.
Context {Stats Instance Score : Type} `{Ops : TreeOps Stats Instance Score}.

(** Whatever the order of the scores, the selected entry is one of the
    comprehension: a child of the root, in the arena, with children. *)
Lemma split_cus_last_in (t : Tree Stats) cus g i c :
  split_cus t = Ok cus -> last cus = Some (g, i, c) ->
  exists r nc,
    nodes t !! root t = Some r /\ c ∈ children r /\
    nodes t !! c = Some nc /\ children nc <> [].
Proof.
  unfold split_cus. destruct (nodes t !! root t) as [r|] eqn:Hr; [|discriminate].
  destruct (candidates t 0 (children r)) as [cands|] eqn:Hc; simpl; [|discriminate].
  intros [= <-] Hl. apply last_Some_elem_of in Hl. rewrite sorted_perm in Hl.
  apply (candidates_spec _ _ _ _ Hc) in Hl as (j & nc & _ & Hj & Hnc & Hch & _).
  exists r, nc. repeat split; try assumption.
  eapply list_elem_of_lookup_2, Hj.
Qed.

Lemma split_cus_total (t : Tree Stats) :
  wf_tree t -> exists cus, split_cus t = Ok cus.
Proof.
  intros Hwf. destruct (wf_root t Hwf) as (r & Hr & _).
  unfold split_cus. rewrite Hr.
  destruct (candidates_total t 0 (children r)) as [l ->]; [|simpl; eauto].
  apply Forall_forall. intros c Hc.
  destruct (wf_children t Hwf _ _ _ Hr Hc) as (nc & -> & _). eauto.
Qed.

Lemma split_step_wf (t t' : Tree Stats) : wf_tree t -> split_step t t' -> wf_tree t'.
Proof. intros Hwf [cus g i c _ _ Hs]. eapply split_wf; eassumption. Qed.

Lemma rtc_split_wf (t t' : Tree Stats) :
  wf_tree t -> rtc split_step t t' -> wf_tree t'.
Proof. intros Hwf H. induction H; eauto using split_step_wf. Qed.

Lemma rtc_split_rooted (t t' : Tree Stats) temp :
  wf_tree t -> rtc split_step t t' ->
  Forall (rooted t) temp -> Forall (rooted t') temp.
Proof.
  intros Hwf H. induction H as [|t t1 t' [cus g i c _ _ Hs] _ IH]; [tauto|].
  intros Hr. apply IH; [eapply split_wf; eassumption|].
  eapply Forall_impl; [exact Hr|]. intros leaf. eapply split_rooted; eassumption.
Qed.

Lemma depth1_rooted (t : Tree Stats) c x : depth1 t c x -> rooted t c.
Proof.
  induction 1 as [c n Hn Hp|c n p pn Hn Hp Hpn Hpp|c n p pn q x Hn Hp Hpn Hpp _ [k IH]].
  - exists 1%nat. eapply chain_top; eassumption.
  - exists 2%nat. eapply chain_up; [exact Hn|exact Hp|]. eapply chain_top; eassumption.
  - exists (S k). eapply chain_up; eassumption.
Qed.

Lemma clusters_of_rooted (t : Tree Stats) temp c :
  clusters_of t temp = Ok c -> Forall (rooted t) temp.
Proof.
  intros H. apply clusters_of_spec in H. apply Forall_forall. intros leaf Hleaf.
  apply list_elem_of_lookup in Hleaf as [i Hi].
  destruct (Forall2_lookup_l _ _ _ _ _ H Hi) as (lab & _ & x & _ & Hd & _).
  eapply depth1_rooted, Hd.
Qed.

(** Splits never lower the number of distinct labels of the recorded nodes. *)
Lemma rtc_split_distinct (t t' : Tree Stats) temp c c' :
  wf_tree t -> rtc split_step t t' ->
  clusters_of t temp = Ok c -> clusters_of t' temp = Ok c' ->
  (distinct c <= distinct c')%nat.
Proof.
  intros Hwf H. revert c.
  induction H as [t|t t1 t' Hstep _ IH]; intros c Hc Hc'.
  - assert (c = c') by congruence. subst. reflexivity.
  - pose proof Hstep as [cus g i best Hcus Hlast Hs].
    destruct (split_cus_last_in _ _ _ _ _ Hcus Hlast) as (r & nb & Hr & Hin & Hnb & _).
    assert (Hwf1 : wf_tree t1) by (eapply split_wf; eassumption).
    destruct (clusters_of_total t1 temp) as [c1 Hc1].
    { eapply Forall_impl; [eapply clusters_of_rooted, Hc|].
      intros leaf. eapply split_rooted; eassumption. }
    etransitivity; [|eapply IH; eassumption].
    exact (split_distinct t t1 best r nb Hwf Hs Hr Hin Hnb temp c c1 Hc Hc1).
Qed.

Lemma for_loop_paused ms temp rem resumed n (t t' : Tree Stats) c rem' n' :
  for_loop ms temp rem resumed n t = (t', Paused c rem' n') ->
  rtc split_step t t' /\ clusters_of t' temp = Ok c /\
  ms <= n' /\ (1 <= rem')%nat /\
  n' + Z.of_nat rem' = n + Z.of_nat rem /\
  (if resumed then n < n' else n <= n').
Proof.
  revert resumed n t. induction rem as [|rem IH]; intros resumed n t; [discriminate|].
  cbn [for_loop].
  destruct (negb resumed && (n >=? ms)) eqn:Hyield.
  - destruct (clusters_of t temp) as [clusters|e] eqn:Hc; [|discriminate].
    intros [= <- <- <- <-].
    apply andb_true_iff in Hyield as [Hres Hge].
    apply negb_true_iff in Hres. subst resumed.
    repeat split; try assumption; try reflexivity; lia.
  - destruct (split_cus t) as [cus|e] eqn:Hcus; [|discriminate].
    destruct (last cus) as [[[g i] best]|] eqn:Hlast; [|discriminate].
    destruct (split t best) as [t1|e] eqn:Hs; [|discriminate].
    intros H. apply IH in H as (Hrtc & Hc & Hms & Hrem & Hsum & Hn).
    repeat split; try assumption; try lia.
    + eapply rtc_l; [|exact Hrtc]. econstructor; eassumption.
    + destruct resumed; lia.
Qed.

(** A round of lines 64-74 has one outcome. *)
Lemma split_step_det (t t1 t2 : Tree Stats) :
  split_step t t1 -> split_step t t2 -> t1 = t2.
Proof.
  intros [cus1 g1 i1 c1 Hcus1 Hlast1 Hs1] [cus2 g2 i2 c2 Hcus2 Hlast2 Hs2].
  congruence.
Qed.

Lemma nsteps_split_det k (t t1 t2 : Tree Stats) :
  nsteps split_step k t t1 -> nsteps split_step k t t2 -> t1 = t2.
Proof.
  intros H; revert t2. induction H as [t|k t t' t1 Hstep _ IH]; intros t2 H2.
  - inversion H2; subst. reflexivity.
  - inversion H2 as [|k' x y z Hstep' Hrest]; subst.
    apply IH. rewrite (split_step_det _ _ _ Hstep Hstep'). exact Hrest.
Qed.

(** The loop stops at the first value of [nth_split] from its own on (from
    the next one on, behind the [yield]) that is not below [minsplit], with
    one split made for every value it has passed. *)
Lemma for_loop_paused_exact ms temp rem resumed n (t t' : Tree Stats) c rem' n' :
  for_loop ms temp rem resumed n t = (t', Paused c rem' n') ->
  n' = (if resumed then Z.max (n + 1) ms else Z.max n ms) /\
  nsteps split_step (Z.to_nat (n' - n)) t t' /\
  clusters_of t' temp = Ok c /\
  n' + Z.of_nat rem' = n + Z.of_nat rem /\ (1 <= rem')%nat.
Proof.
  revert resumed n t. induction rem as [|rem IH]; intros resumed n t; [discriminate|].
  cbn [for_loop].
  destruct (negb resumed && (n >=? ms)) eqn:Hyield.
  - destruct (clusters_of t temp) as [clusters|e] eqn:Hc; [|discriminate].
    intros [= <- <- <- <-].
    apply andb_true_iff in Hyield as [Hres Hge].
    apply negb_true_iff in Hres. subst resumed. apply Z.geb_le in Hge.
    split; [lia|]. rewrite Z.sub_diag. split; [constructor|].
    split; [exact Hc|]. split; lia.
  - destruct (split_cus t) as [cus|e] eqn:Hcus; [|discriminate].
    destruct (last cus) as [[[g i] best]|] eqn:Hlast; [|discriminate].
    destruct (split t best) as [t1|e] eqn:Hs; [|discriminate].
    intros H. apply IH in H as (Hn' & Hsteps & Hc & Hsum & Hrem).
    assert (Hn : n' = if resumed then Z.max (n + 1) ms else Z.max n ms).
    { destruct resumed; [exact Hn'|]. cbn [negb andb] in Hyield.
      rewrite Z.geb_leb in Hyield. apply Z.leb_gt in Hyield. lia. }
    split; [exact Hn|]. split; [|split; [exact Hc|split; lia]].
    replace (Z.to_nat (n' - n)) with (S (Z.to_nat (n' - (n + 1)))) by lia.
    eapply nsteps_l; [|exact Hsteps]. econstructor; eassumption.
Qed.

(** On a well-formed tree whose recorded nodes have ending ancestor walks the
    loop never fails. *)
Lemma for_loop_no_fail ms temp rem resumed n (t t' : Tree Stats) e :
  wf_tree t -> Forall (rooted t) temp ->
  for_loop ms temp rem resumed n t <> (t', Failed e).
Proof.
  revert resumed n t. induction rem as [|rem IH]; intros resumed n t Hwf Hr; [discriminate|].
  cbn [for_loop].
  destruct (negb resumed && (n >=? ms)).
  - destruct (clusters_of_total t temp Hr) as [c ->]. discriminate.
  - destruct (split_cus_total t Hwf) as [cus Hcus]. rewrite Hcus.
    destruct (last cus) as [[[g i] best]|] eqn:Hlast; [|discriminate].
    destruct (split_cus_last_in _ _ _ _ _ Hcus Hlast) as (r & nb & Hroot & _ & Hnb & _).
    destruct (split_total t best r nb Hroot Hnb) as [t1 Hs]. rewrite Hs.
    apply IH; [eapply split_wf; eassumption|].
    eapply Forall_impl; [exact Hr|]. intros leaf. eapply split_rooted; eassumption.
Qed.

End Loop.

(** ** The generator *)

Section Generator.
Context {Stats Instance Score : Type} `{Ops : TreeOps Stats Instance Score}.

Lemma insert_all_length md (t : Tree Stats) (X : list Instance) :
  length (insert_all md t X).2 = length X.
Proof.
  revert t; induction X as [|x X IH]; intros t; simpl; [reflexivity|].
  destruct md.
  - destruct (ifit t x) as [t1 l]. specialize (IH t1).
    destruct (insert_all true t1 X). simpl in *. congruence.
  - specialize (IH t). destruct (insert_all false t X). simpl in *. congruence.
Qed.

Lemma insert_all_false (t : Tree Stats) (X : list Instance) :
  insert_all false t X = (t, map (categorize t) X).
Proof.
  induction X as [|x X IH]; simpl; [reflexivity|]. rewrite IH. reflexivity.
Qed.

Lemma fit_all_spec (w : gmap nat (Tree Stats)) tree (X : list Instance) md t_in :
  w !! tree = Some t_in ->
  exists w1, fit_all w tree X md = Ok (w1, (insert_all md t_in X).2) /\
             w1 !! tree = Some (insert_all md t_in X).1.
Proof.
  intros Hw. unfold fit_all. rewrite Hw.
  destruct (insert_all md t_in X) as [t0 temp] eqn:Hins. simpl.
  destruct md.
  - eexists. split; [reflexivity|]. apply lookup_insert_eq.
  - eexists. split; [reflexivity|]. rewrite insert_all_false in Hins. congruence.
Qed.

Lemma run_loop_yield (w : gmap nat (Tree Stats)) r temp ms rem resumed n w' g' c :
  run_loop w r temp ms rem resumed n = (w', g', Yield c) ->
  exists t t' rem' n',
    w !! r = Some t /\
    for_loop ms temp rem resumed n t = (t', Paused c rem' n') /\
    w' = <[r := t']> w /\
    g' = GSuspended (Instance := Instance) (mkFrame r temp ms n' rem').
Proof.
  unfold run_loop. destruct (w !! r) as [t|]; [|discriminate].
  destruct (for_loop ms temp rem resumed n t) as [t' [c0 rem' n'| |e]] eqn:Hf;
    [|discriminate|discriminate].
  intros [= <- <- <-]. exists t, t', rem', n'. repeat split; reflexivity || assumption.
Qed.

(** A [next] call leaves every tree object alone but the generator's own
    copy. *)
Lemma run_loop_frame (w : gmap nat (Tree Stats)) r temp ms rem resumed n w' g' s r0 :
  run_loop w r temp ms rem resumed n = (w', g', s) -> r0 <> r ->
  w' !! r0 = w !! r0.
Proof.
  unfold run_loop. destruct (w !! r) as [t|]; [|intros [= <- _ _]; reflexivity].
  destruct (for_loop ms temp rem resumed n t) as [t' [c0 rem' n'| |e]];
    intros [= <- _ _] Hne; rewrite lookup_insert_ne by congruence; reflexivity.
Qed.

Lemma run_loop_ref (w : gmap nat (Tree Stats)) r temp ms rem resumed n w' fr s :
  run_loop w r temp ms rem resumed n = (w', GSuspended (Instance := Instance) fr, s) ->
  fr_tree fr = r /\ fr_temp fr = temp /\ fr_minsplit fr = ms.
Proof.
  unfold run_loop. destruct (w !! r) as [t|]; [|discriminate].
  destruct (for_loop ms temp rem resumed n t) as [t' [c0 rem' n'| |e]];
    [|discriminate|discriminate].
  intros [= _ <- _]. auto.
Qed.

Lemma fresh_not_dom (w : gmap nat (Tree Stats)) : fresh (dom w) ∉ dom w.
Proof. apply is_fresh. Qed.

Lemma gen_next_created_frame (w : gmap nat (Tree Stats)) tree X ms Ms md w' g' s r0 :
  gen_next w (GCreated tree X ms Ms md) = (w', g', s) ->
  r0 ∈ dom w -> w' !! r0 = w !! r0.
Proof.
  intros H Hin. assert (Hne : r0 <> fresh (dom w)).
  { intros ->. eapply fresh_not_dom, Hin. }
  cbn [gen_next] in H.
  destruct (ms <? 1); [injection H as <- _ _; reflexivity|].
  destruct (ms >? Ms); [injection H as <- _ _; reflexivity|].
  unfold deepcopy in H. destruct (w !! tree) as [t|]; [|injection H as <- _ _; reflexivity].
  unfold fit_all in H. rewrite lookup_insert_eq in H.
  destruct (insert_all md t X) as [t0 temp].
  apply run_loop_frame with (r0 := r0) in H; [|exact Hne]. rewrite H.
  destruct md; rewrite !lookup_insert_ne by congruence; reflexivity.
Qed.

Lemma gen_next_created_yield (w : gmap nat (Tree Stats)) tree X ms Ms md w1 g1 c :
  gen_next w (GCreated tree X ms Ms md) = (w1, g1, Yield c) ->
  exists t_in t1 rem1 n1,
    1 <= ms <= Ms /\ w !! tree = Some t_in /\
    for_loop ms (insert_all md t_in X).2 (Z.to_nat Ms) false 1
      (insert_all md t_in X).1 = (t1, Paused c rem1 n1) /\
    g1 = GSuspended (mkFrame (fresh (dom w)) (insert_all md t_in X).2 ms n1 rem1) /\
    w1 !! fresh (dom w) = Some t1.
Proof.
  cbn [gen_next]. destruct (ms <? 1) eqn:H1; [discriminate|].
  destruct (ms >? Ms) eqn:H2; [discriminate|].
  unfold deepcopy. destruct (w !! tree) as [t_in|] eqn:Ht; [|discriminate].
  unfold fit_all. rewrite lookup_insert_eq.
  destruct (insert_all md t_in X) as [t0 temp] eqn:Hins.
  intros H. apply run_loop_yield in H as (t & t1 & rem1 & n1 & Hl & Hf & -> & ->).
  assert (t = t0).
  { destruct md; rewrite lookup_insert_eq in Hl; [congruence|].
    rewrite insert_all_false in Hins. congruence. }
  subst t. exists t_in, t1, rem1, n1. simpl.
  apply Z.ltb_ge in H1. rewrite Z.gtb_ltb in H2. apply Z.ltb_ge in H2.
  rewrite lookup_insert_eq, Hins. simpl.
  repeat split; try assumption; try reflexivity; lia.
Qed.

Lemma yields_suspended (w : gmap nat (Tree Stats)) fr cs w' g' t hi :
  yields w (GSuspended (Instance := Instance) fr) cs w' g' ->
  w !! fr_tree fr = Some t ->
  fr_nth fr + Z.of_nat (fr_rem fr) = hi + 1 ->
  exists snaps, emitted (fr_minsplit fr) (fr_temp fr) (fr_nth fr + 1) t hi snaps cs.
Proof.
  intros H. remember (GSuspended fr) as g eqn:Hg. revert fr t Hg.
  induction H as [w g|w g w1 g1 c cs w2 g2 Hnext _ IH]; intros fr t -> Hw Hsum.
  - exists []. constructor.
  - cbn [gen_next] in Hnext.
    apply run_loop_yield in Hnext as (t0 & t' & rem' & n' & Hl & Hf & -> & ->).
    assert (t0 = t) by congruence. subst t0.
    apply for_loop_paused in Hf as (Hrtc & Hc & Hms & Hrem & Hsum' & Hn).
    destruct (IH _ t' eq_refl) as [snaps Hsn].
    + simpl. apply lookup_insert_eq.
    + simpl. lia.
    + simpl in Hsn. exists ((n', t') :: snaps).
      constructor; try assumption. lia.
Qed.

(** The clusterings a generator gives, from its first [next] on. *)
Lemma yields_created (w : gmap nat (Tree Stats)) tree X ms Ms md cs w' g' t_in :
  yields w (cluster_iter tree X ms Ms md) cs w' g' ->
  w !! tree = Some t_in ->
  exists snaps,
    emitted ms (insert_all md t_in X).2 1 (insert_all md t_in X).1 Ms snaps cs.
Proof.
  unfold cluster_iter. intros H Hw.
  inversion H as [|w0 g0 w1 g1 c cs' w2 g2 Hnext Hrest]; subst.
  - exists []. constructor.
  - apply gen_next_created_yield in Hnext
      as (t_in' & t1 & rem1 & n1 & Hms & Hw' & Hf & -> & Hw1).
    assert (t_in' = t_in) by congruence. subst t_in'.
    apply for_loop_paused in Hf as (Hrtc & Hc & Hms' & Hrem & Hsum & Hn).
    destruct (yields_suspended _ _ _ _ _ t1 Ms Hrest) as [snaps Hsn].
    + exact Hw1.
    + simpl. lia.
    + simpl in Hsn. exists ((n1, t1) :: snaps).
      constructor; try assumption. lia.
Qed.

(** Behind a [yield] at a value of [nth_split] that is not below [minsplit],
    the clustering of every further [next] call comes one split after the one
    before. *)
Lemma yields_suspended_exact (w : gmap nat (Tree Stats)) fr cs w' g' t i c :
  yields w (GSuspended (Instance := Instance) fr) cs w' g' ->
  w !! fr_tree fr = Some t ->
  fr_minsplit fr <= fr_nth fr ->
  cs !! i = Some c ->
  exists t',
    nsteps split_step (S i) t t' /\ clusters_of t' (fr_temp fr) = Ok c /\
    (i + 2 <= fr_rem fr)%nat.
Proof.
  intros H. remember (GSuspended fr) as g eqn:Hg. revert fr t i Hg.
  induction H as [w g|w g w1 g1 c0 cs w2 g2 Hnext _ IH]; intros fr t i -> Hw Hms Hi;
    [discriminate|].
  cbn [gen_next] in Hnext.
  apply run_loop_yield in Hnext as (t0 & t1 & rem1 & n1 & Hl & Hf & -> & ->).
  assert (t0 = t) by congruence. subst t0.
  apply for_loop_paused_exact in Hf as (Hn1 & Hsteps & Hc & Hsum & Hrem).
  assert (Hn : n1 = fr_nth fr + 1) by lia. clear Hn1. subst n1.
  replace (Z.to_nat (fr_nth fr + 1 - fr_nth fr)) with 1%nat in Hsteps by lia.
  destruct i as [|i]; simpl in Hi.
  - injection Hi as <-. exists t1. split; [exact Hsteps|]. split; [exact Hc|]. lia.
  - destruct (IH _ t1 i eq_refl) as (t2 & Hsteps2 & Hc2 & Hrem2).
    + simpl. apply lookup_insert_eq.
    + simpl. lia.
    + exact Hi.
    + simpl in Hc2, Hrem2. exists t2. split; [|split; [exact Hc2|lia]].
      change (S (S i)) with (1 + S i)%nat. eapply nsteps_trans; eassumption.
Qed.

(** The clustering of the [next] call number [i] (from 0) on a new generator
    belongs to the value [minsplit + i] of [nth_split], which is not above
    [maxsplit], and to the tree after [minsplit - 1 + i] splits of the copy
    with the instances in. *)
Lemma yields_created_exact (w : gmap nat (Tree Stats)) tree X ms Ms md cs w' g' t_in i c :
  yields w (cluster_iter tree X ms Ms md) cs w' g' ->
  w !! tree = Some t_in ->
  cs !! i = Some c ->
  exists t,
    1 <= ms /\ ms + Z.of_nat i <= Ms /\
    nsteps split_step (Z.to_nat (ms + Z.of_nat i - 1)) (insert_all md t_in X).1 t /\
    clusters_of t (insert_all md t_in X).2 = Ok c.
Proof.
  unfold cluster_iter. intros H Hw Hi.
  inversion H as [|w0 g0 w1 g1 c0 cs' w2 g2 Hnext Hrest]; subst; [discriminate|].
  apply gen_next_created_yield in Hnext
    as (t_in' & t1 & rem1 & n1 & Hms & Hw' & Hf & -> & Hw1).
  assert (t_in' = t_in) by congruence. subst t_in'.
  apply for_loop_paused_exact in Hf as (Hn1 & Hsteps & Hc & Hsum & Hrem).
  assert (Hn : n1 = ms) by lia. clear Hn1. subst n1.
  destruct i as [|i]; simpl in Hi.
  - injection Hi as <-. exists t1. split; [lia|]. split; [lia|].
    split; [|exact Hc]. replace (Z.to_nat (ms + Z.of_nat 0 - 1)) with (Z.to_nat (ms - 1)) by lia.
    exact Hsteps.
  - destruct (yields_suspended_exact _ _ _ _ _ t1 i c Hrest Hw1) as (t2 & Hsteps2 & Hc2 & Hrem2).
    + simpl. lia.
    + exact Hi.
    + simpl in Hc2, Hrem2. exists t2. split; [lia|]. split; [lia|]. split; [|exact Hc2].
      replace (Z.to_nat (ms + Z.of_nat (S i) - 1)) with (Z.to_nat (ms - 1) + S i)%nat by lia.
      eapply nsteps_trans; eassumption.
Qed.

Lemma yields_created_args (w : gmap nat (Tree Stats)) tree X ms Ms md c cs w' g' :
  yields w (cluster_iter tree X ms Ms md) (c :: cs) w' g' ->
  1 <= ms <= Ms /\ exists t_in, w !! tree = Some t_in.
Proof.
  unfold cluster_iter. intros H.
  inversion H as [|w0 g0 w1 g1 c0 cs' w2 g2 Hnext Hrest]; subst.
  apply gen_next_created_yield in Hnext as (t_in & _ & _ & _ & Hms & Hw & _).
  eauto.
Qed.

Lemma run_loop_ok (w : gmap nat (Tree Stats)) r temp ms rem resumed n w' g' s t :
  w !! r = Some t -> wf_tree t -> Forall (rooted t) temp ->
  run_loop (Instance := Instance) w r temp ms rem resumed n = (w', g', s) ->
  (forall e, s <> Raised e) /\
  gen_ok w' g' /\
  (forall c, s = Yield c ->
     (gen_fuel g' <= S rem)%nat /\ (resumed = true -> (gen_fuel g' <= rem)%nat)).
Proof.
  intros Hw Hwf Hr. unfold run_loop. rewrite Hw.
  destruct (for_loop ms temp rem resumed n t) as [t' out] eqn:Hf.
  destruct out as [c rem' n'| |e].
  - intros [= <- <- <-]. apply for_loop_paused in Hf as (Hrtc & Hc & Hms & Hrem & Hsum & Hn).
    split; [discriminate|]. split.
    + simpl. exists t'. rewrite lookup_insert_eq. split; [reflexivity|].
      split; [eapply rtc_split_wf; eassumption|eapply rtc_split_rooted; eassumption].
    + intros c0 _. simpl. destruct resumed; (split; [lia|]); [lia|discriminate].
  - intros [= <- <- <-]. split; [discriminate|]. split; [exact I|]. discriminate.
  - exfalso. eapply for_loop_no_fail; eassumption.
Qed.

Lemma run_loop_valid (w : gmap nat (Tree Stats)) r temp ms rem resumed n w' g' s :
  run_loop (Instance := Instance) w r temp ms rem resumed n = (w', g', s) ->
  valid_args g'.
Proof.
  unfold run_loop. destruct (w !! r) as [t|]; [|intros [= _ <- _]; exact I].
  destruct (for_loop ms temp rem resumed n t) as [t' [c rem' n'| |e]];
    intros [= _ <- _]; exact I.
Qed.

Lemma gen_next_ok (w : gmap nat (Tree Stats)) g w' g' s :
  gen_ok w g -> valid_args g -> gen_next w g = (w', g', s) ->
  (forall e, s <> Raised e) /\ gen_ok w' g' /\ valid_args g' /\
  (forall c, s = Yield c -> (gen_fuel g' < gen_fuel g)%nat).
Proof.
  destruct g as [tree X ms Ms md|fr|]; cbn [gen_next gen_ok valid_args gen_fuel].
  - intros (t_in & Hw & Hwf & Hr) Hms.
    rewrite (proj2 (Z.ltb_ge ms 1)) by lia.
    rewrite Z.gtb_ltb, (proj2 (Z.ltb_ge Ms ms)) by lia.
    unfold deepcopy. rewrite Hw.
    destruct (fit_all_spec (<[fresh (dom w) := t_in]> w) (fresh (dom w)) X md t_in)
      as (w2 & -> & Hw2); [apply lookup_insert_eq|].
    intros H. destruct (run_loop_ok _ _ _ _ _ _ _ _ _ _ _ Hw2 Hwf Hr H) as (Hne & Hok & Hfuel).
    split; [exact Hne|]. split; [exact Hok|]. split.
    + eapply run_loop_valid, H.
    + intros c Hc. destruct (Hfuel c Hc). lia.
  - intros (t & Hw & Hwf & Hr) _ H.
    destruct (run_loop_ok _ _ _ _ _ _ _ _ _ _ _ Hw Hwf Hr H) as (Hne & Hok & Hfuel).
    split; [exact Hne|]. split; [exact Hok|]. split.
    + eapply run_loop_valid, H.
    + intros c Hc. destruct (Hfuel c Hc) as [_ Hlt]. specialize (Hlt eq_refl). lia.
  - intros _ _ [= <- <- <-]. split; [discriminate|]. split; [exact I|].
    split; [exact I|]. discriminate.
Qed.

End Generator.

(** ** Consumers of the generator *)

Section Consumers.
Context {Stats Instance Score : Type} `{Ops : TreeOps Stats Instance Score}.

Lemma distinct_const (lab : string) {A} (X : list A) :
  (distinct (map (fun _ => lab) X) <= 1)%nat.
Proof.
  induction X as [|x X IH]; [vm_compute; lia|].
  destruct X as [|y X].
  - change (map (fun _ : A => lab) [x]) with (lab :: []).
    rewrite distinct_cons_notin by apply not_elem_of_nil. vm_compute. lia.
  - change (map (fun _ => lab) (x :: y :: X)) with (lab :: map (fun _ : A => lab) (y :: X)).
    rewrite distinct_cons_in; [exact IH|]. simpl. apply list_elem_of_here.
Qed.

Lemma k_loop_distinct fuel (w : gmap nat (Tree Stats)) (g : gen (Instance := Instance))
    k cl w' c :
  Z.of_nat (distinct cl) <= k ->
  k_loop fuel w g k cl = (w', Ok c) -> Z.of_nat (distinct c) <= k.
Proof.
  revert w g cl. induction fuel as [|fuel IH]; intros w g cl Hcl; simpl; [discriminate|].
  destruct (gen_next w g) as [[w1 g1] [c1| |e]].
  - destruct (Z.of_nat (distinct c1) >? k) eqn:Hgt.
    + intros [= _ <-]. exact Hcl.
    + apply IH. rewrite Z.gtb_ltb in Hgt. apply Z.ltb_ge in Hgt. exact Hgt.
  - intros [= _ <-]. exact Hcl.
  - discriminate.
Qed.

Lemma k_loop_total fuel (w : gmap nat (Tree Stats)) (g : gen (Instance := Instance)) k cl :
  gen_ok w g -> valid_args g -> (gen_fuel g <= fuel)%nat ->
  exists w' c, k_loop fuel w g k cl = (w', Ok c).
Proof.
  revert w g cl. induction fuel as [|fuel IH]; intros w g cl Hok Hv Hfuel.
  - destruct g; simpl in Hfuel; lia.
  - simpl. destruct (gen_next w g) as [[w1 g1] s] eqn:Hnext.
    destruct (gen_next_ok _ _ _ _ _ Hok Hv Hnext) as (Hne & Hok1 & Hv1 & Hlt).
    destruct s as [c1| |e]; [|eauto|exfalso; eapply Hne; reflexivity].
    destruct (Z.of_nat (distinct c1) >? k); [eauto|].
    apply IH; try assumption. specialize (Hlt c1 eq_refl). lia.
Qed.

Lemma exhaust_total fuel (w : gmap nat (Tree Stats)) (g : gen (Instance := Instance)) :
  gen_ok w g -> valid_args g -> (gen_fuel g <= fuel)%nat ->
  exists w' cs, exhaust fuel w g = (w', Ok cs).
Proof.
  revert w g. induction fuel as [|fuel IH]; intros w g Hok Hv Hfuel.
  - destruct g; simpl in Hfuel; lia.
  - simpl. destruct (gen_next w g) as [[w1 g1] s] eqn:Hnext.
    destruct (gen_next_ok _ _ _ _ _ Hok Hv Hnext) as (Hne & Hok1 & Hv1 & Hlt).
    destruct s as [c1| |e]; [|eauto|exfalso; eapply Hne; reflexivity].
    destruct (IH w1 g1) as (w' & cs & ->); try assumption.
    + specialize (Hlt c1 eq_refl). lia.
    + simpl. eauto.
Qed.

(** The loop of [k_cluster] applies the selection rule to the clusterings
    the generator would give in full. *)
Lemma k_loop_exhaust fuel (w : gmap nat (Tree Stats)) (g : gen (Instance := Instance))
    k cl w' cs :
  exhaust fuel w g = (w', Ok cs) ->
  (k_loop fuel w g k cl).2 = Ok (bounded_k k cl cs).
Proof.
  revert w g cl cs. induction fuel as [|fuel IH]; intros w g cl cs; simpl; [discriminate|].
  destruct (gen_next w g) as [[w1 g1] [c1| |e]].
  - destruct (exhaust fuel w1 g1) as [w2 [cs1|e]] eqn:Hex; simpl; [|discriminate].
    intros [= <- <-]. simpl.
    destruct (Z.of_nat (distinct c1) >? k); [reflexivity|].
    eapply IH, Hex.
  - intros [= <- <-]. reflexivity.
  - discriminate.
Qed.

(** What [[c for c in g]] returns is what the [next] calls give up to the
    first that gives nothing. *)
Lemma exhaust_yields fuel (w : gmap nat (Tree Stats)) (g : gen (Instance := Instance))
    w' cs :
  exhaust fuel w g = (w', Ok cs) ->
  exists w1 g1 g2, yields w g cs w1 g1 /\ gen_next w1 g1 = (w', g2, StopIteration).
Proof.
  revert w g cs. induction fuel as [|fuel IH]; intros w g cs; simpl; [discriminate|].
  destruct (gen_next w g) as [[w1 g1] [c1| |e]] eqn:Hnext.
  - destruct (exhaust fuel w1 g1) as [w2 [cs1|e]] eqn:Hex; simpl; [|discriminate].
    intros [= <- <-]. destruct (IH _ _ _ Hex) as (w3 & g3 & g4 & Hy & Hstop).
    exists w3, g3, g4. split; [|exact Hstop]. econstructor; eassumption.
  - intros [= <- <-]. exists w, g, g1. split; [constructor|exact Hnext].
  - discriminate.
Qed.

End Consumers.

(** ** The caller's trees *)

Section Frame.
Context {Stats Instance Score : Type} `{Ops : TreeOps Stats Instance Score}.

Lemma run_loop_shape (w : gmap nat (Tree Stats)) r temp ms rem resumed n w' g' s :
  run_loop (Instance := Instance) w r temp ms rem resumed n = (w', g', s) ->
  g' = GClosed \/ exists fr, g' = GSuspended fr /\ fr_tree fr = r.
Proof.
  unfold run_loop. destruct (w !! r) as [t|]; [|intros [= _ <- _]; tauto].
  destruct (for_loop ms temp rem resumed n t) as [t' [c rem' n'| |e]];
    intros [= _ <- _]; [right|tauto|tauto].
  eexists. split; reflexivity.
Qed.

(** After a [next] call the generator is finished or suspended on its own
    copy: the object made by the first call, the same one ever after. *)
Lemma gen_next_shape (w : gmap nat (Tree Stats)) (g : gen (Instance := Instance)) w' g' s :
  gen_next w g = (w', g', s) ->
  g' = GClosed \/
  exists fr', g' = GSuspended fr' /\
    match g with
    | GCreated _ _ _ _ _ => fr_tree fr' = fresh (dom w)
    | GSuspended fr => fr_tree fr' = fr_tree fr
    | GClosed => False
    end.
Proof.
  destruct g as [tree X ms Ms md|fr|]; cbn [gen_next].
  - destruct (ms <? 1); [intros [= _ <- _]; tauto|].
    destruct (ms >? Ms); [intros [= _ <- _]; tauto|].
    unfold deepcopy. destruct (w !! tree) as [t|]; [|intros [= _ <- _]; tauto].
    destruct (fit_all _ _ X md) as [[w2 temp]|]; [|intros [= _ <- _]; tauto].
    apply run_loop_shape.
  - apply run_loop_shape.
  - intros [= _ <- _]. tauto.
Qed.

Lemma next_step_keeps (w0 : gmap nat (Tree Stats))
    (a b : gmap nat (Tree Stats) * gen (Instance := Instance)) :
  keeps w0 a -> next_step a b -> keeps w0 b.
Proof.
  destruct a as [w g], b as [w' g']. intros [Hfr Hg] [s Hs]. simpl in *.
  pose proof (gen_next_shape _ _ _ _ _ Hs) as Hshape.
  destruct g as [tree X ms Ms md|fr|].
  - subst w. split.
    + intros r0 Hr0. eapply gen_next_created_frame; eassumption.
    + simpl. destruct Hshape as [->|(fr' & -> & Heq)]; [exact I|].
      rewrite Heq. apply fresh_not_dom.
  - split.
    + intros r0 Hr0. rewrite <- (Hfr r0 Hr0). cbn [gen_next] in Hs.
      eapply run_loop_frame; [exact Hs|]. intros ->. contradiction.
    + simpl. destruct Hshape as [->|(fr' & -> & Heq)]; [exact I|]. rewrite Heq. exact Hg.
  - cbn [gen_next] in Hs. injection Hs as <- <- _. split; [exact Hfr|exact I].
Qed.

Lemma rtc_next_step_keeps (w0 : gmap nat (Tree Stats))
    (a b : gmap nat (Tree Stats) * gen (Instance := Instance)) :
  keeps w0 a -> rtc next_step a b -> keeps w0 b.
Proof. intros Ha H. induction H; eauto using next_step_keeps. Qed.

Lemma exhaust_advances fuel (w : gmap nat (Tree Stats)) (g : gen (Instance := Instance)) :
  exists g', rtc next_step (w, g) ((exhaust fuel w g).1, g').
Proof.
  revert w g. induction fuel as [|fuel IH]; intros w g; simpl.
  - exists g. constructor.
  - destruct (gen_next w g) as [[w1 g1] s] eqn:Hnext.
    assert (Hstep : next_step (w, g) (w1, g1)) by (exists s; exact Hnext).
    destruct s as [c| |e].
    + destruct (IH w1 g1) as [g' Hg'].
      destruct (exhaust fuel w1 g1) as [w2 r]. simpl in *.
      exists g'. eapply rtc_l; eassumption.
    + exists g1. apply rtc_once. exact Hstep.
    + exists g1. apply rtc_once. exact Hstep.
Qed.

(** ** Two runs on copies of one tree *)

Lemma run_loop_sim (w w_ : gmap nat (Tree Stats)) r r_ temp ms rem resumed n
    w1 g1 s w1_ g1_ s_ :
  w !! r = w_ !! r_ ->
  run_loop (Instance := Instance) w r temp ms rem resumed n = (w1, g1, s) ->
  run_loop (Instance := Instance) w_ r_ temp ms rem resumed n = (w1_, g1_, s_) ->
  s = s_ /\ gen_sim (w1, g1) (w1_, g1_).
Proof.
  intros Heq. unfold run_loop. rewrite <- Heq.
  destruct (w !! r) as [t|].
  - destruct (for_loop ms temp rem resumed n t) as [t' [c rem' n'| |e]];
      intros [= <- <- <-] [= <- <- <-]; (split; [reflexivity|]); unfold gen_sim; simpl;
      try exact I.
    rewrite !lookup_insert_eq. auto.
  - intros [= <- <- <-] [= <- <- <-]. split; [reflexivity|exact I].
Qed.

Lemma gen_next_sim (a b : gmap nat (Tree Stats) * gen (Instance := Instance))
    w1 g1 s w1_ g1_ s_ :
  gen_sim a b ->
  gen_next a.1 a.2 = (w1, g1, s) -> gen_next b.1 b.2 = (w1_, g1_, s_) ->
  s = s_ /\ gen_sim (w1, g1) (w1_, g1_).
Proof.
  destruct a as [w g], b as [w_ g_]. unfold gen_sim at 1. simpl.
  destruct g as [tree X ms Ms md|fr|], g_ as [tree_ X_ ms_ Ms_ md_|fr_|]; try tauto.
  - intros (<- & <- & <- & <- & Heq). cbn [gen_next].
    destruct (ms <? 1); [intros [= <- <- <-] [= <- <- <-]; split; [reflexivity|exact I]|].
    destruct (ms >? Ms); [intros [= <- <- <-] [= <- <- <-]; split; [reflexivity|exact I]|].
    unfold deepcopy. rewrite <- Heq.
    destruct (w !! tree) as [t_in|];
      [|intros [= <- <- <-] [= <- <- <-]; split; [reflexivity|exact I]].
    destruct (fit_all_spec (<[fresh (dom w) := t_in]> w) (fresh (dom w)) X md t_in)
      as (w2 & -> & Hw2); [apply lookup_insert_eq|].
    destruct (fit_all_spec (<[fresh (dom w_) := t_in]> w_) (fresh (dom w_)) X md t_in)
      as (w2_ & -> & Hw2_); [apply lookup_insert_eq|].
    apply run_loop_sim. congruence.
  - intros (H1 & H2 & H3 & H4 & Heq). cbn [gen_next]. rewrite H1, H2, H3, H4.
    apply run_loop_sim. exact Heq.
  - intros _ [= <- <- <-] [= <- <- <-]. split; [reflexivity|exact I].
Qed.

Lemma exhaust_sim fuel (a b : gmap nat (Tree Stats) * gen (Instance := Instance)) :
  gen_sim a b -> (exhaust fuel a.1 a.2).2 = (exhaust fuel b.1 b.2).2.
Proof.
  revert a b. induction fuel as [|fuel IH]; intros [w g] [w_ g_] Hsim; [reflexivity|].
  cbn [exhaust fst snd].
  destruct (gen_next w g) as [[w1 g1] s] eqn:H1.
  destruct (gen_next w_ g_) as [[w1_ g1_] s_] eqn:H2.
  destruct (gen_next_sim (w, g) (w_, g_) _ _ _ _ _ _ Hsim H1 H2) as [<- Hsim1].
  destruct s as [c| |e]; [|reflexivity|reflexivity].
  specialize (IH _ _ Hsim1). simpl in IH.
  destruct (exhaust fuel w1 g1) as [w2 r], (exhaust fuel w1_ g1_) as [w2_ r_].
  simpl in *. congruence.
Qed.

End Frame.

(** ** Emitted sequences *)

Section Emitted.
Context {Stats Instance Score : Type} `{Ops : TreeOps Stats Instance Score}.

Lemma emitted_length ms temp lo (t : Tree Stats) hi snaps cs :
  emitted ms temp lo t hi snaps cs ->
  Z.of_nat (length cs) <= Z.max 0 (hi - Z.max lo ms + 1).
Proof.
  induction 1 as [|lo t hi n t' c snaps cs Hn Hms _ _ _ IH]; simpl length; lia.
Qed.

Lemma emitted_lookup ms temp lo (t : Tree Stats) hi snaps cs i c :
  emitted ms temp lo t hi snaps cs -> cs !! i = Some c ->
  exists n t', snaps !! i = Some (n, t') /\ lo <= n <= hi /\ ms <= n /\
               rtc split_step t t' /\ clusters_of t' temp = Ok c.
Proof.
  intros H; revert i.
  induction H as [|lo t hi n t' c0 snaps cs Hn Hms Hrtc Hc _ IH]; intros i Hi;
    [discriminate|].
  destruct i as [|i]; simpl in Hi.
  - injection Hi as <-. exists n, t'. auto.
  - destruct (IH _ Hi) as (n1 & t1 & Hs & Hn1 & Hms1 & Hrtc1 & Hc1).
    exists n1, t1. repeat split; try assumption; try lia.
    etransitivity; eassumption.
Qed.

Lemma emitted_mono ms temp lo (t : Tree Stats) hi snaps cs i j ci cj :
  emitted ms temp lo t hi snaps cs -> wf_tree t ->
  (i < j)%nat -> cs !! i = Some ci -> cs !! j = Some cj ->
  (distinct ci <= distinct cj)%nat.
Proof.
  intros H; revert i j.
  induction H as [|lo t hi n t' c0 snaps cs Hn Hms Hrtc Hc Hrest IH];
    intros i j Hwf Hij Hi Hj; [discriminate|].
  assert (Hwf' : wf_tree t') by (eapply rtc_split_wf; eassumption).
  destruct j as [|j]; [lia|]. simpl in Hj.
  destruct i as [|i]; simpl in Hi.
  - injection Hi as <-.
    destruct (emitted_lookup _ _ _ _ _ _ _ _ _ Hrest Hj) as (n1 & t1 & _ & _ & _ & Hrtc1 & Hc1).
    eapply rtc_split_distinct; eassumption.
  - eapply (IH i j); try eassumption. lia.
Qed.

End Emitted.

(** ** The depth-aligned labeler *)

Section LabelerFacts.
Context {Stats Instance Score : Type} `{Ops : TreeOps Stats Instance Score}.

Lemma ancestry_lineage fuel (t : Tree Stats) c labs :
  ancestry fuel t c = Ok labs -> lineage t c labs.
Proof.
  revert c labs; induction fuel as [|fuel IH]; intros c labs; simpl; [discriminate|].
  destruct (nodes t !! c) as [n|] eqn:Hn; [|discriminate].
  destruct (parent n) as [p|] eqn:Hp.
  - destruct (ancestry fuel t p) as [labs'|] eqn:Ha; simpl; [|discriminate].
    intros [= <-]. eapply lineage_up; eauto.
  - intros [= <-]. eapply lineage_top; eauto.
Qed.

Lemma ancestry_total fuel (t : Tree Stats) c k :
  chain t c k -> (k <= fuel)%nat -> exists labs, ancestry fuel t c = Ok labs.
Proof.
  intros H; revert fuel. induction H as [c n Hn Hp|c n p k Hn Hp _ IH]; intros fuel Hle.
  - destruct fuel as [|fuel]; [lia|]. simpl. rewrite Hn, Hp. eauto.
  - destruct fuel as [|fuel]; [lia|]. simpl. rewrite Hn, Hp.
    destruct (IH fuel) as [labs ->]; [lia|]. simpl. eauto.
Qed.

Lemma lineage_chain (t : Tree Stats) c labs : lineage t c labs -> chain t c (length labs).
Proof.
  induction 1; simpl; [eapply chain_top|eapply chain_up]; eassumption.
Qed.

Lemma max_depth_of_max (ls : list (list string)) :
  max_depth_of ls = max_list (length <$> ls).
Proof.
  unfold max_depth_of.
  assert (H : forall m, foldl (fun max_depth labs =>
                 if (max_depth <? length labs)%nat then length labs else max_depth) m ls
               = (m `max` max_list (length <$> ls))%nat).
  { induction ls as [|l ls IH]; intros m; [simpl; lia|].
    rewrite fmap_cons. cbn [foldl max_list]. rewrite IH.
    unfold id. destruct (Nat.ltb_spec m (length l)); lia. }
  rewrite H. lia.
Qed.

Lemma pad_labels_spec m (f : list string) :
  f <> [] ->
  exists lab, last (reverse f) = Some lab /\
              pad_labels m f = Ok (reverse f ++ replicate (m - length f) lab).
Proof.
  intros Hf. unfold pad_labels. rewrite last_reverse.
  destruct f as [|lab f]; [congruence|]. simpl head.
  exists lab. split; [reflexivity|]. rewrite length_reverse. reflexivity.
Qed.

Lemma transpose_cells (padded : list (list string)) m :
  Forall (fun col => length col = m) padded ->
  exists out,
    res_mapM (fun d =>
                res_mapM (fun i : list string =>
                            match i !! d with
                            | Some x => Ok x
                            | None => Raise IndexError
                            end) padded)
             (seq 0 m) = Ok out /\
    length out = m /\
    forall d row, out !! d = Some row ->
      length row = length padded /\
      forall i col, padded !! i = Some col -> row !! i = col !! d.
Proof.
  intros Hlen.
  set (cell := fun (d : nat) (i : list string) =>
                 match i !! d with Some x => Ok x | None => Raise IndexError end).
  destruct (res_mapM_total (fun d => res_mapM (cell d) padded) (seq 0 m)) as [out Hout].
  { apply Forall_forall. intros d Hd. apply elem_of_seq in Hd.
    apply res_mapM_total. eapply Forall_impl; [exact Hlen|]. cbv beta.
    intros col Hcol. unfold cell.
    destruct (col !! d) as [x|] eqn:Hx; [eauto|].
    apply lookup_ge_None in Hx. lia. }
  exists out. split; [exact Hout|]. split.
  - rewrite (res_mapM_length _ _ _ Hout). apply length_seq.
  - intros d row Hrow. apply res_mapM_Forall2 in Hout.
    destruct (Forall2_lookup_r _ _ _ _ _ Hout Hrow) as (d' & Hd' & Hrow').
    apply lookup_seq in Hd' as [-> Hd]. simpl in Hrow'. split.
    + apply (res_mapM_length _ _ _ Hrow').
    + intros i col Hcol. apply res_mapM_Forall2 in Hrow'.
      destruct (Forall2_lookup_l _ _ _ _ _ Hrow' Hcol) as (x & Hx & Hcell).
      unfold cell in Hcell. rewrite Hx.
      destruct (col !! d); [congruence|discriminate].
Qed.

Lemma transpose_spec (padded : list (list string)) m :
  padded <> [] -> Forall (fun col => length col = m) padded ->
  exists out,
    transpose padded = Ok out /\ length out = m /\
    forall d row, out !! d = Some row ->
      length row = length padded /\
      forall i col, padded !! i = Some col -> row !! i = col !! d.
Proof.
  intros Hne Hlen. destruct (transpose_cells padded m Hlen) as (out & Hout & Hrest).
  exists out. split; [|exact Hrest].
  destruct padded as [|first rest]; [congruence|].
  unfold transpose. inversion Hlen as [|? ? Hfirst _]; subst. exact Hout.
Qed.

End LabelerFacts.

(** ** The bounds of the model are never felt *)

(** An ancestor walk that ends under some bound ends under the bound
    [clusters_of] and [depth_labels] use, the size of the arena, with the same
    result: only walks that never end are cut. *)
Lemma climb_bound_exact {Stats} (t : Tree Stats) fuel c x :
  climb fuel t c = Ok x -> climb (size (nodes t)) t c = Ok x.
Proof.
  intros H. apply climb_depth1 in H.
  destruct (climb_rooted t c (depth1_rooted t c x H)) as [x' Hx'].
  rewrite Hx'. f_equal. eapply depth1_fun; [eapply climb_depth1, Hx'|exact H].
Qed.

Lemma lineage_fun {Stats} (t : Tree Stats) c l1 l2 :
  lineage t c l1 -> lineage t c l2 -> l1 = l2.
Proof.
  intros H; revert l2. induction H as [c n Hn Hp|c n p labs Hn Hp _ IH]; intros l2 H2.
  - inversion H2; subst; [congruence|congruence].
  - inversion H2 as [|c' n' p' labs' Hn' Hp' Hl']; subst; [congruence|].
    assert (n' = n) by congruence. subst n'. f_equal. apply IH. congruence.
Qed.

Lemma ancestry_bound_exact {Stats} (t : Tree Stats) fuel c labs :
  ancestry fuel t c = Ok labs -> ancestry (size (nodes t)) t c = Ok labs.
Proof.
  intros H. apply ancestry_lineage in H.
  pose proof (lineage_chain t c labs H) as Hc.
  destruct (ancestry_total (size (nodes t)) t c _ Hc (chain_bound _ _ _ Hc)) as [labs' Hl].
  rewrite Hl. f_equal. eapply lineage_fun; [eapply ancestry_lineage, Hl|exact H].
Qed.

Section Fuel.
Context {Stats Instance Score : Type} `{Ops : TreeOps Stats Instance Score}.

Lemma gen_next_fuel (w : gmap nat (Tree Stats)) (g : gen (Instance := Instance)) w' g' c :
  gen_next w g = (w', g', Yield c) -> (gen_fuel g' < gen_fuel g)%nat.
Proof.
  destruct g as [tree X ms Ms md|fr|]; cbn [gen_next gen_fuel].
  - intros H. apply gen_next_created_yield in H as (t_in & t1 & rem1 & n1 & _ & _ & Hf & -> & _).
    apply for_loop_paused in Hf as (_ & _ & _ & _ & Hsum & Hn). simpl. lia.
  - intros H. apply run_loop_yield in H as (t & t' & rem' & n' & _ & Hf & _ & ->).
    apply for_loop_paused in Hf as (_ & _ & _ & _ & Hsum & Hn). simpl. lia.
  - discriminate.
Qed.

(** The loops over the generator end by themselves: with [gen_fuel g] or any
    larger bound they give the same result. *)
Lemma exhaust_fuel fuel (w : gmap nat (Tree Stats)) (g : gen (Instance := Instance)) :
  (gen_fuel g <= fuel)%nat -> exhaust fuel w g = exhaust (gen_fuel g) w g.
Proof.
  assert (H : forall f1 f2 w (g : gen (Instance := Instance)),
            (gen_fuel g <= f1)%nat -> (gen_fuel g <= f2)%nat ->
            exhaust f1 w g = exhaust f2 w g).
  { induction f1 as [|f1 IH]; intros f2 w0 g0 H1 H2.
    - destruct g0; simpl in H1; lia.
    - destruct f2 as [|f2]; [destruct g0; simpl in H2; lia|].
      cbn [exhaust]. destruct (gen_next w0 g0) as [[w1 g1] [c| |e]] eqn:Hn; try reflexivity.
      apply gen_next_fuel in Hn. rewrite (IH f2 w1 g1) by lia. reflexivity. }
  intros Hf. apply H; [exact Hf|reflexivity].
Qed.

Lemma k_loop_fuel fuel (w : gmap nat (Tree Stats)) (g : gen (Instance := Instance)) k cl :
  (gen_fuel g <= fuel)%nat -> k_loop fuel w g k cl = k_loop (gen_fuel g) w g k cl.
Proof.
  assert (H : forall f1 f2 w (g : gen (Instance := Instance)) cl,
            (gen_fuel g <= f1)%nat -> (gen_fuel g <= f2)%nat ->
            k_loop f1 w g k cl = k_loop f2 w g k cl).
  { induction f1 as [|f1 IH]; intros f2 w0 g0 cl0 H1 H2.
    - destruct g0; simpl in H1; lia.
    - destruct f2 as [|f2]; [destruct g0; simpl in H2; lia|].
      cbn [k_loop]. destruct (gen_next w0 g0) as [[w1 g1] [c| |e]] eqn:Hn; try reflexivity.
      apply gen_next_fuel in Hn. destruct (Z.of_nat (distinct c) >? k); [reflexivity|].
      apply IH; lia. }
  intros Hf. apply H; [exact Hf|reflexivity].
Qed.

End Fuel.

(** * Main results *)

Ltac run_yields :=
  repeat (eapply yields_cons; [vm_compute; reflexivity|]); apply yields_nil.

Section Results.
Context {Stats Instance Score : Type} `{Ops : TreeOps Stats Instance Score}.

(** C4.  With [1 <= minsplit <= maxsplit], a generator of [cluster_iter] gives
    at most [maxsplit - minsplit + 1] clusterings, and each of them has one
    entry for each instance. *)
Theorem cluster_iter_bounded (w : gmap nat (Tree Stats)) tree (X : list Instance)
    ms Ms md cs w' g' :
  1 <= ms <= Ms ->
  yields w (cluster_iter tree X ms Ms md) cs w' g' ->
  Z.of_nat (length cs) <= Ms - ms + 1 /\
  Forall (fun c => length c = length X) cs.
Proof.
  intros Hms H. destruct cs as [|c0 cs0] eqn:Hcs.
  - split; [simpl; lia|constructor].
  - rewrite <- Hcs in *. assert (Hne : cs <> []) by (subst; discriminate). clear Hcs.
    assert (exists t_in, w !! tree = Some t_in) as [t_in Hw].
    { destruct cs; [congruence|]. eapply yields_created_args, H. }
    destruct (yields_created _ _ _ _ _ _ _ _ _ t_in H Hw) as [snaps Hem].
    split.
    + pose proof (emitted_length _ _ _ _ _ _ _ Hem). lia.
    + apply Forall_forall. intros c Hc. apply list_elem_of_lookup in Hc as [i Hi].
      destruct (emitted_lookup _ _ _ _ _ _ _ _ _ Hem Hi) as (n & t' & _ & _ & _ & _ & Hc).
      rewrite (clusters_of_length _ _ _ Hc). apply insert_all_length.
Qed.

(** C5.  Along the clusterings a generator of [cluster_iter] gives, the number
    of distinct labels never goes down (for a tree that is well-formed once the
    instances are in). *)
Theorem cluster_iter_monotone (w : gmap nat (Tree Stats)) tree (X : list Instance)
    ms Ms md cs w' g' t_in i j ci cj :
  w !! tree = Some t_in ->
  wf_tree (insert_all md t_in X).1 ->
  yields w (cluster_iter tree X ms Ms md) cs w' g' ->
  (i < j)%nat -> cs !! i = Some ci -> cs !! j = Some cj ->
  (distinct ci <= distinct cj)%nat.
Proof.
  intros Hw Hwf H Hij Hi Hj.
  destruct (yields_created _ _ _ _ _ _ _ _ _ t_in H Hw) as [snaps Hem].
  eapply emitted_mono; eassumption.
Qed.

(** C1.  The clustering a generator of [cluster_iter] gives at its [next]
    call number [i] (from 0) belongs to the value [n = minsplit + i] of
    [nth_split], with [1 <= minsplit <= n <= maxsplit], and to the tree [t]
    the driver holds at that value: the copy with the instances in after
    exactly [n - 1] rounds of lines 64-74, which is one tree only.  The
    clustering has one label for each instance, in the order of the instances:
    ["Concept"] followed by the concept id of the node [x] where the parent
    links from the node recorded for the instance lead in [t], the node whose
    parent is the root (or the recorded node itself where that is the
    root). *)
Theorem cluster_iter_labels (w : gmap nat (Tree Stats)) tree (X : list Instance)
    ms Ms md cs w' g' t_in i c :
  w !! tree = Some t_in ->
  wf_tree (insert_all md t_in X).1 ->
  yields w (cluster_iter tree X ms Ms md) cs w' g' ->
  cs !! i = Some c ->
  exists n t,
    n = ms + Z.of_nat i /\ 1 <= ms /\ ms <= n <= Ms /\
    nsteps split_step (Z.to_nat (n - 1)) (insert_all md t_in X).1 t /\
    (forall t2, nsteps split_step (Z.to_nat (n - 1)) (insert_all md t_in X).1 t2 ->
                t2 = t) /\
    length c = length X /\
    Forall2 (fun leaf lab => exists x nx,
               depth1 t leaf x /\ nodes t !! x = Some nx /\
               lab = "Concept" +:+ concept_id nx /\
               (parent nx = Some (root t) \/ (x = leaf /\ leaf = root t)))
            (insert_all md t_in X).2 c.
Proof.
  intros Hw Hwf H Hi.
  destruct (yields_created_exact _ _ _ _ _ _ _ _ _ t_in i c H Hw Hi)
    as (t & Hms & HMs & Hsteps & Hc).
  exists (ms + Z.of_nat i), t.
  split; [reflexivity|]. split; [exact Hms|]. split; [lia|].
  split; [exact Hsteps|]. split.
  { intros t2 H2. exact (nsteps_split_det _ _ _ _ H2 Hsteps). }
  split.
  - rewrite (clusters_of_length _ _ _ Hc). apply insert_all_length.
  - eapply Forall2_impl; [eapply clusters_of_spec, Hc|]. cbv beta.
    intros leaf lab (x & nx & Hd & Hnx & ->). exists x, nx.
    repeat split; try assumption.
    assert (Hrtc : rtc split_step (insert_all md t_in X).1 t)
      by (eapply rtc_nsteps_2, Hsteps).
    destruct (depth1_wf t leaf x (rtc_split_wf _ _ Hwf Hrtc) Hd) as (nx' & Hnx' & Hcase).
    assert (nx' = nx) by congruence. subst nx'. exact Hcase.
Qed.

(** C2.  When [split_cus] is not empty, its last entry [(g, i, c)] is the child
    [c] at position [i] of the root's child list, a child with children, with
    [g] its gain [cu_for_split(c) - category_utility()]; every other child at a
    position [j] that has children has a smaller gain, or the same gain and
    [j <= i].  That child [c] is the node handed to [split] in every round
    that comes to lines 64-74, the one behind a [yield] as the one at a value
    of [nth_split] below [minsplit]: the loop goes on with the next value on
    the tree [split] has made of [c], and a round of splitting leads to that
    tree and to no other. *)
Theorem split_selects_max (t : Tree Stats) cus g i c :
  score_order Ops ->
  split_cus t = Ok cus -> last cus = Some (g, i, c) ->
  (exists r nc,
     nodes t !! root t = Some r /\ children r !! i = Some c /\
     nodes t !! c = Some nc /\ children nc <> [] /\ g = gain t c /\
     forall j c' nc',
       children r !! j = Some c' -> nodes t !! c' = Some nc' -> children nc' <> [] ->
       score_ltb (gain t c') g = true \/ (gain t c' = g /\ (j <= i)%nat)) /\
  (forall ms temp rem resumed n,
     resumed = true \/ n < ms ->
     for_loop ms temp (S rem) resumed n t =
     match split t c with
     | Ok t' => for_loop ms temp rem false (n + 1) t'
     | Raise e => (t, Failed e)
     end) /\
  (forall t', split_step t t' <-> split t c = Ok t').
Proof.
  intros Hso Hcus Hlast. split; [|split].
  - eapply split_cus_last; eassumption.
  - intros ms temp rem resumed n Hround. cbn [for_loop].
    assert (negb resumed && (n >=? ms) = false) as ->.
    { destruct Hround as [->|Hlt]; [reflexivity|].
      rewrite Z.geb_leb, (proj2 (Z.leb_gt ms n)) by lia. apply andb_false_r. }
    rewrite Hcus, Hlast. reflexivity.
  - intros t'. split.
    + intros [cus' g' i' c' Hcus' Hlast' Hs]. congruence.
    + intros Hs. econstructor; eassumption.
Qed.

(** C8.  For a non-empty instance list (and recorded nodes whose ancestor
    walks end) [depth_labels] returns a list [out] with one clustering for
    each depth up to the longest chain of labels from a recorded node to the
    root; each clustering has one entry for each instance; and in the column of
    an instance the labels of its own chain, root first, are followed by
    copies of the last, deepest, one. *)
Theorem depth_labels_shape (w : gmap nat (Tree Stats)) tree (X : list Instance) md t_in :
  w !! tree = Some t_in ->
  X <> [] ->
  Forall (rooted (insert_all md t_in X).1) (insert_all md t_in X).2 ->
  exists out lins,
    (depth_labels w tree X md).2 = Ok out /\
    Forall2 (lineage (insert_all md t_in X).1) (insert_all md t_in X).2 lins /\
    length out = max_list (length <$> lins) /\
    Forall (fun row => length row = length X) out /\
    forall d row i lin,
      out !! d = Some row -> lins !! i = Some lin ->
      row !! i = if decide (d < length lin)%nat
                 then reverse lin !! d
                 else last (reverse lin).
Proof.
  intros Hw HX Hrooted.
  destruct (fit_all_spec w tree X md t_in Hw) as (w1 & Hfit & Hw1).
  pose proof (insert_all_length md t_in X) as Hlen.
  unfold depth_labels. rewrite Hfit, Hw1.
  set (t0 := (insert_all md t_in X).1) in *.
  set (temp := (insert_all md t_in X).2) in *.
  cbn [snd].
  destruct (res_mapM_total (ancestry (size (nodes t0)) t0) temp) as [lins Hlins].
  { eapply Forall_impl; [exact Hrooted|]. intros leaf [k Hk].
    eapply ancestry_total; [exact Hk|]. eapply chain_bound, Hk. }
  rewrite Hlins. cbn [mbind res_bind].
  assert (Hlin : Forall2 (lineage t0) temp lins).
  { apply res_mapM_Forall2 in Hlins. eapply Forall2_impl; [exact Hlins|].
    intros leaf lin. apply ancestry_lineage. }
  rewrite max_depth_of_max. set (M := max_list (length <$> lins)).
  assert (Hpad : forall lin, lin ∈ lins ->
            lin <> [] /\ (length lin <= M)%nat).
  { intros lin Hin. split.
    - apply list_elem_of_lookup in Hin as [i Hi].
      destruct (Forall2_lookup_r _ _ _ _ _ Hlin Hi) as (leaf & _ & Hl).
      apply lineage_chain, chain_pos in Hl. destruct lin; [simpl in Hl; lia|discriminate].
    - apply max_list_elem_of_le, list_elem_of_fmap. eauto. }
  destruct (res_mapM_total (pad_labels M) lins) as [padded Hpadded].
  { apply Forall_forall. intros lin Hin. destruct (Hpad lin Hin) as [Hne _].
    destruct (pad_labels_spec M lin Hne) as (lab & _ & ->). eauto. }
  rewrite Hpadded. cbn [mbind res_bind].
  assert (Hcols : Forall2 (fun lin col => exists lab,
            last (reverse lin) = Some lab /\
            col = reverse lin ++ replicate (M - length lin) lab) lins padded).
  { apply res_mapM_Forall2 in Hpadded.
    apply Forall2_same_length_lookup. split; [eapply Forall2_length, Hpadded|].
    intros i lin col Hi Hc.
    destruct (Forall2_lookup_l _ _ _ _ _ Hpadded Hi) as (col' & Hc' & Hp).
    assert (col' = col) by congruence. subst col'.
    destruct (Hpad lin) as [Hne _]; [eapply list_elem_of_lookup_2, Hi|].
    destruct (pad_labels_spec M lin Hne) as (lab & Hlast & Heq).
    exists lab. split; [exact Hlast|congruence]. }
  destruct (transpose_spec padded M) as (out & Hout & HlenM & Hcells).
  { intros ->. apply Forall2_length in Hcols. apply Forall2_length in Hlin.
    simpl in Hcols. destruct X; [congruence|]. simpl in Hlen. lia. }
  { apply Forall_forall. intros col Hin. apply list_elem_of_lookup in Hin as [i Hi].
    destruct (Forall2_lookup_r _ _ _ _ _ Hcols Hi) as (lin & Hli & lab & _ & ->).
    destruct (Hpad lin) as [_ Hle]; [eapply list_elem_of_lookup_2, Hli|].
    rewrite length_app, length_reverse, length_replicate. lia. }
  exists out, lins. split; [exact Hout|]. split; [exact Hlin|].
  split; [exact HlenM|]. split.
  - apply Forall_forall. intros row Hin. apply list_elem_of_lookup in Hin as [d Hd].
    destruct (Hcells d row Hd) as [-> _].
    rewrite <- (Forall2_length _ _ _ Hcols), <- (Forall2_length _ _ _ Hlin). exact Hlen.
  - intros d row i lin Hd Hi.
    destruct (Forall2_lookup_l _ _ _ _ _ Hcols Hi) as (col & Hc & lab & Hlast & ->).
    destruct (Hcells d row Hd) as [_ Hcell]. rewrite (Hcell _ _ Hc).
    assert (d < M)%nat by (rewrite <- HlenM; eapply lookup_lt_Some, Hd).
    destruct (decide (d < length lin)%nat) as [Hlt|Hge].
    + apply lookup_app_l. rewrite length_reverse. exact Hlt.
    + rewrite lookup_app_r by (rewrite length_reverse; lia).
      rewrite Hlast. apply lookup_replicate_2. rewrite length_reverse. lia.
Qed.

(** C10.  Called with an empty instance list, [depth_labels] does not return
    an empty list of clusterings: the index [[0]] of line 180 raises. *)
Theorem depth_labels_empty (w : gmap nat (Tree Stats)) tree md t_in :
  w !! tree = Some t_in ->
  (depth_labels (Instance := Instance) w tree [] md).2 = Raise IndexError.
Proof.
  intros Hw. unfold depth_labels, fit_all. rewrite Hw. cbn [insert_all].
  destruct md; rewrite ?lookup_insert_eq, ?Hw; reflexivity.
Qed.

(** C3.  With [k < 2], [k_cluster] raises the ValueError, with the store
    untouched.  With [k >= 2], a clustering it returns has at most [k]
    distinct labels; and it does return one when the tree with the instances
    in is well-formed and the recorded nodes have ending ancestor walks. *)
Theorem k_cluster_at_most_k (w : gmap nat (Tree Stats)) tree (X : list Instance) k md :
  (k < 2 ->
   k_cluster w tree X k md =
   (w, Raise (ValueError
      "k must be >=2, all nodes in Cobweb are guaranteed to have at least 2 children."))) /\
  (2 <= k ->
   forall w' c, k_cluster w tree X k md = (w', Ok c) -> Z.of_nat (distinct c) <= k) /\
  (2 <= k ->
   forall t_in,
     w !! tree = Some t_in -> is_Some (nodes t_in !! root t_in) ->
     wf_tree (insert_all md t_in X).1 ->
     Forall (rooted (insert_all md t_in X).1) (insert_all md t_in X).2 ->
     exists w' c, k_cluster w tree X k md = (w', Ok c)).
Proof.
  unfold k_cluster. split; [|split].
  - intros Hk. rewrite (proj2 (Z.ltb_lt k 2)) by lia. reflexivity.
  - intros Hk w' c. rewrite (proj2 (Z.ltb_ge k 2)) by lia.
    destruct (w !! tree) as [t|]; [|discriminate].
    destruct (res_mapM _ X) as [cl|e] eqn:Hcl; [|discriminate].
    apply k_loop_distinct.
    apply res_mapM_const_inv in Hcl as [->|[lab ->]].
    + assert (distinct [] = 0%nat) as -> by (vm_compute; reflexivity). lia.
    + pose proof (distinct_const lab X). lia.
  - intros Hk t_in Hw [rn Hrn] Hwf Hr. rewrite (proj2 (Z.ltb_ge k 2)) by lia.
    rewrite Hw. erewrite res_mapM_const by (unfold label_of; rewrite Hrn; reflexivity).
    apply k_loop_total; [|unfold default_maxsplit; simpl; lia|reflexivity].
    exists t_in. auto.
Qed.

(** C9.  No sequence of [next] calls on a generator of [cluster_iter] changes
    a tree object of the caller's store: the generator works on the copy it
    makes.  So a second [cluster] call with the same arguments and
    [mod = False], run in the store the first one leaves, gives the same
    clusterings. *)
Theorem cluster_iter_keeps_tree (w : gmap nat (Tree Stats)) tree (X : list Instance)
    ms Ms md :
  (forall w' g',
     rtc next_step (w, cluster_iter tree X ms Ms md) (w', g') ->
     forall r0, r0 ∈ dom w -> w' !! r0 = w !! r0) /\
  (forall w1 r1,
     cluster w tree X ms Ms false = (w1, r1) ->
     (cluster w1 tree X ms Ms false).2 = r1).
Proof.
  assert (Hkeep : forall md' w' g',
            rtc next_step (w, cluster_iter tree X ms Ms md') (w', g') ->
            forall r0, r0 ∈ dom w -> w' !! r0 = w !! r0).
  { intros md' w' g' H.
    apply (rtc_next_step_keeps w) in H; [exact (proj1 H)|].
    split; [reflexivity|]. reflexivity. }
  split; [apply Hkeep|].
  intros w1 r1 H. unfold cluster in *.
  set (g := cluster_iter tree X ms Ms false) in *.
  destruct (exhaust_advances (gen_fuel g) w g) as [g' Hadv].
  rewrite H in Hadv. simpl in Hadv.
  assert (Hsame : w1 !! tree = w !! tree).
  { destruct (w !! tree) as [t|] eqn:Hw.
    - rewrite <- Hw. eapply Hkeep; [exact Hadv|]. apply elem_of_dom. eauto.
    - assert (Hw1 : w1 = w); [|rewrite Hw1; exact Hw].
      revert H. unfold g, cluster_iter. cbn [gen_fuel exhaust gen_next].
      destruct (ms <? 1); [intros [= <- _]; reflexivity|].
      destruct (ms >? Ms); [intros [= <- _]; reflexivity|].
      unfold deepcopy. rewrite Hw. intros [= <- _]. reflexivity. }
  assert (Hsim : gen_sim (w1, g) (w, g)).
  { unfold gen_sim, g, cluster_iter. simpl. auto. }
  pose proof (exhaust_sim (gen_fuel g) (w1, g) (w, g) Hsim) as He.
  cbn [fst snd] in He. rewrite He, H. reflexivity.
Qed.

(** C6, as the code has it.  With [minsplit < 1] or [maxsplit < minsplit] the
    call of [cluster_iter] only makes a generator; its first [next] raises the
    ValueError and so does [cluster], and a [k_cluster] call with [k < 2]
    raises it at once.  Each time the store is the one before the call: no
    copy has been made, no tree changed, the generator is finished and has
    given no clustering. *)
Theorem invalid_arguments_rejected (w : gmap nat (Tree Stats)) tree (X : list Instance)
    ms Ms k md :
  (ms < 1 \/ Ms < ms ->
   exists msg,
     gen_next w (cluster_iter tree X ms Ms md) = (w, GClosed, Raised (ValueError msg)) /\
     cluster w tree X ms Ms md = (w, Raise (ValueError msg))) /\
  (k < 2 ->
   exists msg, k_cluster w tree X k md = (w, Raise (ValueError msg))).
Proof.
  split.
  - intros Hbad. unfold cluster, cluster_iter. cbn [gen_fuel exhaust gen_next].
    destruct (Z.ltb_spec ms 1).
    + eexists. split; reflexivity.
    + rewrite Z.gtb_ltb. rewrite (proj2 (Z.ltb_lt Ms ms)) by lia.
      eexists. split; reflexivity.
  - intros Hk. unfold k_cluster. rewrite (proj2 (Z.ltb_lt k 2)) by lia.
    eexists. reflexivity.
Qed.

(** C7, as the code has it.  [k_cluster] applies the selection rule to the
    sequence [cluster_iter] produces with [minsplit = 1] and the default
    [maxsplit] of 100000, starting from the one-cluster labelling with the
    root's label: it returns what [bounded_k] selects from the clusterings
    that sequence holds. *)
Theorem k_cluster_selects (w : gmap nat (Tree Stats)) tree (X : list Instance)
    k md t_in lab w' cs :
  2 <= k ->
  w !! tree = Some t_in ->
  label_of t_in (root t_in) = Ok lab ->
  cluster w tree X 1 default_maxsplit md = (w', Ok cs) ->
  (k_cluster w tree X k md).2 = Ok (bounded_k k (map (fun _ => lab) X) cs).
Proof.
  intros Hk Hw Hlab Hcs. unfold k_cluster.
  rewrite (proj2 (Z.ltb_ge k 2)) by lia. rewrite Hw, (res_mapM_const _ X lab Hlab).
  eapply k_loop_exhaust. exact Hcs.
Qed.

End Results.

(** ** Concrete trees *)

Lemma wf_check_sound {Stats} (t : Tree Stats) : wf_check t = true -> wf_tree t.
Proof.
  unfold wf_check. rewrite andb_true_iff, bool_decide_eq_true.
  intros [Hroot Hall].
  assert (Hnode : forall c n, nodes t !! c = Some n -> node_ok t c n = true)
    by exact Hall.
  split.
  - destruct (nodes t !! root t) as [r|]; [|discriminate].
    apply bool_decide_eq_true in Hroot. eauto.
  - intros c n Hn Hp. apply Hnode in Hn. unfold node_ok in Hn.
    rewrite !andb_true_iff in Hn. destruct Hn as [[Hn _] _].
    rewrite Hp in Hn. apply bool_decide_eq_true in Hn. exact Hn.
  - intros a na c Ha Hin. apply Hnode in Ha. unfold node_ok in Ha.
    rewrite !andb_true_iff in Ha. destruct Ha as [[_ Ha] _].
    rewrite forallb_forall in Ha. apply list_elem_of_In, Ha in Hin.
    unfold child_ok in Hin. destruct (nodes t !! c) as [nc|]; [|discriminate].
    exists nc. split; [reflexivity|].
    apply orb_true_iff in Hin as [H|H]; apply bool_decide_eq_true in H; tauto.
  - intros a b' na nb Ha Hb' Hid. apply Hnode in Ha. unfold node_ok in Ha.
    rewrite !andb_true_iff in Ha. destruct Ha as [_ Ha].
    apply bool_decide_eq_true in Ha. exact (Ha _ _ Hb' Hid).
Qed.

Lemma toy_tree_wf : wf_tree toy_tree.
Proof. apply wf_check_sound. vm_compute. reflexivity. Qed.

Lemma toy_score_order : score_order toy_ops.
Proof.
  split; simpl.
  - apply Z.eqb_eq.
  - apply Z.ltb_irrefl.
  - intros a b c. rewrite !Z.ltb_lt. lia.
  - intros a b. rewrite !Z.ltb_lt. lia.
Qed.

(** With [minsplit = 2] and [maxsplit = 3] the toy run gives two clusterings
    of five labels. *)
Lemma cluster_iter_bounded_witness :
  Z.of_nat (length [toy_cut1; toy_cut2]) <= 3 - 2 + 1 /\
  Forall (fun c => length c = length toy_instances) [toy_cut1; toy_cut2].
Proof.
  eapply (cluster_iter_bounded (Ops := toy_ops) toy_store 5%nat toy_instances 2 3 false).
  - lia.
  - run_yields.
Defined.

(** The first and the last clustering of the full toy run: two labels, then
    five. *)
Lemma cluster_iter_monotone_witness :
  (distinct toy_cut0 <= distinct toy_cut3)%nat.
Proof.
  eapply (cluster_iter_monotone (Ops := toy_ops) toy_store 5%nat toy_instances 1 10 false
            [toy_cut0; toy_cut1; toy_cut2; toy_cut3] _ _ toy_tree 0 3).
  - reflexivity.
  - apply toy_tree_wf.
  - run_yields.
  - lia.
  - reflexivity.
  - reflexivity.
Defined.

(** With [minsplit = 2] the second clustering of the toy run belongs to
    [nth_split = 3] and to the toy tree after two splits. *)
Lemma cluster_iter_labels_witness :
  exists n t,
    n = 2 + Z.of_nat 1 /\ 1 <= 2 /\ 2 <= n <= 3 /\
    nsteps (split_step (Ops := toy_ops)) (Z.to_nat (n - 1)) toy_tree t /\
    (forall t2, nsteps (split_step (Ops := toy_ops)) (Z.to_nat (n - 1)) toy_tree t2 ->
                t2 = t) /\
    length toy_cut2 = length toy_instances /\
    Forall2 (fun leaf lab => exists x nx,
               depth1 t leaf x /\ nodes t !! x = Some nx /\
               lab = "Concept" +:+ concept_id nx /\
               (parent nx = Some (root t) \/ (x = leaf /\ leaf = root t)))
            toy_instances toy_cut2.
Proof.
  eapply (cluster_iter_labels (Ops := toy_ops) toy_store 5%nat toy_instances 2 3 false
            [toy_cut1; toy_cut2] _ _ toy_tree 1).
  - reflexivity.
  - apply toy_tree_wf.
  - run_yields.
  - reflexivity.
Defined.

(** On the toy tree the children [a] (position 0) and [b] (position 1) both
    have gain 2: the later one, [b], is selected. *)
Lemma split_selects_max_witness :
  (exists r nc : Node unit,
     nodes toy_tree !! root toy_tree = Some r /\ children r !! 1%nat = Some 2%nat /\
     nodes toy_tree !! 2%nat = Some nc /\ children nc <> [] /\
     2 = gain (Ops := toy_ops) toy_tree 2 /\
     forall j c' (nc' : Node unit),
       children r !! j = Some c' -> nodes toy_tree !! c' = Some nc' ->
       children nc' <> [] ->
       score_ltb (TreeOps := toy_ops) (gain (Ops := toy_ops) toy_tree c') 2 = true \/
       (gain (Ops := toy_ops) toy_tree c' = 2 /\ (j <= 1)%nat)) /\
  (forall ms temp rem resumed n,
     resumed = true \/ n < ms ->
     for_loop (Ops := toy_ops) ms temp (S rem) resumed n toy_tree =
     match split toy_tree 2 with
     | Ok t' => for_loop (Ops := toy_ops) ms temp rem false (n + 1) t'
     | Raise e => (toy_tree, Failed e)
     end) /\
  (forall t', split_step (Ops := toy_ops) toy_tree t' <-> split toy_tree 2 = Ok t').
Proof.
  eapply (split_selects_max (Ops := toy_ops) toy_tree [(2, 0%nat, 1%nat); (2, 1%nat, 2%nat)]).
  - apply toy_score_order.
  - vm_compute. reflexivity.
  - reflexivity.
Defined.

Lemma toy_rooted : Forall (rooted toy_tree) toy_instances.
Proof.
  apply Forall_forall. intros leaf Hleaf.
  assert (Hl : exists labs, ancestry (size (nodes toy_tree)) toy_tree leaf = Ok labs).
  { unfold toy_instances in Hleaf.
    repeat (apply elem_of_cons in Hleaf as [->|Hleaf]; [eexists; vm_compute; reflexivity|]).
    inversion Hleaf. }
  destruct Hl as [labs Hl]. exists (length labs).
  eapply lineage_chain, ancestry_lineage, Hl.
Qed.

(** The four depth cuts of the toy tree; the column of the third instance
    (node [d], a chain of three labels) repeats ["Conceptd"] at depth 3. *)
Lemma depth_labels_shape_witness :
  exists out lins,
    (depth_labels (Ops := toy_ops) toy_store 5%nat toy_instances false).2 = Ok out /\
    Forall2 (lineage toy_tree) toy_instances lins /\
    length out = max_list (length <$> lins) /\
    Forall (fun row => length row = length toy_instances) out /\
    forall d row i lin,
      out !! d = Some row -> lins !! i = Some lin ->
      row !! i = if decide (d < length lin)%nat
                 then reverse lin !! d
                 else last (reverse lin).
Proof.
  apply (depth_labels_shape (Ops := toy_ops) toy_store 5%nat toy_instances false toy_tree).
  - reflexivity.
  - discriminate.
  - exact toy_rooted.
Defined.

Lemma depth_labels_empty_witness :
  (depth_labels (Ops := toy_ops) toy_store 5%nat [] true).2 = Raise IndexError.
Proof.
  apply (depth_labels_empty (Ops := toy_ops) toy_store 5%nat true toy_tree).
  reflexivity.
Defined.

(** On the toy tree, [k = 3] gives the clustering after one split: three
    labels. *)
Lemma k_cluster_at_most_k_witness :
  Z.of_nat (distinct toy_cut1) <= 3.
Proof.
  eapply (proj1 (proj2 (k_cluster_at_most_k (Ops := toy_ops) toy_store 5%nat
                          toy_instances 3 false))).
  - lia.
  - vm_compute. reflexivity.
Defined.

Lemma bounded_k_replicate k cand c n (cs : list (list string)) :
  Z.of_nat (distinct c) <= k -> (1 <= n)%nat ->
  bounded_k k cand (replicate n c ++ cs) = bounded_k k c cs.
Proof.
  intros Hc Hn. revert cand. induction n as [|n IH]; intros cand; [lia|].
  cbn [replicate app bounded_k].
  rewrite Z.gtb_ltb, (proj2 (Z.ltb_ge k _)) by lia.
  destruct n as [|n]; [reflexivity|]. apply IH. lia.
Qed.

Lemma bounded_k_replicate_all k cand c n :
  Z.of_nat (distinct c) <= k -> (1 <= n)%nat ->
  bounded_k k cand (replicate n c) = c.
Proof.
  intros Hc Hn. rewrite <- (app_nil_r (replicate n c)).
  rewrite bounded_k_replicate by assumption. reflexivity.
Qed.

(** ** The wide tree *)

Lemma size_ge_2 {V} (m : gmap nat V) a b x y :
  m !! a = Some x -> m !! b = Some y -> a <> b -> (2 <= size m)%nat.
Proof.
  intros Ha Hb Hab.
  assert (H1 : size (delete a m) <> 0%nat).
  { apply (map_size_ne_0_lookup_2 _ b). rewrite lookup_delete_ne by exact Hab. eauto. }
  rewrite map_size_delete_Some in H1 by eauto. lia.
Qed.

Lemma remove_first_middle x l1 l2 :
  x ∉ l1 -> remove_first x (l1 ++ x :: l2) = l1 ++ l2.
Proof.
  induction l1 as [|y l1 IH]; intros Hx; simpl.
  - rewrite decide_True by reflexivity. reflexivity.
  - rewrite decide_False by (intros ->; apply Hx, list_elem_of_here).
    f_equal. apply IH. intros H. apply Hx, list_elem_of_further, H.
Qed.

(** Childless nodes contribute nothing to the comprehension of line 64. *)
Lemma candidates_childless (t : Tree unit) i ls rest :
  Forall (fun l => exists nl, nodes t !! l = Some nl /\ children nl = []) ls ->
  candidates (Ops := fan_ops) t i (ls ++ rest) =
  candidates (Ops := fan_ops) t (i + length ls) rest.
Proof.
  intros H; revert i. induction H as [|l ls (nl & Hnl & Hch) _ IH]; intros i.
  - simpl. f_equal. lia.
  - cbn [app candidates length]. rewrite Hnl, Hch, IH.
    replace (S i + length ls)%nat with (i + S (length ls))%nat by lia.
    destruct (candidates t (i + S (length ls)) rest); reflexivity.
Qed.

(** A node other than the root keeps its children and its concept id in a
    split. *)
Lemma split_keeps (t t' : Tree unit) best r b c n :
  (forall c, nodes t' !! c = split_node t r b best c <$> nodes t !! c) ->
  nodes t !! c = Some n -> c <> root t ->
  exists n', nodes t' !! c = Some n' /\ children n' = children n /\
             concept_id n' = concept_id n /\
             parent n' = if decide (c ∈ children b) then Some (root t) else parent n.
Proof.
  intros Hl Hn Hc. exists (split_node t r b best c n). rewrite Hl, Hn.
  split; [reflexivity|]. rewrite split_node_children, split_node_id, split_node_parent.
  rewrite decide_False by exact Hc. auto.
Qed.

Lemma fan_score_order : score_order fan_ops.
Proof.
  split; simpl.
  - apply Z.eqb_eq.
  - apply Z.ltb_irrefl.
  - intros a b c. rewrite !Z.ltb_lt. lia.
  - intros a b. rewrite !Z.ltb_lt. lia.
Qed.

Section Fan.
Variable N : nat.

Lemma fan_lookup e : (e < 3 * N + 4)%nat -> nodes (fan N) !! e = Some (fan_node N e).
Proof.
  intros He. unfold fan. cbn [nodes].
  apply elem_of_list_to_map_1.
  - assert (H : forall l : list nat, (map (fun e => (e, fan_node N e)) l).*1 = l).
    { induction l as [|x l IH]; [reflexivity|]. simpl. f_equal. exact IH. }
    rewrite H. apply NoDup_seq.
  - apply list_elem_of_In. apply (in_map (fun e => (e, fan_node N e))).
    apply in_seq. lia.
Qed.

Lemma fan_lookup_inv e n :
  nodes (fan N) !! e = Some n -> (e < 3 * N + 4)%nat /\ n = fan_node N e.
Proof.
  unfold fan. cbn [nodes]. intros H. apply elem_of_list_to_map_2 in H.
  apply list_elem_of_In, in_map_iff in H as (e' & [= <- <-] & Hin).
  apply in_seq in Hin. split; [lia|reflexivity].
Qed.

Lemma fan_node_inner e :
  (4 <= e < 4 + N)%nat ->
  fan_node N e = mkNode (pretty e) (Some 0%nat) [e + N; e + 2 * N]%nat tt.
Proof.
  intros He. unfold fan_node.
  destruct (Nat.eqb_spec e 0); [lia|]. destruct (Nat.eqb_spec e 1); [lia|].
  destruct (Nat.ltb_spec e 4); [lia|]. destruct (Nat.ltb_spec e (4 + N)); [|lia].
  reflexivity.
Qed.

Lemma fan_node_near e :
  (4 + N <= e < 4 + 2 * N)%nat ->
  fan_node N e = mkNode (pretty e) (Some (e - N)%nat) [] tt.
Proof.
  intros He. unfold fan_node.
  destruct (Nat.eqb_spec e 0); [lia|]. destruct (Nat.eqb_spec e 1); [lia|].
  destruct (Nat.ltb_spec e 4); [lia|]. destruct (Nat.ltb_spec e (4 + N)); [lia|].
  destruct (Nat.ltb_spec e (4 + 2 * N)); [|lia]. reflexivity.
Qed.

Lemma fan_node_far e :
  (4 + 2 * N <= e)%nat ->
  fan_node N e = mkNode (pretty e) (Some (e - 2 * N)%nat) [] tt.
Proof.
  intros He. unfold fan_node.
  destruct (Nat.eqb_spec e 0); [lia|]. destruct (Nat.eqb_spec e 1); [lia|].
  destruct (Nat.ltb_spec e 4); [lia|]. destruct (Nat.ltb_spec e (4 + N)); [lia|].
  destruct (Nat.ltb_spec e (4 + 2 * N)); [lia|]. reflexivity.
Qed.

Lemma fan_cases e :
  e = 0%nat \/ e = 1%nat \/ e = 2%nat \/ e = 3%nat \/
  (4 <= e < 4 + N)%nat \/ (4 + N <= e < 4 + 2 * N)%nat \/ (4 + 2 * N <= e)%nat.
Proof. lia. Qed.

Lemma fan_id e : concept_id (fan_node N e) = pretty e.
Proof. unfold fan_node. repeat case_match; reflexivity. Qed.

(** The fan is a well-formed concept tree. *)
Lemma fan_wf : wf_tree (fan N).
Proof.
  split; change (root (fan N)) with 0%nat.
  - exists (fan_node N 0). rewrite fan_lookup by lia. split; reflexivity.
  - intros c n Hn Hp. apply fan_lookup_inv in Hn as [Hc ->].
    destruct (fan_cases c) as [->|[->|[->|[->|[H|[H|H]]]]]];
      try reflexivity; try discriminate.
    + rewrite fan_node_inner in Hp by exact H. discriminate.
    + rewrite fan_node_near in Hp by exact H. discriminate.
    + rewrite fan_node_far in Hp by exact H. discriminate.
  - intros a na c Ha Hin. apply fan_lookup_inv in Ha as [Ha ->].
    destruct (fan_cases a) as [->|[->|[->|[->|[H|[H|H]]]]]].
    + change (children (fan_node N 0)) with (1%nat :: seq 4 N) in Hin.
      apply elem_of_cons in Hin as [->|Hin].
      * exists (fan_node N 1). rewrite fan_lookup by lia. split; [reflexivity|].
        left. reflexivity.
      * apply elem_of_seq in Hin.
        exists (fan_node N c). rewrite fan_lookup by lia. split; [reflexivity|].
        rewrite fan_node_inner by lia. left. reflexivity.
    + change (children (fan_node N 1)) with [2; 3]%nat in Hin.
      rewrite !elem_of_cons in Hin. destruct Hin as [->|[->|Hin]]; [| |inversion Hin].
      * exists (fan_node N 2). rewrite fan_lookup by lia. split; [reflexivity|].
        left. reflexivity.
      * exists (fan_node N 3). rewrite fan_lookup by lia. split; [reflexivity|].
        left. reflexivity.
    + inversion Hin.
    + inversion Hin.
    + rewrite fan_node_inner in Hin by exact H. cbn [children] in Hin.
      rewrite !elem_of_cons in Hin. destruct Hin as [->|[->|Hin]]; [| |inversion Hin].
      * exists (fan_node N (a + N)). rewrite fan_lookup by lia. split; [reflexivity|].
        rewrite fan_node_near by lia. left. cbn [parent]. f_equal. lia.
      * exists (fan_node N (a + 2 * N)). rewrite fan_lookup by lia. split; [reflexivity|].
        rewrite fan_node_far by lia. left. cbn [parent]. f_equal. lia.
    + rewrite fan_node_near in Hin by exact H. inversion Hin.
    + rewrite fan_node_far in Hin by exact H. inversion Hin.
  - intros a b na nb Ha Hb Hid.
    apply fan_lookup_inv in Ha as [_ ->]. apply fan_lookup_inv in Hb as [_ ->].
    rewrite !fan_id in Hid. apply (inj pretty). exact Hid.
Qed.

Lemma fan_inv_init : fan_inv N 0 (fan N).
Proof.
  split.
  - apply fan_wf.
  - reflexivity.
  - exists (fan_node N 0), []. rewrite fan_lookup by lia.
    rewrite Nat.sub_0_r, app_nil_r. repeat split; constructor.
  - exists (fan_node N 1). rewrite fan_lookup by lia. repeat split.
  - exists (fan_node N 2). rewrite fan_lookup by lia. repeat split.
  - exists (fan_node N 3). rewrite fan_lookup by lia. repeat split.
  - intros e He. exists (fan_node N e). rewrite fan_lookup by lia.
    split; [reflexivity|]. rewrite fan_node_inner by lia. reflexivity.
  - intros e He. exists (fan_node N e). rewrite fan_lookup by lia.
    split; [reflexivity|].
    destruct (le_lt_dec (4 + 2 * N) e).
    + rewrite fan_node_far by lia. reflexivity.
    + rewrite fan_node_near by lia. reflexivity.
Qed.

(** Every tree of the run has something to split: node 1 at least. *)
Lemma fan_some j t :
  fan_inv N j t ->
  exists cus g i c, split_cus (Ops := fan_ops) t = Ok cus /\ last cus = Some (g, i, c).
Proof.
  intros Hinv. destruct (split_cus_total (Ops := fan_ops) t (fi_wf _ _ _ Hinv)) as [cus Hcus].
  exists cus. destruct (last cus) as [[[g i] c]|] eqn:Hlast; [eauto|].
  exfalso. destruct (split_cus_none (Ops := fan_ops) _ _ Hcus Hlast) as (r & Hr & Hall).
  destruct (fi_children _ _ _ Hinv) as (rn & ls & Hrn & _ & Hch & _).
  destruct (fi_one _ _ _ Hinv) as (n1 & Hn1 & _ & Hch1 & _).
  rewrite (fi_root _ _ _ Hinv), Hrn in Hr. injection Hr as <-.
  assert (H : children n1 = []).
  { apply (Hall 0%nat 1%nat n1); [rewrite Hch; reflexivity|exact Hn1]. }
  rewrite Hch1 in H. discriminate.
Qed.

(** While inner nodes are left under the root, the one with the greatest
    number, the last of them in the root's child list, is selected: all of
    them have gain 1, node 1 has gain 0. *)
Lemma fan_select j t cus g i c :
  fan_inv N j t -> (j < N)%nat ->
  split_cus (Ops := fan_ops) t = Ok cus -> last cus = Some (g, i, c) ->
  c = (3 + (N - j))%nat.
Proof.
  intros Hinv Hj Hcus Hlast.
  destruct (split_cus_last (Ops := fan_ops) fan_score_order _ _ _ _ _ Hcus Hlast)
    as (r & nc & Hr & Hi & Hnc & Hch & Hg & Hmax).
  destruct (fi_children _ _ _ Hinv) as (rn & ls & Hrn & _ & Hchr & Hls).
  rewrite (fi_root _ _ _ Hinv), Hrn in Hr. injection Hr as <-.
  destruct (N - j)%nat as [|m] eqn:Hm; [lia|].
  destruct (fi_inner _ _ _ Hinv (4 + m)%nat) as (ne & Hne & Hche); [lia|].
  assert (Hpos : children rn !! S m = Some (4 + m)%nat).
  { rewrite Hchr. change ((seq 4 (S m) ++ ls) !! m = Some (4 + m)%nat).
    rewrite lookup_app_l by (rewrite length_seq; lia).
    apply lookup_seq_lt. lia. }
  destruct (Hmax (S m) (4 + m)%nat ne Hpos Hne) as [Hlt|[Heq Hle]].
  { rewrite Hche. discriminate. }
  { exfalso. subst g. revert Hlt. unfold gain. cbn.
    destruct (c =? 1)%nat; discriminate. }
  destruct i as [|i]; [lia|].
  rewrite Hchr in Hi. change ((seq 4 (S m) ++ ls) !! i = Some c) in Hi.
  destruct (decide (i = m)) as [->|Hne'].
  - rewrite lookup_app_l in Hi by (rewrite length_seq; lia).
    apply lookup_seq in Hi as [-> _]. lia.
  - exfalso. rewrite lookup_app_r in Hi by (rewrite length_seq; lia).
    apply list_elem_of_lookup_2 in Hi.
    rewrite Forall_forall in Hls. apply Hls in Hi.
    destruct (fi_leaf _ _ _ Hinv c Hi) as (nl & Hnl & Hchl). congruence.
Qed.

Lemma fan_select_end t cus g i c :
  fan_inv N N t ->
  split_cus (Ops := fan_ops) t = Ok cus -> last cus = Some (g, i, c) ->
  c = 1%nat.
Proof.
  intros Hinv Hcus Hlast.
  destruct (split_cus_last_in (Ops := fan_ops) _ _ _ _ _ Hcus Hlast)
    as (r & nc & Hr & Hin & Hnc & Hch).
  destruct (fi_children _ _ _ Hinv) as (rn & ls & Hrn & _ & Hchr & Hls).
  rewrite (fi_root _ _ _ Hinv), Hrn in Hr. injection Hr as <-.
  rewrite Hchr, Nat.sub_diag in Hin. cbn [seq app] in Hin.
  apply elem_of_cons in Hin as [->|Hin]; [reflexivity|].
  exfalso. rewrite Forall_forall in Hls. apply Hls in Hin.
  destruct (fi_leaf _ _ _ Hinv c Hin) as (nl & Hnl & Hchl). congruence.
Qed.

Lemma fan_split_cus j t :
  fan_inv N j t -> (j < N)%nat ->
  exists cus g i,
    split_cus (Ops := fan_ops) t = Ok cus /\ last cus = Some (g, i, (3 + (N - j))%nat).
Proof.
  intros Hinv Hj. destruct (fan_some j t Hinv) as (cus & g & i & c & Hcus & Hlast).
  exists cus, g, i. split; [exact Hcus|].
  rewrite <- (fan_select _ _ _ _ _ _ Hinv Hj Hcus Hlast). exact Hlast.
Qed.

Lemma fan_split_cus_end t :
  fan_inv N N t ->
  exists cus g i, split_cus (Ops := fan_ops) t = Ok cus /\ last cus = Some (g, i, 1%nat).
Proof.
  intros Hinv. destruct (fan_some N t Hinv) as (cus & g & i & c & Hcus & Hlast).
  exists cus, g, i. split; [exact Hcus|].
  rewrite <- (fan_select_end _ _ _ _ _ Hinv Hcus Hlast). exact Hlast.
Qed.

Lemma fan_split_step j t :
  fan_inv N j t -> (j < N)%nat ->
  exists t', split t (3 + (N - j))%nat = Ok t' /\ fan_inv N (S j) t'.
Proof.
  intros Hinv Hj.
  pose proof (fi_root _ _ _ Hinv) as Hroot.
  destruct (fi_children _ _ _ Hinv) as (rn & ls & Hrn & Hrp & Hch & Hls).
  assert (Hm : (N - j = S (N - S j))%nat) by lia.
  remember (N - S j)%nat as m eqn:Hmdef.
  replace (3 + (N - j))%nat with (4 + m)%nat by lia.
  destruct (fi_inner _ _ _ Hinv (4 + m)%nat) as (ne & Hne & Hche); [lia|].
  destruct (split_total t (4 + m)%nat rn ne) as [t' Hs]; [congruence|exact Hne|].
  exists t'. split; [exact Hs|].
  destruct (split_inv _ _ _ Hs) as (r0 & b0 & Hr0 & Hb0 & Hroot' & Hl).
  rewrite Hroot in Hr0. assert (r0 = rn) by congruence. assert (b0 = ne) by congruence.
  subst r0 b0.
  assert (Hkeep : forall c n, nodes t !! c = Some n -> c <> 0%nat ->
            (c < 4 + N)%nat ->
            exists n', nodes t' !! c = Some n' /\ children n' = children n /\
                       concept_id n' = concept_id n /\ parent n' = parent n).
  { intros c n Hn Hc0 Hc.
    destruct (split_keeps t t' _ rn ne c n Hl Hn) as (n' & Hn' & Hc' & Hi' & Hp');
      [congruence|].
    exists n'. repeat split; try assumption. rewrite Hp', Hche.
    apply decide_False. rewrite !elem_of_cons. intros [->|[->|H]]; [lia|lia|inversion H]. }
  assert (Hkeepc : forall c n, nodes t !! c = Some n -> c <> 0%nat ->
            exists n', nodes t' !! c = Some n' /\ children n' = children n).
  { intros c n Hn Hc0.
    destruct (split_keeps t t' _ rn ne c n Hl Hn) as (n' & Hn' & Hc' & _); [congruence|].
    eauto. }
  split.
  - eapply split_wf; [exact (fi_wf _ _ _ Hinv)|exact Hs].
  - congruence.
  - exists (split_node t rn ne (4 + m)%nat 0%nat rn),
      (ls ++ [(4 + m + N)%nat; (4 + m + 2 * N)%nat]).
    rewrite Hl, Hrn. split; [reflexivity|]. split; [|split].
    + rewrite split_node_parent, Hche, decide_False; [exact Hrp|].
      rewrite !elem_of_cons. intros [H|[H|H]]; [lia|lia|inversion H].
    + rewrite split_node_children, Hroot, decide_True by reflexivity.
      rewrite Hch, Hche, Hm, seq_S, <- Hmdef. cbn [remove_first].
      rewrite decide_False by lia.
      rewrite <- (app_assoc (seq 4 m)). cbn [app].
      rewrite remove_first_middle.
      * rewrite <- app_assoc. reflexivity.
      * rewrite elem_of_seq. lia.
    + apply Forall_app. split; [exact Hls|].
      apply Forall_cons. split; [lia|]. apply Forall_singleton. lia.
  - destruct (fi_one _ _ _ Hinv) as (n1 & Hn1 & Hp1 & Hc1 & Hi1).
    destruct (Hkeep 1%nat n1 Hn1) as (n' & Hn' & Hc' & Hi' & Hp'); [lia|lia|].
    exists n'. repeat split; congruence.
  - destruct (fi_two _ _ _ Hinv) as (n2 & Hn2 & Hp2 & Hc2 & Hi2).
    destruct (Hkeep 2%nat n2 Hn2) as (n' & Hn' & Hc' & Hi' & Hp'); [lia|lia|].
    exists n'. repeat split; congruence.
  - destruct (fi_three _ _ _ Hinv) as (n3 & Hn3 & Hc3).
    destruct (Hkeepc 3%nat n3 Hn3) as (n' & Hn' & Hc'); [lia|].
    exists n'. split; congruence.
  - intros e He. destruct (fi_inner _ _ _ Hinv e) as (n & Hn & Hc); [lia|].
    destruct (Hkeepc _ n Hn) as (n' & Hn' & Hc'); [lia|].
    exists n'. split; congruence.
  - intros e He. destruct (fi_leaf _ _ _ Hinv e He) as (n & Hn & Hc).
    destruct (Hkeepc _ n Hn) as (n' & Hn' & Hc'); [lia|].
    exists n'. split; congruence.
Qed.

Lemma fan_label j t :
  fan_inv N j t -> clusters_of t [2%nat] = Ok ["Concept" +:+ pretty 1%nat].
Proof.
  intros Hinv.
  destruct (fi_children _ _ _ Hinv) as (rn & ls & Hrn & Hrp & _).
  destruct (fi_one _ _ _ Hinv) as (n1 & Hn1 & Hp1 & _ & Hi1).
  destruct (fi_two _ _ _ Hinv) as (n2 & Hn2 & Hp2 & _).
  pose proof (size_ge_2 _ _ _ _ _ Hrn Hn1) as Hsize.
  unfold clusters_of. cbn [res_mapM].
  destruct (size (nodes t)) as [|[|f]]; [lia|lia|].
  cbn [climb]. rewrite Hn2, Hp2, Hn1, Hp1, Hrn, Hrp.
  cbn [mbind res_bind]. unfold label_of. rewrite Hn1, Hi1. reflexivity.
Qed.

(** The last split, of node 1, puts node 2 under the root and leaves nothing
    to split. *)
Lemma fan_split_final t :
  fan_inv N N t ->
  exists t', split t 1%nat = Ok t' /\
    split_cus (Ops := fan_ops) t' = Ok [] /\
    clusters_of t' [2%nat] = Ok ["Concept" +:+ pretty 2%nat].
Proof.
  intros Hinv.
  pose proof (fi_root _ _ _ Hinv) as Hroot.
  destruct (fi_children _ _ _ Hinv) as (rn & ls & Hrn & Hrp & Hch & Hls).
  rewrite Nat.sub_diag in Hch. cbn [seq app] in Hch.
  destruct (fi_one _ _ _ Hinv) as (n1 & Hn1 & Hp1 & Hc1 & Hi1).
  destruct (fi_two _ _ _ Hinv) as (n2 & Hn2 & Hp2 & Hc2 & Hi2).
  destruct (fi_three _ _ _ Hinv) as (n3 & Hn3 & Hc3).
  destruct (split_total t 1%nat rn n1) as [t' Hs]; [congruence|exact Hn1|].
  exists t'. split; [exact Hs|].
  destruct (split_inv _ _ _ Hs) as (r0 & b0 & Hr0 & Hb0 & Hroot' & Hl).
  rewrite Hroot in Hr0. assert (r0 = rn) by congruence. assert (b0 = n1) by congruence.
  subst r0 b0.
  assert (Hkeepc : forall c n, nodes t !! c = Some n -> c <> 0%nat ->
            exists n', nodes t' !! c = Some n' /\ children n' = children n).
  { intros c n Hn Hc0.
    destruct (split_keeps t t' _ rn n1 c n Hl Hn) as (n' & Hn' & Hc' & _); [congruence|].
    eauto. }
  assert (Hrn' : nodes t' !! 0%nat = Some (split_node t rn n1 1%nat 0%nat rn))
    by (rewrite Hl, Hrn; reflexivity).
  split.
  - unfold split_cus. rewrite Hroot', Hroot, Hrn'.
    rewrite split_node_children, Hroot, decide_True by reflexivity.
    rewrite Hch, Hc1. cbn [remove_first]. rewrite decide_True by reflexivity.
    rewrite <- (app_nil_r (ls ++ [2; 3]%nat)).
    rewrite candidates_childless; [reflexivity|].
    apply Forall_app. split.
    + eapply Forall_impl; [exact Hls|]. intros l Hb. cbv beta in Hb.
      destruct (fi_leaf _ _ _ Hinv l Hb) as (nl & Hnl & Hcl).
      destruct (Hkeepc l nl Hnl) as (n' & Hn' & Hc'); [lia|].
      exists n'. split; [exact Hn'|congruence].
    + apply Forall_cons. split; [|apply Forall_singleton].
      * destruct (Hkeepc _ n2 Hn2) as (n' & Hn' & Hc'); [lia|].
        exists n'. split; [exact Hn'|congruence].
      * destruct (Hkeepc _ n3 Hn3) as (n' & Hn' & Hc'); [lia|].
        exists n'. split; [exact Hn'|congruence].
  - destruct (split_keeps t t' _ rn n1 2%nat n2 Hl Hn2) as (n2' & Hn2' & _ & Hi2' & Hp2');
      [congruence|].
    rewrite Hc1, decide_True, Hroot in Hp2'
      by (apply list_elem_of_here).
    unfold clusters_of. cbn [res_mapM].
    destruct (size (nodes t')) as [|f] eqn:Hsz.
    { exfalso. eapply (map_size_ne_0_lookup_2 (nodes t') 0%nat); eauto. }
    cbn [climb]. rewrite Hn2', Hp2', Hrn'.
    rewrite split_node_parent, Hc1, decide_False, Hrp.
    2:{ rewrite !elem_of_cons. intros [H|[H|H]]; [discriminate|discriminate|inversion H]. }
    cbn [mbind res_bind]. unfold label_of. rewrite Hn2', Hi2', Hi2. reflexivity.
Qed.

Lemma fan_outs_step j rem :
  (j < N)%nat ->
  fan_outs N j (S (S rem)) = ["Concept" +:+ pretty 1%nat] :: fan_outs N (S j) (S rem).
Proof. intros H. cbn [fan_outs]. rewrite decide_True by exact H. reflexivity. Qed.

Lemma fan_outs_end j rem :
  ~ (j < N)%nat -> fan_outs N j (S (S rem)) = [["Concept" +:+ pretty 2%nat]].
Proof. intros H. cbn [fan_outs]. rewrite decide_False by exact H. reflexivity. Qed.

Lemma fan_exhaust rem :
  forall j n t (w : gmap nat (Tree unit)) r fuel,
    w !! r = Some t -> fan_inv N j t -> (j <= N)%nat -> 1 <= n -> (rem < fuel)%nat ->
    (exhaust (Ops := fan_ops) fuel w (GSuspended (mkFrame r [2%nat] 1 n rem))).2 =
    Ok (fan_outs N j rem).
Proof.
  induction rem as [|rem IH]; intros j n t w r fuel Hw Hinv Hj Hn Hfuel;
    (destruct fuel as [|fuel]; [lia|]);
    cbn [exhaust gen_next fr_tree fr_temp fr_minsplit fr_rem fr_nth];
    unfold run_loop; rewrite Hw.
  - reflexivity.
  - cbn [for_loop negb andb].
    destruct (decide (j < N)%nat) as [Hlt|Hge].
    + destruct (fan_split_cus j t Hinv Hlt) as (cus & g & i & -> & ->).
      destruct (fan_split_step j t Hinv Hlt) as (t' & -> & Hinv').
      destruct rem as [|rem]; [reflexivity|].
      cbn [for_loop negb andb]. rewrite (proj2 (Z.geb_le (n + 1) 1)) by lia.
      rewrite (fan_label _ _ Hinv').
      specialize (IH (S j) (n + 1) t' (<[r := t']> w) r fuel).
      destruct (exhaust fuel (<[r := t']> w) _) as [w2 r2] eqn:He.
      cbn [snd] in *. rewrite IH; [|apply lookup_insert_eq|exact Hinv'|lia|lia|lia].
      rewrite fan_outs_step by exact Hlt. reflexivity.
    + assert (j = N) by lia. subst j.
      destruct (fan_split_cus_end t Hinv) as (cus & g & i & -> & ->).
      destruct (fan_split_final t Hinv) as (t' & -> & Hcus & Hlab).
      destruct rem as [|rem]; [reflexivity|].
      cbn [for_loop negb andb]. rewrite (proj2 (Z.geb_le (n + 1) 1)) by lia.
      rewrite Hlab.
      destruct fuel as [|fuel]; [lia|].
      cbn [exhaust gen_next fr_tree fr_temp fr_minsplit fr_rem fr_nth].
      unfold run_loop. rewrite lookup_insert_eq.
      cbn [for_loop negb andb]. rewrite Hcus. cbn [last snd mbind res_bind].
      rewrite fan_outs_end by exact Hge. reflexivity.
Qed.

(** The whole sequence [cluster] returns for the instance on node 2. *)
Lemma fan_cluster Ms :
  1 <= Ms ->
  (cluster (Ops := fan_ops) (fan_store N) 0%nat [2%nat] 1 Ms false).2 =
  Ok (["Concept" +:+ pretty 1%nat] :: fan_outs N 0 (Z.to_nat Ms)).
Proof.
  intros HMs. unfold cluster, cluster_iter. cbn [gen_fuel].
  remember (S (Z.to_nat Ms)) as fuel eqn:Hfuel. cbn [exhaust gen_next].
  change (1 <? 1) with false. cbv iota.
  rewrite Z.gtb_ltb, (proj2 (Z.ltb_ge Ms 1)) by lia.
  unfold deepcopy, fan_store. rewrite lookup_singleton_eq.
  unfold fit_all. rewrite lookup_insert_eq. cbn [insert_all categorize fan_ops].
  unfold run_loop. rewrite lookup_insert_eq.
  destruct (Z.to_nat Ms) as [|m] eqn:Hm; [lia|].
  cbn [for_loop negb andb]. change (1 >=? 1) with true. cbv iota.
  rewrite (fan_label 0 _ fan_inv_init).
  match goal with
  | |- context [exhaust ?f ?w ?g] =>
      pose proof (fan_exhaust (S m) 0 1 (fan N) w _ f
                    (lookup_insert_eq _ _ _) fan_inv_init) as He;
      destruct (exhaust f w g) as [w2 r2]
  end.
  cbn [snd] in *. rewrite He by lia. reflexivity.
Qed.

Lemma fan_outs_closed j rem :
  (j <= N)%nat ->
  fan_outs N j rem =
  replicate (Nat.min (rem - 1) (N - j)) ["Concept" +:+ pretty 1%nat] ++
  (if decide (N - j < rem - 1)%nat then [["Concept" +:+ pretty 2%nat]] else []).
Proof.
  revert j. induction rem as [|rem IH]; intros j Hj; [reflexivity|].
  destruct rem as [|rem].
  - cbn [fan_outs]. rewrite decide_False by lia. reflexivity.
  - destruct (decide (j < N)%nat) as [Hlt|Hge];
      [rewrite fan_outs_step by exact Hlt|rewrite fan_outs_end by exact Hge].
    + rewrite IH by lia.
      replace (Nat.min (S (S rem) - 1) (N - j)) with (S (Nat.min (S rem - 1) (N - S j)))
        by lia.
      cbn [replicate app]. do 2 f_equal.
      destruct (decide (N - S j < S rem - 1)%nat), (decide (N - j < S (S rem) - 1)%nat);
        try reflexivity; lia.
    + replace (Nat.min (S (S rem) - 1) (N - j)) with 0%nat by lia.
      rewrite decide_True by lia. reflexivity.
Qed.

(** With a cap of [N + 1] the sequence is [N + 1] times the label of node 1;
    with any greater cap it goes on to the label of node 2 and ends there. *)
Lemma fan_cluster_at :
  (cluster (Ops := fan_ops) (fan_store N) 0%nat [2%nat] 1 (Z.of_nat N + 1) false).2 =
  Ok (replicate (S N) ["Concept" +:+ pretty 1%nat]).
Proof.
  rewrite fan_cluster by lia. rewrite fan_outs_closed by lia.
  replace (Nat.min (Z.to_nat (Z.of_nat N + 1) - 1) (N - 0)) with N by lia.
  rewrite decide_False by lia. rewrite app_nil_r. reflexivity.
Qed.

Lemma fan_cluster_beyond Ms :
  Z.of_nat N + 1 < Ms ->
  (cluster (Ops := fan_ops) (fan_store N) 0%nat [2%nat] 1 Ms false).2 =
  Ok (replicate (S N) ["Concept" +:+ pretty 1%nat] ++ [["Concept" +:+ pretty 2%nat]]).
Proof.
  intros HMs. rewrite fan_cluster by lia. rewrite fan_outs_closed by lia.
  replace (Nat.min (Z.to_nat Ms - 1) (N - 0)) with N by lia.
  rewrite decide_True by lia. reflexivity.
Qed.

Lemma fan_root_label :
  label_of (fan N) (root (fan N)) = Ok ("Concept" +:+ pretty 0%nat).
Proof.
  unfold label_of. cbn [root fan]. fold (fan N). rewrite fan_lookup by lia. reflexivity.
Qed.

(** Where the default [maxsplit] is [N + 1], [k_cluster] with [k = 2]
    returns the label of node 1. *)
Lemma fan_k_cluster :
  default_maxsplit = Z.of_nat N + 1 ->
  (k_cluster (Ops := fan_ops) (fan_store N) 0%nat [2%nat] 2 false).2 =
  Ok ["Concept" +:+ pretty 1%nat].
Proof.
  intros Hcap. pose proof fan_cluster_at as Hc. rewrite <- Hcap in Hc.
  unfold cluster in Hc.
  destruct (exhaust _ _ _) as [w' r] eqn:He in Hc. cbn [snd] in Hc. subst r.
  unfold k_cluster. change (2 <? 2) with false. cbv iota.
  unfold fan_store at 1. rewrite lookup_singleton_eq.
  rewrite (res_mapM_const _ _ _ fan_root_label).
  rewrite (k_loop_exhaust _ _ _ _ _ _ _ He).
  rewrite bounded_k_replicate_all; [reflexivity| |lia].
  assert (distinct ["Concept" +:+ pretty 1%nat] = 1%nat) as -> by (vm_compute; reflexivity).
  lia.
Qed.

(** No node of the fan is more than two parent links away from the root:
    the ancestor walk from any node is over within three nodes. *)
Lemma fan_shallow e :
  (e < 3 * N + 4)%nat -> exists k, chain (fan N) e k /\ (k <= 3)%nat.
Proof.
  intros He.
  assert (H0 : chain (fan N) 0 1).
  { eapply chain_top; [apply fan_lookup; lia|reflexivity]. }
  assert (H1 : chain (fan N) 1 2).
  { eapply chain_up; [apply fan_lookup; lia|reflexivity|exact H0]. }
  assert (Hin : forall a, (4 <= a < 4 + N)%nat -> chain (fan N) a 2).
  { intros a Ha. eapply chain_up; [apply fan_lookup; lia| |exact H0].
    rewrite fan_node_inner by lia. reflexivity. }
  destruct (fan_cases e) as [->|[->|[->|[->|[H|[H|H]]]]]].
  - exists 1%nat. split; [exact H0|lia].
  - exists 2%nat. split; [exact H1|lia].
  - exists 3%nat. split; [|lia].
    eapply chain_up; [apply fan_lookup; lia|reflexivity|exact H1].
  - exists 3%nat. split; [|lia].
    eapply chain_up; [apply fan_lookup; lia|reflexivity|exact H1].
  - exists 2%nat. split; [apply Hin, H|lia].
  - exists 3%nat. split; [|lia].
    eapply chain_up; [apply fan_lookup; lia| |apply (Hin (e - N)%nat); lia].
    rewrite fan_node_near by lia. reflexivity.
  - exists 3%nat. split; [|lia].
    eapply chain_up; [apply fan_lookup; lia| |apply (Hin (e - 2 * N)%nat); lia].
    rewrite fan_node_far by lia. reflexivity.
Qed.

End Fan.

Lemma bounded_k_fan n :
  (1 <= n)%nat ->
  bounded_k 2 ["Concept0"] (replicate n ["Concept1"] ++ [["Concept2"]]) = ["Concept2"].
Proof.
  intros Hn. rewrite bounded_k_replicate; [reflexivity| |exact Hn].
  assert (distinct ["Concept1"] = 1%nat) as -> by (vm_compute; reflexivity). lia.
Qed.

Lemma wide_succ : Z.to_nat default_maxsplit = S wide.
Proof. unfold wide, default_maxsplit. lia. Qed.

Lemma wide_cap : default_maxsplit = Z.of_nat wide + 1.
Proof. unfold wide, default_maxsplit. lia. Qed.

(** The wide fan (a well-formed tree, every node within two parent links of
    the root), one instance on node 2, [k = 2].  Whatever cap above 100000
    [cluster_iter] is given, the split sequence has 100001 clusterings, each
    of one label, and ends with ["Concept2"]: the tree is exhausted and [k]
    was never exceeded, so the selection rule gives ["Concept2"] on it.
    [k_cluster] returns ["Concept1"], the 100000th clustering, where its
    generator stops. *)
Lemma k_cluster_is_capped :
  wf_tree (fan wide) /\
  (forall e, is_Some (nodes (fan wide) !! e) ->
             exists k, chain (fan wide) e k /\ (k <= 3)%nat) /\
  (forall Ms, default_maxsplit < Ms ->
     (cluster (Ops := fan_ops) (fan_store wide) 0%nat [2%nat] 1 Ms false).2 =
     Ok (replicate (Z.to_nat default_maxsplit) ["Concept1"] ++ [["Concept2"]])) /\
  Forall (fun c => Z.of_nat (distinct c) <= 2)
    (replicate (Z.to_nat default_maxsplit) ["Concept1"] ++ [["Concept2"]]) /\
  bounded_k 2 ["Concept0"]
    (replicate (Z.to_nat default_maxsplit) ["Concept1"] ++ [["Concept2"]]) =
  ["Concept2"] /\
  (k_cluster (Ops := fan_ops) (fan_store wide) 0%nat [2%nat] 2 false).2 =
  Ok ["Concept1"].
Proof.
  assert (E1 : "Concept" +:+ pretty 1%nat = "Concept1") by reflexivity.
  assert (E2 : "Concept" +:+ pretty 2%nat = "Concept2") by reflexivity.
  assert (D1 : distinct ["Concept1"] = 1%nat) by (vm_compute; reflexivity).
  assert (D2 : distinct ["Concept2"] = 1%nat) by (vm_compute; reflexivity).
  split; [apply fan_wf|]. split; [|split; [|split; [|split]]].
  - intros e [n Hn]. apply fan_lookup_inv in Hn as [He _]. apply fan_shallow, He.
  - intros Ms HMs. rewrite wide_succ, <- E1, <- E2.
    apply fan_cluster_beyond. rewrite <- wide_cap. exact HMs.
  - apply Forall_app. split.
    + apply Forall_replicate. rewrite D1. lia.
    + apply Forall_singleton. rewrite D2. lia.
  - apply bounded_k_fan. rewrite wide_succ. lia.
  - rewrite <- E1. apply fan_k_cluster. apply wide_cap.
Qed.

(** ** The functions on the small tree *)

Example toy_cluster :
  (cluster (Ops := toy_ops) toy_store 5%nat toy_instances 1 10 false).2 =
  Ok [toy_cut0; toy_cut1; toy_cut2; toy_cut3].
Proof. vm_compute. reflexivity. Qed.

Example toy_cluster_exhausted :
  (cluster (Ops := toy_ops) toy_store 5%nat toy_instances 5 5 false).2 = Ok [].
Proof. vm_compute. reflexivity. Qed.

Example toy_k_cluster_fewer :
  (k_cluster (Ops := toy_ops) toy_store 5%nat toy_instances 10 false).2 = Ok toy_cut3 /\
  distinct toy_cut3 = 5%nat.
Proof. split; vm_compute; reflexivity. Qed.

Example toy_depth_labels :
  (depth_labels (Ops := toy_ops) toy_store 5%nat toy_instances true).2 =
  Ok [["Conceptr"; "Conceptr"; "Conceptr"; "Conceptr"; "Conceptr"];
      toy_cut0; toy_cut2; toy_cut3].
Proof. vm_compute. reflexivity. Qed.

(** With [minsplit = 0] the call gives a generator; the ValueError is the
    answer to its first [next]. *)
Lemma cluster_iter_invalid_call_returns :
  exists g : gen (Instance := nat),
    cluster_iter 5%nat toy_instances 0 5 false = g /\
    g = GCreated 5%nat toy_instances 0 5 false /\
    gen_next (Ops := toy_ops) toy_store g =
    (toy_store, GClosed, Raised (ValueError "minsplit must be >= 1")).
Proof. eexists. split; [reflexivity|]. split; reflexivity. Qed.

Lemma invalid_arguments_rejected_witness :
  (exists msg,
     gen_next (Ops := toy_ops) toy_store (cluster_iter 5%nat toy_instances 3 2 true) =
     (toy_store, GClosed, Raised (ValueError msg)) /\
     cluster (Ops := toy_ops) toy_store 5%nat toy_instances 3 2 true =
     (toy_store, Raise (ValueError msg))) /\
  (exists msg,
     k_cluster (Ops := toy_ops) toy_store 5%nat toy_instances 1 true =
     (toy_store, Raise (ValueError msg))).
Proof.
  destruct (invalid_arguments_rejected (Ops := toy_ops) toy_store 5%nat toy_instances
              3 2 1 true) as [H1 H2].
  split; [apply H1; lia|apply H2; lia].
Defined.

Lemma k_cluster_selects_witness :
  (k_cluster (Ops := toy_ops) toy_store 5%nat toy_instances 3 false).2 =
  Ok (bounded_k 3 (map (fun _ => "Conceptr") toy_instances)
        [toy_cut0; toy_cut1; toy_cut2; toy_cut3]).
Proof.
  eapply (k_cluster_selects (Ops := toy_ops) toy_store 5%nat toy_instances 3 false toy_tree).
  - lia.
  - reflexivity.
  - vm_compute. reflexivity.
  - vm_compute. reflexivity.
Defined.

Lemma cluster_iter_keeps_tree_witness :
  (cluster (Ops := toy_ops) (cluster (Ops := toy_ops) toy_store 5%nat toy_instances 1 10 false).1
     5%nat toy_instances 1 10 false).2 =
  (cluster (Ops := toy_ops) toy_store 5%nat toy_instances 1 10 false).2.
Proof.
  apply (proj2 (cluster_iter_keeps_tree (Ops := toy_ops) toy_store 5%nat toy_instances
                  1 10 false)).
  apply surjective_pairing.
Defined.

(** * Further properties *)

(** ** [cluster] as one loop *)

Section WholeFacts.
Context {Stats Instance Score : Type} `{Ops : TreeOps Stats Instance Score}.

Lemma exhaust_finish fuel (w : gmap nat (Tree Stats)) (g : gen (Instance := Instance)) :
  (exhaust (S fuel) w g).2 = finish fuel (gen_next w g).
Proof.
  cbn [exhaust]. destruct (gen_next w g) as [[w1 g1] [c| |e]]; cbn [finish]; try reflexivity.
  destruct (exhaust fuel w1 g1) as [w2 r]. reflexivity.
Qed.

Lemma splits_seq_S ms temp rem n (t : Tree Stats) :
  splits_seq ms temp (S rem) n t =
  if n >=? ms then
    clusters ← clusters_of t temp;
    cs ← splits_rest ms temp (S rem) n t; Ok (clusters :: cs)
  else splits_rest ms temp (S rem) n t.
Proof. reflexivity. Qed.

(** The loop only sees its own tree object, which it writes back. *)
Lemma run_loop_step (w : gmap nat (Tree Stats)) r temp ms rem resumed n t
    rem' resumed' n' t' :
  w !! r = Some t ->
  for_loop ms temp rem resumed n t = for_loop ms temp rem' resumed' n' t' ->
  run_loop (Instance := Instance) w r temp ms rem resumed n =
  run_loop (<[r := t']> w) r temp ms rem' resumed' n'.
Proof.
  intros Hw Hf. unfold run_loop. rewrite Hw, lookup_insert_eq, Hf.
  destruct (for_loop ms temp rem' resumed' n' t') as [t'' out].
  rewrite insert_insert_eq. reflexivity.
Qed.

(** The [next] calls of the comprehension, one after the other, are the loop
    of lines 54-76 run in one go. *)
Lemma run_loop_splits temp ms rem :
  (forall fuel (w : gmap nat (Tree Stats)) r n t,
     (rem <= fuel)%nat -> w !! r = Some t ->
     finish (Instance := Instance) fuel (run_loop w r temp ms rem true n) =
     splits_rest ms temp rem n t) /\
  (forall fuel (w : gmap nat (Tree Stats)) r n t,
     (S rem <= fuel)%nat -> w !! r = Some t ->
     finish (Instance := Instance) fuel (run_loop w r temp ms rem false n) =
     splits_seq ms temp rem n t).
Proof.
  induction rem as [|rem [IHt IHf]].
  - split; intros fuel w r n t _ Hw; unfold run_loop; rewrite Hw; reflexivity.
  - assert (Ht : forall fuel (w : gmap nat (Tree Stats)) r n t,
              (S rem <= fuel)%nat -> w !! r = Some t ->
              finish (Instance := Instance) fuel (run_loop w r temp ms (S rem) true n) =
              splits_rest ms temp (S rem) n t).
    { intros fuel w r n t Hfuel Hw. cbn [splits_rest].
      destruct (split_cus t) as [cus|e] eqn:Hcus; cbn [mbind res_bind].
      2: { unfold run_loop. rewrite Hw. cbn [for_loop negb andb]. rewrite Hcus. reflexivity. }
      destruct (last cus) as [[[g i] c]|] eqn:Hlast.
      2: { unfold run_loop. rewrite Hw. cbn [for_loop negb andb].
           rewrite Hcus, Hlast. reflexivity. }
      destruct (split t c) as [t1|e] eqn:Hs; cbn [mbind res_bind].
      2: { unfold run_loop. rewrite Hw. cbn [for_loop negb andb].
           rewrite Hcus, Hlast, Hs. reflexivity. }
      rewrite (run_loop_step w r temp ms (S rem) true n t rem false (n + 1) t1 Hw).
      - apply IHf; [lia|apply lookup_insert_eq].
      - cbn [for_loop negb andb]. rewrite Hcus, Hlast, Hs. reflexivity. }
    split; [exact Ht|].
    intros fuel w r n t Hfuel Hw. destruct fuel as [|fuel]; [lia|].
    rewrite splits_seq_S. destruct (n >=? ms) eqn:Hge.
    + destruct (clusters_of t temp) as [c|e] eqn:Hc; cbn [mbind res_bind].
      * unfold run_loop at 1. rewrite Hw. cbn [for_loop negb andb]. rewrite Hge, Hc.
        cbn [finish]. rewrite exhaust_finish.
        cbn [gen_next fr_tree fr_temp fr_minsplit fr_rem fr_nth].
        rewrite (Ht fuel _ r n t); [reflexivity|lia|apply lookup_insert_eq].
      * unfold run_loop. rewrite Hw. cbn [for_loop negb andb]. rewrite Hge, Hc. reflexivity.
    + rewrite <- (Ht (S fuel) w r n t) by (lia || exact Hw).
      unfold run_loop. rewrite Hw. cbn [for_loop negb andb]. rewrite Hge. reflexivity.
Qed.

(** [cluster] with arguments that pass the checks: the loop on the copy with
    the instances in. *)
Lemma cluster_splits (w : gmap nat (Tree Stats)) tree (X : list Instance) ms Ms md t_in :
  1 <= ms <= Ms -> w !! tree = Some t_in ->
  (cluster w tree X ms Ms md).2 =
  splits_seq ms (insert_all md t_in X).2 (Z.to_nat Ms) 1 (insert_all md t_in X).1.
Proof.
  intros Hms Hw. unfold cluster, cluster_iter. cbn [gen_fuel]. rewrite exhaust_finish.
  cbn [gen_next].
  rewrite (proj2 (Z.ltb_ge ms 1)) by lia.
  rewrite Z.gtb_ltb, (proj2 (Z.ltb_ge Ms ms)) by lia.
  unfold deepcopy. rewrite Hw.
  destruct (fit_all_spec (<[fresh (dom w) := t_in]> w) (fresh (dom w)) X md t_in)
    as (w2 & -> & Hw2); [apply lookup_insert_eq|].
  apply (proj2 (run_loop_splits _ ms (Z.to_nat Ms))); [lia|exact Hw2].
Qed.

Lemma cluster_ok_args (w : gmap nat (Tree Stats)) tree (X : list Instance) ms Ms md w' cs :
  cluster w tree X ms Ms md = (w', Ok cs) ->
  1 <= ms <= Ms /\ exists t_in, w !! tree = Some t_in.
Proof.
  unfold cluster, cluster_iter. cbn [gen_fuel exhaust gen_next].
  destruct (Z.ltb_spec ms 1); [discriminate|].
  rewrite Z.gtb_ltb. destruct (Z.ltb_spec Ms ms); [discriminate|].
  unfold deepcopy. destruct (w !! tree) as [t_in|]; [|discriminate].
  intros _. split; [lia|eauto].
Qed.

Lemma splits_rest_inv ms temp rem n (t : Tree Stats) cs :
  splits_rest ms temp (S rem) n t = Ok cs ->
  (exists cus, split_cus t = Ok cus /\ last cus = None /\ cs = []) \/
  (exists t', split_step t t' /\ splits_seq ms temp rem (n + 1) t' = Ok cs).
Proof.
  cbn [splits_rest].
  destruct (split_cus t) as [cus|e] eqn:Hcus; cbn [mbind res_bind]; [|discriminate].
  destruct (last cus) as [[[g i] c]|] eqn:Hlast.
  - destruct (split t c) as [t1|e] eqn:Hs; cbn [mbind res_bind]; [|discriminate].
    intros H. right. exists t1. split; [econstructor; eassumption|exact H].
  - intros [= <-]. left. eauto.
Qed.

Lemma splits_rest_end ms temp rem n (t : Tree Stats) cus :
  split_cus t = Ok cus -> last cus = None ->
  splits_rest ms temp (S rem) n t = Ok [].
Proof. intros Hcus Hlast. cbn [splits_rest]. rewrite Hcus. cbn. rewrite Hlast. reflexivity. Qed.

Lemma splits_rest_step ms temp rem n (t t' : Tree Stats) :
  split_step t t' ->
  splits_rest ms temp (S rem) n t = splits_seq ms temp rem (n + 1) t'.
Proof.
  intros [cus g i c Hcus Hlast Hs]. cbn [splits_rest]. rewrite Hcus. cbn [mbind res_bind].
  rewrite Hlast, Hs. reflexivity.
Qed.

Lemma room_ge ms n rem : ms <= n -> room ms n rem = rem.
Proof. unfold room. lia. Qed.

Lemma room_lt ms n rem : n < ms -> room ms n (S rem) = room ms (n + 1) rem.
Proof. unfold room. lia. Qed.

(** A run with less of the range left gives the first clusterings of a run
    with more. *)
Lemma splits_seq_take ms temp rem d n (t : Tree Stats) cs :
  splits_seq ms temp (rem + d) n t = Ok cs ->
  splits_seq ms temp rem n t = Ok (take (room ms n rem) cs).
Proof.
  revert n t cs. induction rem as [|rem IH]; intros n t cs.
  - intros _. assert (room ms n 0 = 0%nat) as -> by (unfold room; lia). reflexivity.
  - change (S rem + d)%nat with (S (rem + d)). rewrite !splits_seq_S.
    destruct (Z.geb_spec n ms) as [Hge|Hlt].
    + rewrite (room_ge ms n) by lia.
      destruct (clusters_of t temp) as [c|e]; cbn [mbind res_bind]; [|discriminate].
      destruct (splits_rest ms temp (S (rem + d)) n t) as [cs0|e] eqn:Hrest;
        cbn [mbind res_bind]; [|discriminate].
      intros [= <-].
      apply splits_rest_inv in Hrest as [(cus & Hcus & Hlast & ->)|(t' & Hstep & Hseq)].
      * rewrite (splits_rest_end _ _ _ _ _ _ Hcus Hlast). cbn [mbind res_bind take].
        rewrite take_nil. reflexivity.
      * rewrite (splits_rest_step _ _ _ _ _ _ Hstep), (IH _ _ _ Hseq).
        rewrite (room_ge ms (n + 1)) by lia. reflexivity.
    + rewrite room_lt by lia. intros Hrest.
      apply splits_rest_inv in Hrest as [(cus & Hcus & Hlast & ->)|(t' & Hstep & Hseq)].
      * rewrite (splits_rest_end _ _ _ _ _ _ Hcus Hlast), take_nil. reflexivity.
      * rewrite (splits_rest_step _ _ _ _ _ _ Hstep). apply IH, Hseq.
Qed.

(** A run with a greater [minsplit] leaves out the first clusterings of a
    run that yields from the start. *)
Lemma splits_seq_drop ms1 ms2 temp rem n (t : Tree Stats) cs :
  ms1 <= n ->
  splits_seq ms1 temp rem n t = Ok cs ->
  splits_seq ms2 temp rem n t = Ok (drop (Z.to_nat (ms2 - n)) cs).
Proof.
  revert n t cs. induction rem as [|rem IH]; intros n t cs Hn.
  - intros [= <-]. rewrite drop_nil. reflexivity.
  - rewrite !splits_seq_S. destruct (Z.geb_spec n ms1) as [_|]; [|lia].
    destruct (clusters_of t temp) as [c|e]; cbn [mbind res_bind]; [|discriminate].
    destruct (splits_rest ms1 temp (S rem) n t) as [cs0|e] eqn:Hrest;
      cbn [mbind res_bind]; [|discriminate].
    intros [= <-].
    assert (Hrest2 : splits_rest ms2 temp (S rem) n t =
                     Ok (drop (Z.to_nat (ms2 - (n + 1))) cs0)).
    { apply splits_rest_inv in Hrest as [(cus & Hcus & Hlast & ->)|(t' & Hstep & Hseq)].
      - rewrite (splits_rest_end _ _ _ _ _ _ Hcus Hlast), drop_nil. reflexivity.
      - rewrite (splits_rest_step _ _ _ _ _ _ Hstep). apply IH; [lia|exact Hseq]. }
    rewrite Hrest2. destruct (Z.geb_spec n ms2) as [Hge|Hlt]; cbn [mbind res_bind].
    + replace (Z.to_nat (ms2 - (n + 1))) with 0%nat by lia.
      replace (Z.to_nat (ms2 - n)) with 0%nat by lia. reflexivity.
    + replace (Z.to_nat (ms2 - n)) with (S (Z.to_nat (ms2 - (n + 1)))) by lia.
      reflexivity.
Qed.

(** A run that has given fewer clusterings than it had room for gives the
    same ones with more of the range left. *)
Lemma splits_seq_stable ms temp rem d n (t : Tree Stats) cs :
  splits_seq ms temp rem n t = Ok cs -> (length cs < room ms n rem)%nat ->
  splits_seq ms temp (rem + d) n t = Ok cs.
Proof.
  revert n t cs. induction rem as [|rem IH]; intros n t cs.
  - unfold room. lia.
  - change (S rem + d)%nat with (S (rem + d)). rewrite !splits_seq_S.
    destruct (Z.geb_spec n ms) as [Hge|Hlt].
    + rewrite (room_ge ms n) by lia.
      destruct (clusters_of t temp) as [c|e]; cbn [mbind res_bind]; [|discriminate].
      destruct (splits_rest ms temp (S rem) n t) as [cs0|e] eqn:Hrest;
        cbn [mbind res_bind]; [|discriminate].
      intros [= <-] Hlen. simpl in Hlen.
      apply splits_rest_inv in Hrest as [(cus & Hcus & Hlast & ->)|(t' & Hstep & Hseq)].
      * rewrite (splits_rest_end _ _ _ _ _ _ Hcus Hlast). reflexivity.
      * rewrite (splits_rest_step _ _ _ _ _ _ Hstep), (IH _ _ _ Hseq); [reflexivity|].
        rewrite room_ge by lia. lia.
    + rewrite room_lt by lia. intros Hrest Hlen.
      apply splits_rest_inv in Hrest as [(cus & Hcus & Hlast & ->)|(t' & Hstep & Hseq)].
      * rewrite (splits_rest_end _ _ _ _ _ _ Hcus Hlast). reflexivity.
      * rewrite (splits_rest_step _ _ _ _ _ _ Hstep). apply IH; assumption.
Qed.

(** The first clustering comes after the splits that lead up to [minsplit],
    the others one split after the other. *)
Lemma splits_seq_chain ms temp rem n (t : Tree Stats) c cs :
  splits_seq ms temp rem n t = Ok (c :: cs) ->
  exists t0, nsteps split_step (Z.to_nat (ms - n)) t t0 /\
             clusters_of t0 temp = Ok c /\ split_chain temp t0 cs.
Proof.
  revert n t c cs. induction rem as [|rem IH]; intros n t c cs; [discriminate|].
  rewrite splits_seq_S. destruct (Z.geb_spec n ms) as [Hge|Hlt].
  - destruct (clusters_of t temp) as [c0|e] eqn:Hc; cbn [mbind res_bind]; [|discriminate].
    destruct (splits_rest ms temp (S rem) n t) as [cs0|e] eqn:Hrest;
      cbn [mbind res_bind]; [|discriminate].
    intros [= <- <-]. exists t.
    replace (Z.to_nat (ms - n)) with 0%nat by lia.
    split; [constructor|]. split; [exact Hc|].
    apply splits_rest_inv in Hrest as [(cus & Hcus & Hlast & ->)|(t' & Hstep & Hseq)];
      [constructor|].
    destruct cs0 as [|c1 cs1]; [constructor|].
    destruct (IH _ _ _ _ Hseq) as (t0 & Hn & Hc1 & Hchain).
    replace (Z.to_nat (ms - (n + 1))) with 0%nat in Hn by lia.
    inversion Hn; subst. econstructor; eassumption.
  - intros Hrest.
    apply splits_rest_inv in Hrest as [(cus & Hcus & Hlast & [=])|(t' & Hstep & Hseq)].
    destruct (IH _ _ _ _ Hseq) as (t0 & Hn & Hc1 & Hchain).
    exists t0. split; [|tauto].
    replace (Z.to_nat (ms - n)) with (S (Z.to_nat (ms - (n + 1)))) by lia.
    econstructor; eassumption.
Qed.

Lemma split_chain_lookup temp (t : Tree Stats) cs i c :
  split_chain temp t cs -> cs !! i = Some c ->
  exists t', nsteps split_step (S i) t t' /\ clusters_of t' temp = Ok c.
Proof.
  intros H; revert i. induction H as [|t t' c0 cs Hstep Hc _ IH]; intros i Hi; [discriminate|].
  destruct i as [|i]; simpl in Hi.
  - injection Hi as <-. exists t'. split; [|exact Hc].
    econstructor; [exact Hstep|constructor].
  - destruct (IH _ Hi) as (t2 & Hn & Hc2). exists t2. split; [|exact Hc2].
    econstructor; eassumption.
Qed.

(** Two clusterings next to each other are one split apart. *)
Lemma split_chain_next temp (t : Tree Stats) c0 cs i c c' :
  clusters_of t temp = Ok c0 -> split_chain temp t cs ->
  (c0 :: cs) !! i = Some c -> (c0 :: cs) !! S i = Some c' ->
  exists t1 t2, rtc split_step t t1 /\ split_step t1 t2 /\
                clusters_of t1 temp = Ok c /\ clusters_of t2 temp = Ok c'.
Proof.
  intros Hc0 H; revert c0 Hc0 i.
  induction H as [|t t' c1 cs Hstep Hc1 _ IH]; intros c0 Hc0 i Hi Hi'; [discriminate|].
  destruct i as [|i]; simpl in Hi, Hi'.
  - injection Hi as <-. injection Hi' as <-. exists t, t'.
    split; [constructor|]. auto.
  - destruct (IH c1 Hc1 i Hi Hi') as (t1 & t2 & Hrtc & H12 & H1 & H2).
    exists t1, t2. split; [eapply rtc_l; eassumption|]. auto.
Qed.

(** A run gives as many clusterings as it has room for, unless it comes to a
    tree with nothing left to split: then it has made [j] splits, fewer than
    the range has values, and gives the clusterings of the values up to the
    one it stops at. *)
Lemma splits_seq_break ms temp rem n (t : Tree Stats) cs :
  splits_seq ms temp rem n t = Ok cs ->
  length cs = room ms n rem \/
  exists j t' cus,
    nsteps split_step j t t' /\ split_cus t' = Ok cus /\ last cus = None /\
    (j < rem)%nat /\ length cs = room ms n (S j).
Proof.
  revert n t cs. induction rem as [|rem IH]; intros n t cs.
  - intros [= <-]. left. unfold room. simpl. lia.
  - rewrite splits_seq_S. destruct (Z.geb_spec n ms) as [Hge|Hlt].
    + destruct (clusters_of t temp) as [c|e]; cbn [mbind res_bind]; [|discriminate].
      destruct (splits_rest ms temp (S rem) n t) as [cs0|e] eqn:Hrest;
        cbn [mbind res_bind]; [|discriminate].
      intros [= <-].
      apply splits_rest_inv in Hrest as [(cus & Hcus & Hlast & ->)|(t' & Hstep & Hseq)].
      * right. exists 0%nat, t, cus. split; [constructor|].
        repeat split; try assumption; [lia|]. unfold room. simpl. lia.
      * destruct (IH _ _ _ Hseq) as [Hlen|(j & t2 & cus & Hn & Hcus & Hlast & Hj & Hlen)].
        -- left. unfold room in *. simpl. lia.
        -- right. exists (S j), t2, cus. split; [econstructor; eassumption|].
           repeat split; try assumption; [lia|]. unfold room in *. simpl. lia.
    + intros Hrest.
      apply splits_rest_inv in Hrest as [(cus & Hcus & Hlast & ->)|(t' & Hstep & Hseq)].
      * right. exists 0%nat, t, cus. split; [constructor|].
        repeat split; try assumption; [lia|]. unfold room. simpl. lia.
      * destruct (IH _ _ _ Hseq) as [Hlen|(j & t2 & cus & Hn & Hcus & Hlast & Hj & Hlen)].
        -- left. unfold room in *. lia.
        -- right. exists (S j), t2, cus. split; [econstructor; eassumption|].
           repeat split; try assumption; [lia|]. unfold room in *. lia.
Qed.

End WholeFacts.

(** ** The list [cluster] returns *)

Section ClusterList.
Context {Stats Instance Score : Type} `{Ops : TreeOps Stats Instance Score}.

(** X1.  The clustering at position [i] (from 0) of the list [cluster]
    returns is the label vector of the recorded nodes in the tree after
    exactly [minsplit - 1 + i] splits of the copy with the instances in: the
    first one comes after [minsplit - 1] splits, and every later one after one
    split more. *)
Theorem cluster_nth_splits (w : gmap nat (Tree Stats)) tree (X : list Instance)
    ms Ms md t_in w' cs i c :
  w !! tree = Some t_in ->
  cluster w tree X ms Ms md = (w', Ok cs) ->
  cs !! i = Some c ->
  exists t,
    nsteps split_step (Z.to_nat (ms - 1) + i) (insert_all md t_in X).1 t /\
    clusters_of t (insert_all md t_in X).2 = Ok c.
Proof.
  intros Hw Hcl Hi. destruct (cluster_ok_args _ _ _ _ _ _ _ _ Hcl) as [Hms _].
  pose proof (cluster_splits w tree X ms Ms md t_in Hms Hw) as Hseq.
  rewrite Hcl in Hseq. cbn [snd] in Hseq. symmetry in Hseq.
  destruct cs as [|c0 cs]; [discriminate|].
  apply splits_seq_chain in Hseq as (t0 & Hn & Hc0 & Hchain).
  destruct i as [|i]; simpl in Hi.
  - injection Hi as <-. exists t0. rewrite Nat.add_0_r. auto.
  - destruct (split_chain_lookup _ _ _ _ _ Hchain Hi) as (t1 & Hn1 & Hc1).
    exists t1. split; [|exact Hc1].
    eapply nsteps_trans; eassumption.
Qed.

(** X2.  With a smaller [maxsplit], [cluster] returns the first
    [maxsplit - minsplit + 1] clusterings of the list it returns with a
    greater one: raising [maxsplit] only adds clusterings at the end. *)
Theorem cluster_maxsplit_prefix (w : gmap nat (Tree Stats)) tree (X : list Instance)
    ms Ms Ms' md w' cs :
  1 <= ms <= Ms -> Ms <= Ms' ->
  cluster w tree X ms Ms' md = (w', Ok cs) ->
  (cluster w tree X ms Ms md).2 = Ok (take (Z.to_nat (Ms - ms + 1)) cs).
Proof.
  intros Hms HMs Hcl. destruct (cluster_ok_args _ _ _ _ _ _ _ _ Hcl) as [Hms' [t_in Hw]].
  pose proof (cluster_splits w tree X ms Ms' md t_in Hms' Hw) as Hseq.
  rewrite Hcl in Hseq. cbn [snd] in Hseq. symmetry in Hseq.
  rewrite (cluster_splits w tree X ms Ms md t_in Hms Hw).
  replace (Z.to_nat Ms') with (Z.to_nat Ms + (Z.to_nat Ms' - Z.to_nat Ms))%nat in Hseq by lia.
  rewrite (splits_seq_take _ _ _ _ _ _ _ Hseq). f_equal. f_equal. unfold room. lia.
Qed.

(** X3.  With [minsplit] above 1, [cluster] returns the list it returns with
    [minsplit = 1] without its first [minsplit - 1] clusterings. *)
Theorem cluster_minsplit_suffix (w : gmap nat (Tree Stats)) tree (X : list Instance)
    ms Ms md w' cs :
  1 <= ms <= Ms ->
  cluster w tree X 1 Ms md = (w', Ok cs) ->
  (cluster w tree X ms Ms md).2 = Ok (drop (Z.to_nat (ms - 1)) cs).
Proof.
  intros Hms Hcl. destruct (cluster_ok_args _ _ _ _ _ _ _ _ Hcl) as [Hms' [t_in Hw]].
  pose proof (cluster_splits w tree X 1 Ms md t_in Hms' Hw) as Hseq.
  rewrite Hcl in Hseq. cbn [snd] in Hseq. symmetry in Hseq.
  rewrite (cluster_splits w tree X ms Ms md t_in Hms Hw).
  apply splits_seq_drop with (ms1 := 1); [lia|exact Hseq].
Qed.

(** X4.  When [cluster] returns fewer than [maxsplit - minsplit + 1]
    clusterings, it returns the same list for every greater [maxsplit]. *)
Theorem cluster_exhausted_stable (w : gmap nat (Tree Stats)) tree (X : list Instance)
    ms Ms Ms' md w' cs :
  Ms <= Ms' ->
  cluster w tree X ms Ms md = (w', Ok cs) ->
  Z.of_nat (length cs) < Ms - ms + 1 ->
  (cluster w tree X ms Ms' md).2 = Ok cs.
Proof.
  intros HMs Hcl Hlen. destruct (cluster_ok_args _ _ _ _ _ _ _ _ Hcl) as [Hms [t_in Hw]].
  pose proof (cluster_splits w tree X ms Ms md t_in Hms Hw) as Hseq.
  rewrite Hcl in Hseq. cbn [snd] in Hseq. symmetry in Hseq.
  rewrite (cluster_splits w tree X ms Ms' md t_in) by (lia || exact Hw).
  replace (Z.to_nat Ms') with (Z.to_nat Ms + (Z.to_nat Ms' - Z.to_nat Ms))%nat by lia.
  apply splits_seq_stable; [exact Hseq|]. unfold room. lia.
Qed.

(** X5.  [cluster] returns [maxsplit - minsplit + 1] clusterings, or else it
    has come to the end of the tree within its range: after exactly [j]
    splits of the copy with the instances in, with [j < maxsplit], no child of
    the root has children, and the list holds the clusterings of the values
    [minsplit .. j + 1] of [nth_split], [j + 2 - minsplit] of them (none where
    that is negative). *)
Theorem cluster_short_only_if_exhausted (w : gmap nat (Tree Stats)) tree
    (X : list Instance) ms Ms md t_in w' cs :
  w !! tree = Some t_in ->
  cluster w tree X ms Ms md = (w', Ok cs) ->
  Z.of_nat (length cs) = Ms - ms + 1 \/
  exists j t r,
    nsteps split_step j (insert_all md t_in X).1 t /\
    Z.of_nat j < Ms /\
    Z.of_nat (length cs) = Z.max 0 (Z.of_nat j + 2 - ms) /\
    nodes t !! root t = Some r /\
    forall k c nc,
      children r !! k = Some c -> nodes t !! c = Some nc -> children nc = [].
Proof.
  intros Hw Hcl. destruct (cluster_ok_args _ _ _ _ _ _ _ _ Hcl) as [Hms _].
  pose proof (cluster_splits w tree X ms Ms md t_in Hms Hw) as Hseq.
  rewrite Hcl in Hseq. cbn [snd] in Hseq. symmetry in Hseq.
  apply splits_seq_break in Hseq
    as [Hlen|(j & t & cus & Hn & Hcus & Hlast & Hj & Hlen)].
  - left. rewrite Hlen. unfold room. lia.
  - right. destruct (split_cus_none _ _ Hcus Hlast) as (r & Hr & Hall).
    exists j, t, r. split; [exact Hn|]. split; [lia|]. split; [|auto].
    rewrite Hlen. unfold room. lia.
Qed.

End ClusterList.

Lemma cluster_nth_splits_witness :
  exists t,
    nsteps (split_step (Ops := toy_ops)) (Z.to_nat (2 - 1) + 1) toy_tree t /\
    clusters_of t toy_instances = Ok toy_cut2.
Proof.
  apply (cluster_nth_splits (Ops := toy_ops) toy_store 5%nat toy_instances 2 3 false
           toy_tree (cluster (Ops := toy_ops) toy_store 5%nat toy_instances 2 3 false).1
           [toy_cut1; toy_cut2] 1 toy_cut2).
  - reflexivity.
  - vm_compute. reflexivity.
  - reflexivity.
Defined.

Lemma cluster_maxsplit_prefix_witness :
  (cluster (Ops := toy_ops) toy_store 5%nat toy_instances 2 3 false).2 =
  Ok (take (Z.to_nat (3 - 2 + 1)) [toy_cut1; toy_cut2; toy_cut3]).
Proof.
  apply (cluster_maxsplit_prefix (Ops := toy_ops) toy_store 5%nat toy_instances 2 3 10 false
           (cluster (Ops := toy_ops) toy_store 5%nat toy_instances 2 10 false).1).
  - lia.
  - lia.
  - vm_compute. reflexivity.
Defined.

Lemma cluster_minsplit_suffix_witness :
  (cluster (Ops := toy_ops) toy_store 5%nat toy_instances 3 10 false).2 =
  Ok (drop (Z.to_nat (3 - 1)) [toy_cut0; toy_cut1; toy_cut2; toy_cut3]).
Proof.
  apply (cluster_minsplit_suffix (Ops := toy_ops) toy_store 5%nat toy_instances 3 10 false
           (cluster (Ops := toy_ops) toy_store 5%nat toy_instances 1 10 false).1).
  - lia.
  - vm_compute. reflexivity.
Defined.

(** The toy tree is used up after three splits: four clusterings, with
    [maxsplit] 10 as with 20. *)
Lemma cluster_exhausted_stable_witness :
  (cluster (Ops := toy_ops) toy_store 5%nat toy_instances 1 20 false).2 =
  Ok [toy_cut0; toy_cut1; toy_cut2; toy_cut3].
Proof.
  apply (cluster_exhausted_stable (Ops := toy_ops) toy_store 5%nat toy_instances 1 10 20 false
           (cluster (Ops := toy_ops) toy_store 5%nat toy_instances 1 10 false).1).
  - lia.
  - vm_compute. reflexivity.
  - vm_compute. reflexivity.
Defined.

(** The toy run with [maxsplit] 10: four clusterings, for the tree is at its
    end after three splits. *)
Lemma cluster_short_only_if_exhausted_witness :
  Z.of_nat (length [toy_cut0; toy_cut1; toy_cut2; toy_cut3]) = 10 - 1 + 1 \/
  exists j t r,
    nsteps (split_step (Ops := toy_ops)) j toy_tree t /\
    Z.of_nat j < 10 /\
    Z.of_nat (length [toy_cut0; toy_cut1; toy_cut2; toy_cut3]) =
      Z.max 0 (Z.of_nat j + 2 - 1) /\
    nodes t !! root t = Some r /\
    forall k c nc,
      children r !! k = Some c -> nodes t !! c = Some nc -> children nc = [].
Proof.
  apply (cluster_short_only_if_exhausted (Ops := toy_ops) toy_store 5%nat toy_instances
           1 10 false toy_tree
           (cluster (Ops := toy_ops) toy_store 5%nat toy_instances 1 10 false).1).
  - reflexivity.
  - vm_compute. reflexivity.
Defined.

(** ** Clusterings one split apart *)

Section OneSplitLabels.
Context {Stats : Type} (t t' : Tree Stats) (best : nat) (r b : Node Stats).
Hypothesis Hwf : wf_tree t.
Hypothesis Hsplit : split t best = Ok t'.
Hypothesis Hr : nodes t !! root t = Some r.
Hypothesis Hbest : best ∈ children r.
Hypothesis Hb : nodes t !! best = Some b.

(** The labels of one instance before and after the split belong to the
    same node, or to the split node and one of its promoted children. *)
Lemma split_labels temp c c' i l l' :
  clusters_of t temp = Ok c -> clusters_of t' temp = Ok c' ->
  c !! i = Some l -> c' !! i = Some l' ->
  exists x x' nx nx',
    nodes t !! x = Some nx /\ nodes t !! x' = Some nx' /\
    l = "Concept" +:+ concept_id nx /\ l' = "Concept" +:+ concept_id nx' /\
    ((x' = x /\ ~ promoted t best b x) \/ (x = best /\ promoted t best b x')).
Proof.
  intros Hc Hc' Hl Hl'.
  apply clusters_of_spec in Hc. apply clusters_of_spec in Hc'.
  destruct (Forall2_lookup_r _ _ _ _ _ Hc Hl) as (leaf & Hleaf & x & nx & Hd & Hnx & ->).
  destruct (Forall2_lookup_r _ _ _ _ _ Hc' Hl') as (leaf' & Hleaf' & x' & nx' & Hd' & Hnx' & ->).
  assert (leaf' = leaf) by congruence. subst leaf'.
  rewrite (split_lookup t t' best r b Hsplit Hr Hb) in Hnx'.
  destruct (nodes t !! x') as [nx0'|] eqn:Hx0; [|discriminate].
  injection Hnx' as <-. rewrite split_node_id.
  exists x, x', nx, nx0'. repeat split; try assumption; try reflexivity.
  eapply split_depth1; eassumption.
Qed.

Lemma split_refines temp c c' :
  clusters_of t temp = Ok c -> clusters_of t' temp = Ok c' -> refines c' c.
Proof.
  intros Hc Hc' i j Hij.
  pose proof (clusters_of_length _ _ _ Hc) as Hlen.
  pose proof (clusters_of_length _ _ _ Hc') as Hlen'.
  destruct (c' !! i) as [l'|] eqn:Hi'.
  - symmetry in Hij.
    destruct (lookup_lt_is_Some_2 c i) as [li Hi];
      [rewrite Hlen, <- Hlen'; eapply lookup_lt_Some, Hi'|].
    destruct (lookup_lt_is_Some_2 c j) as [lj Hj];
      [rewrite Hlen, <- Hlen'; eapply lookup_lt_Some, Hij|].
    rewrite Hi, Hj. f_equal.
    destruct (split_labels temp c c' i li l' Hc Hc' Hi Hi')
      as (x1 & x1' & nx1 & nx1' & H1 & H1' & -> & E1 & C1).
    destruct (split_labels temp c c' j lj l' Hc Hc' Hj Hij)
      as (x2 & x2' & nx2 & nx2' & H2 & H2' & -> & E2 & C2).
    assert (x1' = x2').
    { eapply (wf_ids t Hwf); [exact H1'|exact H2'|]. apply label_inj. congruence. }
    subst x2'.
    destruct C1 as [[-> Hn1]|[-> Hp1]], C2 as [[-> Hn2]|[-> Hp2]];
      try tauto; congruence.
  - symmetry in Hij. apply lookup_ge_None in Hi', Hij.
    rewrite (proj2 (lookup_ge_None c i)), (proj2 (lookup_ge_None c j)) by lia.
    reflexivity.
Qed.

(** An instance keeps its label, or it had the label of the split node and
    gets one that no instance had. *)
Lemma split_local temp c c' i l l' :
  clusters_of t temp = Ok c -> clusters_of t' temp = Ok c' ->
  c !! i = Some l -> c' !! i = Some l' ->
  l' = l \/ (l = "Concept" +:+ concept_id b /\ l' ∉ c).
Proof.
  intros Hc Hc' Hi Hi'.
  destruct (split_labels temp c c' i l l' Hc Hc' Hi Hi')
    as (x & x' & nx & nx' & Hx & Hx' & -> & -> & [[-> _]|[-> Hp]]).
  - left. congruence.
  - right. split; [congruence|].
    intros Hin. apply list_elem_of_lookup in Hin as [k Hk].
    apply clusters_of_spec in Hc.
    destruct (Forall2_lookup_r _ _ _ _ _ Hc Hk) as (leaf & _ & x0 & nx0 & Hd & Hnx0 & Hlab).
    assert (x0 = x').
    { eapply (wf_ids t Hwf); [exact Hnx0|exact Hx'|]. apply label_inj. congruence. }
    subst x0. assert (nx0 = nx') by congruence. subst nx0.
    destruct Hp as [_ (ny & Hny & Hpy)]. assert (ny = nx') by congruence. subst ny.
    destruct (depth1_wf t leaf x' Hwf Hd) as (n0 & Hn0 & [Hpar|[Heq Hroot]]).
    + assert (n0 = nx') by congruence. subst n0.
      apply (best_not_root t t' best r b Hwf Hsplit Hr Hbest Hb). congruence.
    + destruct (wf_root t Hwf) as (r0 & Hr0 & Hrp).
      rewrite Heq, Hroot in Hx'. congruence.
Qed.

End OneSplitLabels.

Section Refinement.
Context {Stats Instance Score : Type} `{Ops : TreeOps Stats Instance Score}.

Lemma refines_trans (c1 c2 c3 : list string) :
  refines c3 c2 -> refines c2 c1 -> refines c3 c1.
Proof. intros H32 H21 a b Hab. apply H21, H32, Hab. Qed.

Lemma split_step_labels (t t' : Tree Stats) temp c c' :
  wf_tree t -> split_step t t' ->
  clusters_of t temp = Ok c -> clusters_of t' temp = Ok c' ->
  refines c' c /\
  exists lab, forall i l l',
    c !! i = Some l -> c' !! i = Some l' -> l' = l \/ (l = lab /\ l' ∉ c).
Proof.
  intros Hwf [cus g i best Hcus Hlast Hs] Hc Hc'.
  destruct (split_cus_last_in _ _ _ _ _ Hcus Hlast) as (r & nb & Hr & Hin & Hnb & _).
  split.
  - exact (split_refines t t' best r nb Hwf Hs Hr Hin Hnb temp c c' Hc Hc').
  - exists ("Concept" +:+ concept_id nb). intros k l l' Hk Hk'.
    exact (split_local t t' best r nb Hwf Hs Hr Hin Hnb temp c c' k l l' Hc Hc' Hk Hk').
Qed.

Lemma rtc_split_refines (t t' : Tree Stats) temp c c' :
  wf_tree t -> rtc split_step t t' ->
  clusters_of t temp = Ok c -> clusters_of t' temp = Ok c' ->
  refines c' c.
Proof.
  intros Hwf H. revert c.
  induction H as [t|t t1 t' Hstep _ IH]; intros c Hc Hc'.
  - assert (c = c') by congruence. subst. intros a b' Hab. exact Hab.
  - assert (Hwf1 : wf_tree t1) by (eapply split_step_wf; eassumption).
    destruct (clusters_of_total t1 temp) as [c1 Hc1].
    { eapply rtc_split_rooted; [exact Hwf|apply rtc_once, Hstep|].
      eapply clusters_of_rooted, Hc. }
    eapply refines_trans; [eapply IH; eassumption|].
    exact (proj1 (split_step_labels t t1 temp c c1 Hwf Hstep Hc Hc1)).
Qed.

Lemma emitted_refines ms temp lo (t : Tree Stats) hi snaps cs i j ci cj :
  emitted ms temp lo t hi snaps cs -> wf_tree t ->
  (i < j)%nat -> cs !! i = Some ci -> cs !! j = Some cj ->
  refines cj ci.
Proof.
  intros H; revert i j.
  induction H as [|lo t hi n t' c0 snaps cs Hn Hms Hrtc Hc Hrest IH];
    intros i j Hwf Hij Hi Hj; [discriminate|].
  assert (Hwf' : wf_tree t') by (eapply rtc_split_wf; eassumption).
  destruct j as [|j]; [lia|]. simpl in Hj.
  destruct i as [|i]; simpl in Hi.
  - injection Hi as <-.
    destruct (emitted_lookup _ _ _ _ _ _ _ _ _ Hrest Hj) as (n1 & t1 & _ & _ & _ & Hrtc1 & Hc1).
    eapply rtc_split_refines; eassumption.
  - eapply (IH i j); try eassumption. lia.
Qed.

(** X6.  Along the clusterings a generator of [cluster_iter] gives, clusters
    are only ever divided: two instances with the same label in a later
    clustering have the same label in every earlier one (for a tree that is
    well-formed once the instances are in). *)
Theorem cluster_iter_refines (w : gmap nat (Tree Stats)) tree (X : list Instance)
    ms Ms md cs w' g' t_in i j ci cj :
  w !! tree = Some t_in ->
  wf_tree (insert_all md t_in X).1 ->
  yields w (cluster_iter tree X ms Ms md) cs w' g' ->
  (i < j)%nat -> cs !! i = Some ci -> cs !! j = Some cj ->
  forall a b, cj !! a = cj !! b -> ci !! a = ci !! b.
Proof.
  intros Hw Hwf H Hij Hi Hj.
  destruct (yields_created _ _ _ _ _ _ _ _ _ t_in H Hw) as [snaps Hem].
  exact (emitted_refines _ _ _ _ _ _ _ _ _ _ _ Hem Hwf Hij Hi Hj).
Qed.

(** X7.  From one clustering of the list [cluster] returns to the next, the
    instances of one cluster at most get a new label, and a new label is one
    that no instance had in the clustering before: every instance keeps its
    label, or it had the label [lab] of the split node and gets a label that
    is new. *)
Theorem cluster_consecutive_local (w : gmap nat (Tree Stats)) tree (X : list Instance)
    ms Ms md t_in w' cs i c c' :
  w !! tree = Some t_in ->
  wf_tree (insert_all md t_in X).1 ->
  cluster w tree X ms Ms md = (w', Ok cs) ->
  cs !! i = Some c -> cs !! S i = Some c' ->
  exists lab, forall a l l',
    c !! a = Some l -> c' !! a = Some l' -> l' = l \/ (l = lab /\ l' ∉ c).
Proof.
  intros Hw Hwf Hcl Hi Hi'. destruct (cluster_ok_args _ _ _ _ _ _ _ _ Hcl) as [Hms _].
  pose proof (cluster_splits w tree X ms Ms md t_in Hms Hw) as Hseq.
  rewrite Hcl in Hseq. cbn [snd] in Hseq. symmetry in Hseq.
  destruct cs as [|c0 cs]; [discriminate|].
  apply splits_seq_chain in Hseq as (t0 & Hn & Hc0 & Hchain).
  destruct (split_chain_next _ _ _ _ _ _ _ Hc0 Hchain Hi Hi')
    as (t1 & t2 & Hrtc & Hstep & Hc1 & Hc2).
  assert (Hwf1 : wf_tree t1).
  { eapply rtc_split_wf; [exact Hwf|].
    etransitivity; [eapply rtc_nsteps_2, Hn|exact Hrtc]. }
  exact (proj2 (split_step_labels t1 t2 _ c c' Hwf1 Hstep Hc1 Hc2)).
Qed.

End Refinement.

(** The instances on [g] and [h], together under [c] in the third clustering
    of the toy run, are together in the second. *)
Lemma cluster_iter_refines_witness :
  toy_cut1 !! 0%nat = toy_cut1 !! 1%nat.
Proof.
  eapply (cluster_iter_refines (Ops := toy_ops) toy_store 5%nat toy_instances 1 10 false
            [toy_cut0; toy_cut1; toy_cut2; toy_cut3] _ _ toy_tree 1 2 toy_cut1 toy_cut2).
  - reflexivity.
  - apply toy_tree_wf.
  - run_yields.
  - lia.
  - reflexivity.
  - reflexivity.
  - reflexivity.
Defined.

Lemma cluster_consecutive_local_witness :
  exists lab, forall a l l',
    toy_cut0 !! a = Some l -> toy_cut1 !! a = Some l' ->
    l' = l \/ (l = lab /\ l' ∉ toy_cut0).
Proof.
  apply (cluster_consecutive_local (Ops := toy_ops) toy_store 5%nat toy_instances 1 10 false
           toy_tree (cluster (Ops := toy_ops) toy_store 5%nat toy_instances 1 10 false).1
           [toy_cut0; toy_cut1; toy_cut2; toy_cut3] 0).
  - reflexivity.
  - apply toy_tree_wf.
  - vm_compute. reflexivity.
  - reflexivity.
  - reflexivity.
Defined.

(** ** What [cluster] and [k_cluster] return *)

Lemma distinct_nil : distinct [] = 0%nat.
Proof. reflexivity. Qed.

Lemma distinct_cons_pos a l : (1 <= distinct (a :: l))%nat.
Proof.
  revert a. induction l as [|b l IH]; intros a.
  - rewrite distinct_cons_notin by apply not_elem_of_nil. lia.
  - destruct (decide (a ∈ b :: l)).
    + rewrite distinct_cons_in by assumption. apply IH.
    + rewrite distinct_cons_notin by assumption. lia.
Qed.

Lemma distinct_le_length c : (distinct c <= length c)%nat.
Proof.
  induction c as [|a c IH]; [rewrite distinct_nil; simpl; lia|].
  destruct (decide (a ∈ c)).
  - rewrite distinct_cons_in by assumption. simpl. lia.
  - rewrite distinct_cons_notin by assumption. simpl. lia.
Qed.

Lemma last_cons_default {A} (d x : A) l :
  default d (last (x :: l)) = default x (last l).
Proof. destruct l as [|y l]; [reflexivity|]. rewrite last_cons_cons.
  destruct (last (y :: l)) eqn:H; [reflexivity|].
  apply last_None in H. discriminate.
Qed.

Lemma bounded_k_in k cl cs : bounded_k k cl cs = cl \/ bounded_k k cl cs ∈ cs.
Proof.
  revert cl. induction cs as [|c cs IH]; intros cl; [left; reflexivity|].
  cbn [bounded_k]. destruct (Z.of_nat (distinct c) >? k); [left; reflexivity|].
  right. destruct (IH c) as [->|Hin]; [apply list_elem_of_here|].
  apply list_elem_of_further, Hin.
Qed.

Lemma bounded_k_all k cl cs :
  Forall (fun c => Z.of_nat (distinct c) <= k) cs ->
  bounded_k k cl cs = default cl (last cs).
Proof.
  intros H; revert cl. induction H as [|c cs Hc _ IH]; intros cl; [reflexivity|].
  cbn [bounded_k]. rewrite Z.gtb_ltb, (proj2 (Z.ltb_ge k _)) by lia.
  rewrite IH, last_cons_default. reflexivity.
Qed.

Lemma rising_tail c cs : rising (c :: cs) -> rising cs.
Proof.
  intros H i j ci cj Hij Hi Hj. apply (H (S i) (S j) ci cj); [lia|exact Hi|exact Hj].
Qed.

Lemma rising_head c0 cs c :
  rising (c0 :: cs) -> c ∈ cs -> (distinct c0 <= distinct c)%nat.
Proof.
  intros H Hin. apply list_elem_of_lookup in Hin as [j Hj].
  apply (H 0%nat (S j) c0 c); [lia|reflexivity|exact Hj].
Qed.

(** On a sequence with rising label counts the selection rule finds a
    clustering with the most labels among those with at most [k]. *)
Lemma bounded_k_max k cl cs c :
  rising cs -> c ∈ cs -> Z.of_nat (distinct c) <= k ->
  bounded_k k cl cs ∈ cs /\ (distinct c <= distinct (bounded_k k cl cs))%nat.
Proof.
  revert cl. induction cs as [|c0 cs IH]; intros cl Hr Hin Hc; [inversion Hin|].
  cbn [bounded_k]. destruct (Z.gtb_spec (Z.of_nat (distinct c0)) k) as [Hgt|Hle].
  - exfalso. apply elem_of_cons in Hin as [->|Hin]; [lia|].
    pose proof (rising_head _ _ _ Hr Hin). lia.
  - apply elem_of_cons in Hin as [->|Hin].
    + destruct (bounded_k_in k c0 cs) as [->|Hin'].
      * split; [apply list_elem_of_here|lia].
      * split; [apply list_elem_of_further, Hin'|]. eapply rising_head; eassumption.
    + destruct (IH c0 (rising_tail _ _ Hr) Hin Hc) as [Hin' Hle'].
      split; [apply list_elem_of_further, Hin'|exact Hle'].
Qed.

(** With a greater [k] it selects a clustering with no fewer labels. *)
Lemma bounded_k_mono k1 k2 cl cs :
  k1 <= k2 -> rising cs ->
  (forall c, c ∈ cs -> (distinct cl <= distinct c)%nat) ->
  (distinct (bounded_k k1 cl cs) <= distinct (bounded_k k2 cl cs))%nat.
Proof.
  intros Hk. revert cl. induction cs as [|c0 cs IH]; intros cl Hr Hcl; [reflexivity|].
  cbn [bounded_k]. destruct (Z.gtb_spec (Z.of_nat (distinct c0)) k1) as [Hgt1|Hle1].
  - destruct (Z.gtb_spec (Z.of_nat (distinct c0)) k2) as [Hgt2|Hle2]; [reflexivity|].
    destruct (bounded_k_in k2 c0 cs) as [->|Hin].
    + apply Hcl, list_elem_of_here.
    + apply Hcl, list_elem_of_further, Hin.
  - destruct (Z.gtb_spec (Z.of_nat (distinct c0)) k2) as [Hgt2|Hle2]; [lia|].
    apply IH; [eapply rising_tail, Hr|]. intros c Hc. eapply rising_head; eassumption.
Qed.

Section ConsumerFacts.
Context {Stats Instance Score : Type} `{Ops : TreeOps Stats Instance Score}.

Lemma k_loop_advances fuel (w : gmap nat (Tree Stats)) (g : gen (Instance := Instance))
    k cl :
  exists g', rtc next_step (w, g) ((k_loop fuel w g k cl).1, g').
Proof.
  revert w g cl. induction fuel as [|fuel IH]; intros w g cl; simpl.
  - exists g. constructor.
  - destruct (gen_next w g) as [[w1 g1] s] eqn:Hnext.
    assert (Hstep : next_step (w, g) (w1, g1)) by (exists s; exact Hnext).
    destruct s as [c| |e]; [|exists g1; apply rtc_once, Hstep..].
    destruct (Z.of_nat (distinct c) >? k); [exists g1; apply rtc_once, Hstep|].
    destruct (IH w1 g1 c) as [g' Hg']. exists g'. eapply rtc_l; eassumption.
Qed.

(** The result of the loop of [k_cluster]: the last clustering of a run of
    [next] calls that all stay within [k], or the initial one. *)
Lemma k_loop_result fuel (w : gmap nat (Tree Stats)) (g : gen (Instance := Instance))
    k cl w' c :
  k_loop fuel w g k cl = (w', Ok c) ->
  exists cs w1 g1, yields w g cs w1 g1 /\ c = default cl (last cs).
Proof.
  revert w g cl. induction fuel as [|fuel IH]; intros w g cl; simpl; [discriminate|].
  destruct (gen_next w g) as [[w1 g1] [c1| |e]] eqn:Hnext.
  - destruct (Z.of_nat (distinct c1) >? k).
    + intros [= _ <-]. exists [], w, g. split; [constructor|reflexivity].
    + intros H. destruct (IH _ _ _ H) as (cs & w2 & g2 & Hy & ->).
      exists (c1 :: cs), w2, g2. split; [econstructor; eassumption|].
      symmetry. apply last_cons_default.
  - intros [= _ <-]. exists [], w, g. split; [constructor|reflexivity].
  - discriminate.
Qed.

Lemma yields_lengths (w : gmap nat (Tree Stats)) tree (X : list Instance) ms Ms md
    cs w' g' :
  yields w (cluster_iter tree X ms Ms md) cs w' g' ->
  Forall (fun c => length c = length X) cs.
Proof.
  intros H. destruct cs as [|c0 cs0] eqn:Hcs; [constructor|]. rewrite <- Hcs in *.
  assert (exists t_in, w !! tree = Some t_in) as [t_in Hw].
  { subst cs. eapply yields_created_args, H. }
  destruct (yields_created _ _ _ _ _ _ _ _ _ t_in H Hw) as [snaps Hem].
  apply Forall_forall. intros c Hc. apply list_elem_of_lookup in Hc as [i Hi].
  destruct (emitted_lookup _ _ _ _ _ _ _ _ _ Hem Hi) as (n & t' & _ & _ & _ & _ & Hc).
  rewrite (clusters_of_length _ _ _ Hc). apply insert_all_length.
Qed.

Lemma cluster_lengths (w : gmap nat (Tree Stats)) tree (X : list Instance) ms Ms md w' cs :
  cluster w tree X ms Ms md = (w', Ok cs) ->
  Forall (fun c => length c = length X) cs.
Proof.
  intros H. apply exhaust_yields in H as (w1 & g1 & g2 & Hy & _).
  eapply yields_lengths, Hy.
Qed.

Lemma cluster_rising (w : gmap nat (Tree Stats)) tree (X : list Instance) ms Ms md
    t_in w' cs :
  w !! tree = Some t_in -> wf_tree (insert_all md t_in X).1 ->
  cluster w tree X ms Ms md = (w', Ok cs) -> rising cs.
Proof.
  intros Hw Hwf H. apply exhaust_yields in H as (w1 & g1 & g2 & Hy & _).
  destruct (yields_created _ _ _ _ _ _ _ _ _ t_in Hy Hw) as [snaps Hem].
  intros i j ci cj. eapply emitted_mono; eassumption.
Qed.

(** X8.  With arguments that pass the checks, on a tree that is well-formed
    once the instances are in and in which the ancestor walks from the
    recorded nodes end, [cluster] returns a list; with [minsplit = 1] the list
    is not empty. *)
Theorem cluster_returns (w : gmap nat (Tree Stats)) tree (X : list Instance)
    ms Ms md t_in :
  1 <= ms <= Ms ->
  w !! tree = Some t_in ->
  wf_tree (insert_all md t_in X).1 ->
  Forall (rooted (insert_all md t_in X).1) (insert_all md t_in X).2 ->
  exists w' cs, cluster w tree X ms Ms md = (w', Ok cs) /\ (ms = 1 -> cs <> []).
Proof.
  intros Hms Hw Hwf Hr.
  destruct (exhaust_total (gen_fuel (cluster_iter tree X ms Ms md)) w
              (cluster_iter tree X ms Ms md)) as (w' & cs & Hcl).
  { exists t_in. auto. }
  { exact Hms. }
  { reflexivity. }
  exists w', cs. split; [exact Hcl|]. intros -> ->.
  pose proof (cluster_splits w tree X 1 Ms md t_in Hms Hw) as Hseq.
  unfold cluster in Hseq. rewrite Hcl in Hseq. cbn [snd] in Hseq.
  destruct (Z.to_nat Ms) as [|rem] eqn:HMs; [lia|].
  rewrite splits_seq_S in Hseq. change (1 >=? 1) with true in Hseq. cbv iota in Hseq.
  destruct (clusters_of _ _) as [c|e]; cbn [mbind res_bind] in Hseq; [|discriminate].
  destruct (splits_rest _ _ _ _ _) as [cs0|e]; cbn [mbind res_bind] in Hseq; discriminate.
Qed.

(** X9.  [cluster] and [k_cluster] leave every tree object of the caller's
    store as it is, also with [mod = True]: the instances are fitted into the
    copy. *)
Theorem consumers_keep_store (w : gmap nat (Tree Stats)) tree (X : list Instance)
    ms Ms k md r0 t0 :
  w !! r0 = Some t0 ->
  (cluster w tree X ms Ms md).1 !! r0 = Some t0 /\
  (k_cluster w tree X k md).1 !! r0 = Some t0.
Proof.
  intros Hr0.
  assert (Hdom : r0 ∈ dom w) by (apply elem_of_dom; eauto).
  assert (Hkeep : forall w' g',
            rtc next_step (w, cluster_iter tree X ms Ms md) (w', g') ->
            w' !! r0 = Some t0).
  { intros w' g' H. rewrite <- Hr0.
    apply (rtc_next_step_keeps w) in H; [exact (proj1 H r0 Hdom)|].
    split; reflexivity. }
  assert (Hkeep' : forall w' g',
            rtc next_step (w, cluster_iter tree X 1 default_maxsplit md) (w', g') ->
            w' !! r0 = Some t0).
  { intros w' g' H. rewrite <- Hr0.
    apply (rtc_next_step_keeps w) in H; [exact (proj1 H r0 Hdom)|].
    split; reflexivity. }
  split.
  - unfold cluster.
    destruct (exhaust_advances (gen_fuel (cluster_iter tree X ms Ms md)) w
                (cluster_iter tree X ms Ms md)) as [g' Hadv].
    eapply Hkeep, Hadv.
  - unfold k_cluster. destruct (k <? 2); [exact Hr0|].
    destruct (w !! tree) as [t|]; [|exact Hr0].
    destruct (res_mapM _ X) as [cl|e]; [|exact Hr0].
    destruct (k_loop_advances (gen_fuel (cluster_iter tree X 1 default_maxsplit md)) w
                (cluster_iter tree X 1 default_maxsplit md) k cl) as [g' Hadv].
    eapply Hkeep', Hadv.
Qed.

(** X10.  A clustering [k_cluster] returns has one label for each
    instance. *)
Theorem k_cluster_length (w : gmap nat (Tree Stats)) tree (X : list Instance) k md w' c :
  k_cluster w tree X k md = (w', Ok c) -> length c = length X.
Proof.
  unfold k_cluster. destruct (k <? 2); [discriminate|].
  destruct (w !! tree) as [t|]; [|discriminate].
  destruct (res_mapM _ X) as [cl|e] eqn:Hcl; [|discriminate].
  intros H. apply k_loop_result in H as (cs & w1 & g1 & Hy & ->).
  destruct (last cs) as [c|] eqn:Hlast; simpl.
  - pose proof (yields_lengths _ _ _ _ _ _ _ _ _ Hy) as Hlen.
    rewrite Forall_forall in Hlen. apply Hlen. eapply last_Some_elem_of, Hlast.
  - apply (res_mapM_length _ _ _ Hcl).
Qed.

(** X11.  With [k] at least the number of instances (and at least 2),
    [k_cluster] returns the last clustering of the split sequence of
    [cluster_iter] with [minsplit = 1] and the default [maxsplit]; if that
    sequence is empty, the labelling of every instance with the root's
    label. *)
Theorem k_cluster_large_k (w : gmap nat (Tree Stats)) tree (X : list Instance)
    k md t_in lab w' cs :
  2 <= k -> Z.of_nat (length X) <= k ->
  w !! tree = Some t_in ->
  label_of t_in (root t_in) = Ok lab ->
  cluster w tree X 1 default_maxsplit md = (w', Ok cs) ->
  (k_cluster w tree X k md).2 = Ok (default (map (fun _ => lab) X) (last cs)).
Proof.
  intros Hk HX Hw Hlab Hcs. unfold k_cluster.
  rewrite (proj2 (Z.ltb_ge k 2)) by lia. rewrite Hw, (res_mapM_const _ X lab Hlab).
  rewrite (k_loop_exhaust _ _ _ k (map (fun _ => lab) X) _ _ Hcs). f_equal.
  apply bounded_k_all.
  eapply Forall_impl; [eapply cluster_lengths, Hcs|]. cbv beta.
  intros c Hc. pose proof (distinct_le_length c). lia.
Qed.

(** X12.  When a clustering of the split sequence has at most [k] labels,
    [k_cluster] returns a clustering of that sequence, and one with the most
    labels among those with at most [k] (for a tree that is well-formed once
    the instances are in). *)
Theorem k_cluster_maximal (w : gmap nat (Tree Stats)) tree (X : list Instance)
    k md t_in w' cs c :
  2 <= k ->
  w !! tree = Some t_in ->
  is_Some (nodes t_in !! root t_in) ->
  wf_tree (insert_all md t_in X).1 ->
  cluster w tree X 1 default_maxsplit md = (w', Ok cs) ->
  c ∈ cs -> Z.of_nat (distinct c) <= k ->
  exists res,
    (k_cluster w tree X k md).2 = Ok res /\ res ∈ cs /\
    Z.of_nat (distinct res) <= k /\ (distinct c <= distinct res)%nat.
Proof.
  intros Hk Hw [rn Hrn] Hwf Hcs Hin Hc.
  assert (Hlab : label_of t_in (root t_in) = Ok ("Concept" +:+ concept_id rn))
    by (unfold label_of; rewrite Hrn; reflexivity).
  set (cl := map (fun _ : Instance => "Concept" +:+ concept_id rn) X).
  assert (Hres : (k_cluster w tree X k md).2 = Ok (bounded_k k cl cs)).
  { unfold k_cluster. rewrite (proj2 (Z.ltb_ge k 2)) by lia.
    rewrite Hw, (res_mapM_const _ X _ Hlab). eapply k_loop_exhaust, Hcs. }
  destruct (bounded_k_max k cl cs c (cluster_rising _ _ _ _ _ _ _ _ _ Hw Hwf Hcs) Hin Hc)
    as [Hin' Hle].
  exists (bounded_k k cl cs). split; [exact Hres|]. split; [exact Hin'|].
  split; [|exact Hle].
  revert Hres. unfold k_cluster. rewrite (proj2 (Z.ltb_ge k 2)) by lia.
  rewrite Hw, (res_mapM_const _ X _ Hlab).
  destruct (k_loop _ _ _ _ _) as [w2 r] eqn:Hloop. cbn [snd]. intros ->.
  eapply k_loop_distinct; [|exact Hloop].
  pose proof (distinct_const ("Concept" +:+ concept_id rn) X). lia.
Qed.

(** X13.  On a tree that is well-formed once the instances are in, with
    ending ancestor walks from the recorded nodes, [k_cluster] returns a
    clustering for every [k >= 2], and with a greater [k] one with no fewer
    labels. *)
Theorem k_cluster_monotone_k (w : gmap nat (Tree Stats)) tree (X : list Instance)
    k1 k2 md t_in :
  2 <= k1 <= k2 ->
  w !! tree = Some t_in ->
  is_Some (nodes t_in !! root t_in) ->
  wf_tree (insert_all md t_in X).1 ->
  Forall (rooted (insert_all md t_in X).1) (insert_all md t_in X).2 ->
  exists c1 c2,
    (k_cluster w tree X k1 md).2 = Ok c1 /\
    (k_cluster w tree X k2 md).2 = Ok c2 /\
    (distinct c1 <= distinct c2)%nat.
Proof.
  intros Hk Hw [rn Hrn] Hwf Hr.
  assert (Hlab : label_of t_in (root t_in) = Ok ("Concept" +:+ concept_id rn))
    by (unfold label_of; rewrite Hrn; reflexivity).
  set (cl := map (fun _ : Instance => "Concept" +:+ concept_id rn) X).
  destruct (exhaust_total (gen_fuel (cluster_iter tree X 1 default_maxsplit md)) w
              (cluster_iter tree X 1 default_maxsplit md)) as (w' & cs & Hcs).
  { exists t_in. auto. }
  { unfold default_maxsplit. simpl. lia. }
  { reflexivity. }
  assert (Hres : forall k, 2 <= k -> (k_cluster w tree X k md).2 = Ok (bounded_k k cl cs)).
  { intros k Hk2. unfold k_cluster. rewrite (proj2 (Z.ltb_ge k 2)) by lia.
    rewrite Hw, (res_mapM_const _ X _ Hlab). eapply k_loop_exhaust, Hcs. }
  exists (bounded_k k1 cl cs), (bounded_k k2 cl cs).
  split; [apply Hres; lia|]. split; [apply Hres; lia|].
  apply bounded_k_mono; [lia|exact (cluster_rising _ _ _ _ _ _ _ _ _ Hw Hwf Hcs)|].
  intros c Hc.
  pose proof (cluster_lengths _ _ _ _ _ _ _ _ Hcs) as Hlen.
  rewrite Forall_forall in Hlen. specialize (Hlen c Hc).
  destruct X as [|x X'].
  - subst cl. simpl. rewrite distinct_nil. lia.
  - pose proof (distinct_const ("Concept" +:+ concept_id rn) (x :: X')) as H1.
    fold cl in H1. destruct c as [|a c]; [discriminate|].
    pose proof (distinct_cons_pos a c). lia.
Qed.

End ConsumerFacts.

Lemma cluster_returns_witness :
  exists w' cs,
    cluster (Ops := toy_ops) toy_store 5%nat toy_instances 1 3 true = (w', Ok cs) /\
    (1 = 1 -> cs <> []).
Proof.
  apply (cluster_returns (Ops := toy_ops) toy_store 5%nat toy_instances 1 3 true toy_tree).
  - lia.
  - reflexivity.
  - apply toy_tree_wf.
  - exact toy_rooted.
Defined.

Lemma consumers_keep_store_witness :
  (cluster (Ops := toy_ops) toy_store 5%nat toy_instances 1 10 true).1 !! 5%nat =
  Some toy_tree /\
  (k_cluster (Ops := toy_ops) toy_store 5%nat toy_instances 3 true).1 !! 5%nat =
  Some toy_tree.
Proof.
  apply (consumers_keep_store (Ops := toy_ops) toy_store 5%nat toy_instances 1 10 3 true).
  reflexivity.
Defined.

Lemma k_cluster_length_witness : length toy_cut1 = length toy_instances.
Proof.
  apply (k_cluster_length (Ops := toy_ops) toy_store 5%nat toy_instances 3 false
           (k_cluster (Ops := toy_ops) toy_store 5%nat toy_instances 3 false).1).
  vm_compute. reflexivity.
Defined.

(** Five instances and [k = 5]: the last clustering, every instance on its
    own. *)
Lemma k_cluster_large_k_witness :
  (k_cluster (Ops := toy_ops) toy_store 5%nat toy_instances 5 false).2 =
  Ok (default (map (fun _ => "Conceptr") toy_instances)
              (last [toy_cut0; toy_cut1; toy_cut2; toy_cut3])).
Proof.
  apply (k_cluster_large_k (Ops := toy_ops) toy_store 5%nat toy_instances 5 false toy_tree
           "Conceptr"
           (cluster (Ops := toy_ops) toy_store 5%nat toy_instances 1 default_maxsplit false).1).
  - lia.
  - simpl. lia.
  - reflexivity.
  - reflexivity.
  - vm_compute. reflexivity.
Defined.

(** With [k = 4] the toy run returns its third clustering, of four labels:
    no fewer than the second one, of three labels, has. *)
Lemma k_cluster_maximal_witness :
  exists res,
    (k_cluster (Ops := toy_ops) toy_store 5%nat toy_instances 4 false).2 = Ok res /\
    res ∈ [toy_cut0; toy_cut1; toy_cut2; toy_cut3] /\
    Z.of_nat (distinct res) <= 4 /\ (distinct toy_cut1 <= distinct res)%nat.
Proof.
  apply (k_cluster_maximal (Ops := toy_ops) toy_store 5%nat toy_instances 4 false toy_tree
           (cluster (Ops := toy_ops) toy_store 5%nat toy_instances 1 default_maxsplit false).1).
  - lia.
  - reflexivity.
  - eexists. reflexivity.
  - apply toy_tree_wf.
  - vm_compute. reflexivity.
  - apply list_elem_of_further, list_elem_of_here.
  - vm_compute. discriminate.
Defined.

Lemma k_cluster_monotone_k_witness :
  exists c1 c2,
    (k_cluster (Ops := toy_ops) toy_store 5%nat toy_instances 2 false).2 = Ok c1 /\
    (k_cluster (Ops := toy_ops) toy_store 5%nat toy_instances 4 false).2 = Ok c2 /\
    (distinct c1 <= distinct c2)%nat.
Proof.
  apply (k_cluster_monotone_k (Ops := toy_ops) toy_store 5%nat toy_instances 2 4 false
           toy_tree).
  - lia.
  - reflexivity.
  - eexists. reflexivity.
  - apply toy_tree_wf.
  - exact toy_rooted.
Defined.

(** ** The rows of [depth_labels] *)

Section LabelerRows.
Context {Stats Instance Score : Type} `{Ops : TreeOps Stats Instance Score}.

Lemma lineage_head (t : Tree Stats) c labs :
  lineage t c labs ->
  exists n, nodes t !! c = Some n /\ head labs = Some ("Concept" +:+ concept_id n).
Proof. destruct 1; eauto. Qed.

Lemma lineage_pos (t : Tree Stats) c labs : lineage t c labs -> (1 <= length labs)%nat.
Proof. intros H. eapply chain_pos, lineage_chain, H. Qed.

Lemma lineage_parent (t : Tree Stats) c labs n q :
  lineage t c labs -> nodes t !! c = Some n -> parent n = Some q ->
  (2 <= length labs)%nat.
Proof.
  intros H Hn Hq. destruct H as [c n' Hn' Hp|c n' p labs Hn' Hp Hl]; [congruence|].
  apply lineage_pos in Hl. simpl. lia.
Qed.

(** The label at the top of every chain is the root's. *)
Lemma lineage_last (t : Tree Stats) c labs r :
  wf_tree t -> nodes t !! root t = Some r -> lineage t c labs ->
  last labs = Some ("Concept" +:+ concept_id r).
Proof.
  intros Hwf Hr. induction 1 as [c n Hn Hp|c n p labs Hn Hp Hl IH].
  - rewrite (wf_sole t Hwf _ _ Hn Hp) in Hn. simpl. congruence.
  - rewrite last_cons, IH. reflexivity.
Qed.

(** The upper part of a chain is the chain of an ancestor. *)
Lemma lineage_drop (t : Tree Stats) c labs k :
  lineage t c labs -> (k < length labs)%nat -> exists x, lineage t x (drop k labs).
Proof.
  intros H; revert k. induction H as [c n Hn Hp|c n p labs Hn Hp Hl IH]; intros k Hk.
  - destruct k as [|k]; [|simpl in Hk; lia]. exists c. eapply lineage_top; eassumption.
  - destruct k as [|k].
    + exists c. eapply lineage_up; eassumption.
    + simpl. apply IH. simpl in Hk. lia.
Qed.

(** Two chains with a label in common are the same from that label up. *)
Lemma lineage_agree (t : Tree Stats) c1 c2 l1 l2 k1 k2 lab :
  wf_tree t -> lineage t c1 l1 -> lineage t c2 l2 ->
  l1 !! k1 = Some lab -> l2 !! k2 = Some lab -> drop k1 l1 = drop k2 l2.
Proof.
  intros Hwf H1 H2 Hk1 Hk2.
  destruct (lineage_drop _ _ _ k1 H1) as [x Hx]; [eapply lookup_lt_Some, Hk1|].
  destruct (lineage_drop _ _ _ k2 H2) as [y Hy]; [eapply lookup_lt_Some, Hk2|].
  destruct (lineage_head _ _ _ Hx) as (nx & Hnx & Hhx).
  destruct (lineage_head _ _ _ Hy) as (ny & Hny & Hhy).
  rewrite head_lookup, lookup_drop, Nat.add_0_r in Hhx, Hhy.
  assert (x = y).
  { eapply (wf_ids t Hwf); [exact Hnx|exact Hny|]. apply label_inj. congruence. }
  subst y. eapply lineage_fun; eassumption.
Qed.

(** The label the walk of [cluster_iter] gives is the one below the top of
    the chain, or the only one. *)
Lemma lineage_depth1 (t : Tree Stats) c labs x nx :
  lineage t c labs -> depth1 t c x -> nodes t !! x = Some nx ->
  labs !! (length labs - 1 - 1)%nat = Some ("Concept" +:+ concept_id nx).
Proof.
  intros H; revert x nx. induction H as [c n Hn Hp|c n p labs Hn Hp Hl IH]; intros x nx Hd Hx.
  - assert (x = c) by (eapply depth1_fun; [exact Hd|eapply depth1_orphan; eassumption]).
    subst x. simpl. congruence.
  - destruct (lineage_head _ _ _ Hl) as (pn & Hpn & _).
    destruct (parent pn) as [q|] eqn:Hq.
    + pose proof (lineage_parent _ _ _ _ _ Hl Hpn Hq) as Hlen.
      assert (Hdp : depth1 t p x).
      { apply (depth1_up_inv t c n p pn x Hn Hp Hpn); [rewrite Hq; eauto|exact Hd]. }
      specialize (IH _ _ Hdp Hx). simpl length.
      replace (S (length labs) - 1 - 1)%nat with (S (length labs - 1 - 1)) by lia.
      exact IH.
    + assert (x = c) by (eapply depth1_fun; [exact Hd|eapply depth1_here; eassumption]).
      subst x.
      assert (labs = ["Concept" +:+ concept_id pn])
        by (eapply lineage_fun; [exact Hl|eapply lineage_top; eassumption]).
      subst labs. simpl. congruence.
Qed.

(** The cell of depth [d] in the column of an instance: the label [d] places
    below the top of its chain, and the label at the bottom of the chain from
    there on. *)
Lemma depth_labels_cells (w : gmap nat (Tree Stats)) tree (X : list Instance) md t_in :
  w !! tree = Some t_in ->
  X <> [] ->
  Forall (rooted (insert_all md t_in X).1) (insert_all md t_in X).2 ->
  exists out lins,
    (depth_labels w tree X md).2 = Ok out /\
    Forall2 (lineage (insert_all md t_in X).1) (insert_all md t_in X).2 lins /\
    length out = max_list (length <$> lins) /\
    forall d row, out !! d = Some row ->
      length row = length lins /\
      forall i lin, lins !! i = Some lin -> row !! i = lin !! (length lin - 1 - d)%nat.
Proof.
  intros Hw HX Hrooted.
  destruct (fit_all_spec w tree X md t_in Hw) as (w1 & Hfit & Hw1).
  pose proof (insert_all_length md t_in X) as Hlen.
  unfold depth_labels. rewrite Hfit, Hw1.
  set (t0 := (insert_all md t_in X).1) in *.
  set (temp := (insert_all md t_in X).2) in *.
  cbn [snd].
  destruct (res_mapM_total (ancestry (size (nodes t0)) t0) temp) as [lins Hlins].
  { eapply Forall_impl; [exact Hrooted|]. intros leaf [k Hk].
    eapply ancestry_total; [exact Hk|]. eapply chain_bound, Hk. }
  rewrite Hlins. cbn [mbind res_bind].
  assert (Hlin : Forall2 (lineage t0) temp lins).
  { apply res_mapM_Forall2 in Hlins. eapply Forall2_impl; [exact Hlins|].
    intros leaf lin. apply ancestry_lineage. }
  rewrite max_depth_of_max. set (M := max_list (length <$> lins)).
  assert (Hpad : forall i lin, lins !! i = Some lin ->
            (1 <= length lin <= M)%nat /\
            exists lab, head lin = Some lab /\
              pad_labels M lin = Ok (reverse lin ++ replicate (M - length lin) lab)).
  { intros i lin Hi. split; [split|].
    - destruct (Forall2_lookup_r _ _ _ _ _ Hlin Hi) as (leaf & _ & Hl).
      eapply lineage_pos, Hl.
    - apply max_list_elem_of_le, list_elem_of_fmap. exists lin.
      split; [reflexivity|]. eapply list_elem_of_lookup_2, Hi.
    - destruct (Forall2_lookup_r _ _ _ _ _ Hlin Hi) as (leaf & _ & Hl).
      apply lineage_pos in Hl.
      destruct (pad_labels_spec M lin) as (lab & Hlast & Hp).
      { intros ->. simpl in Hl. lia. }
      rewrite last_reverse in Hlast. eauto. }
  destruct (res_mapM_total (pad_labels M) lins) as [padded Hpadded].
  { apply Forall_forall. intros lin Hin. apply list_elem_of_lookup in Hin as [i Hi].
    destruct (Hpad i lin Hi) as (_ & lab & _ & ->). eauto. }
  rewrite Hpadded. cbn [mbind res_bind].
  apply res_mapM_Forall2 in Hpadded.
  destruct (transpose_spec padded M) as (out & Hout & HlenM & Hcells).
  { intros ->. apply Forall2_length in Hpadded. apply Forall2_length in Hlin.
    simpl in Hpadded. destruct X; [congruence|]. simpl in Hlen. lia. }
  { apply Forall_forall. intros col Hin. apply list_elem_of_lookup in Hin as [i Hi].
    destruct (Forall2_lookup_r _ _ _ _ _ Hpadded Hi) as (lin & Hli & Hp).
    destruct (Hpad i lin Hli) as (Hle & lab & _ & Hp').
    assert (col = reverse lin ++ replicate (M - length lin) lab) by congruence. subst col.
    rewrite length_app, length_reverse, length_replicate. lia. }
  exists out, lins. split; [exact Hout|]. split; [exact Hlin|].
  split; [exact HlenM|].
  intros d row Hd. destruct (Hcells d row Hd) as [Hrow Hcell]. split.
  - rewrite Hrow. symmetry. eapply Forall2_length, Hpadded.
  - intros i lin Hi.
    destruct (Forall2_lookup_l _ _ _ _ _ Hpadded Hi) as (col & Hc & Hp).
    destruct (Hpad i lin Hi) as (Hle & lab & Hhead & Hp').
    assert (col = reverse lin ++ replicate (M - length lin) lab) by congruence. subst col.
    rewrite (Hcell _ _ Hc).
    assert (d < M)%nat by (rewrite <- HlenM; eapply lookup_lt_Some, Hd).
    destruct (decide (d < length lin)%nat) as [Hlt|Hge].
    + rewrite lookup_app_l by (rewrite length_reverse; exact Hlt).
      rewrite reverse_lookup by exact Hlt. f_equal. lia.
    + rewrite lookup_app_r by (rewrite length_reverse; lia).
      rewrite lookup_replicate_2 by (rewrite length_reverse; lia).
      replace (length lin - 1 - d)%nat with 0%nat by lia.
      rewrite <- head_lookup. symmetry. exact Hhead.
Qed.

(** What a call that returns says about its arguments. *)
Lemma depth_labels_ok_inv (w : gmap nat (Tree Stats)) tree (X : list Instance) md t_in out :
  w !! tree = Some t_in ->
  (depth_labels w tree X md).2 = Ok out ->
  X <> [] /\ Forall (rooted (insert_all md t_in X).1) (insert_all md t_in X).2.
Proof.
  intros Hw. destruct (fit_all_spec w tree X md t_in Hw) as (w1 & Hfit & Hw1).
  unfold depth_labels. rewrite Hfit, Hw1. cbn [snd].
  destruct (res_mapM _ (insert_all md t_in X).2) as [lins|e] eqn:Hlins;
    cbn [mbind res_bind]; [|discriminate].
  intros Hout. split.
  - intros ->. simpl in Hlins. injection Hlins as <-. discriminate.
  - apply res_mapM_Forall2 in Hlins. apply Forall_forall. intros leaf Hleaf.
    apply list_elem_of_lookup in Hleaf as [i Hi].
    destruct (Forall2_lookup_l _ _ _ _ _ Hlins Hi) as (lin & _ & Hl).
    exists (length lin). eapply lineage_chain, ancestry_lineage, Hl.
Qed.

(** X14.  The first row [depth_labels] returns is the root cut: the root's
    label for every instance (on a tree that is well-formed once the
    instances are in). *)
Theorem depth_labels_first_row (w : gmap nat (Tree Stats)) tree (X : list Instance)
    md t_in r out :
  w !! tree = Some t_in ->
  wf_tree (insert_all md t_in X).1 ->
  nodes (insert_all md t_in X).1 !! root (insert_all md t_in X).1 = Some r ->
  (depth_labels w tree X md).2 = Ok out ->
  head out = Some (replicate (length X) ("Concept" +:+ concept_id r)).
Proof.
  intros Hw Hwf Hr Hout.
  destruct (depth_labels_ok_inv _ _ _ _ _ _ Hw Hout) as [HX Hrooted].
  destruct (depth_labels_cells w tree X md t_in Hw HX Hrooted)
    as (out' & lins & Hout' & Hlin & HlenM & Hcells).
  assert (out' = out) by congruence. subst out'.
  pose proof (insert_all_length md t_in X) as Hlen.
  pose proof (Forall2_length _ _ _ Hlin) as Hlen'.
  destruct out as [|row0 out].
  - exfalso. simpl in HlenM. destruct lins as [|lin lins].
    + destruct X; [congruence|]. simpl in *. lia.
    + inversion Hlin as [|leaf ? ? ? Hl _]; subst. apply lineage_pos in Hl.
      rewrite fmap_cons in HlenM. simpl in HlenM. unfold id in HlenM. lia.
  - simpl. f_equal. destruct (Hcells 0%nat row0 eq_refl) as [Hrow Hcell].
    symmetry. apply replicate_as_elem_of. split; [lia|].
    intros lab Hlab. apply list_elem_of_lookup in Hlab as [i Hi].
    destruct (lookup_lt_is_Some_2 lins i) as [lin Hli];
      [rewrite <- Hrow; eapply lookup_lt_Some, Hi|].
    rewrite (Hcell _ _ Hli), Nat.sub_0_r in Hi.
    destruct (Forall2_lookup_r _ _ _ _ _ Hlin Hli) as (leaf & _ & Hl).
    pose proof (lineage_last _ _ _ _ Hwf Hr Hl) as Hlast.
    rewrite last_lookup in Hlast.
    replace (Init.Nat.pred (length lin)) with (length lin - 1)%nat in Hlast by lia.
    congruence.
Qed.

(** X15.  The last row [depth_labels] returns is the leaf cut: for every
    instance the label of the node recorded for it. *)
Theorem depth_labels_last_row (w : gmap nat (Tree Stats)) tree (X : list Instance)
    md t_in out :
  w !! tree = Some t_in ->
  (depth_labels w tree X md).2 = Ok out ->
  exists row,
    last out = Some row /\
    Forall2 (fun leaf lab => label_of (insert_all md t_in X).1 leaf = Ok lab)
            (insert_all md t_in X).2 row.
Proof.
  intros Hw Hout.
  destruct (depth_labels_ok_inv _ _ _ _ _ _ Hw Hout) as [HX Hrooted].
  destruct (depth_labels_cells w tree X md t_in Hw HX Hrooted)
    as (out' & lins & Hout' & Hlin & HlenM & Hcells).
  assert (out' = out) by congruence. subst out'.
  pose proof (insert_all_length md t_in X) as Hlen.
  pose proof (Forall2_length _ _ _ Hlin) as Hlen'.
  destruct (last out) as [row|] eqn:Hlast.
  - exists row. split; [reflexivity|].
    rewrite last_lookup in Hlast. destruct (Hcells _ row Hlast) as [Hrow Hcell].
    apply Forall2_same_length_lookup. split; [lia|].
    intros i leaf lab Hleaf Hlab.
    destruct (Forall2_lookup_l _ _ _ _ _ Hlin Hleaf) as (lin & Hli & Hl).
    rewrite (Hcell _ _ Hli) in Hlab.
    assert (length lin <= length out)%nat.
    { rewrite HlenM. apply max_list_elem_of_le, list_elem_of_fmap. exists lin.
      split; [reflexivity|]. eapply list_elem_of_lookup_2, Hli. }
    replace (length lin - 1 - Init.Nat.pred (length out))%nat with 0%nat in Hlab by lia.
    destruct (lineage_head _ _ _ Hl) as (n & Hn & Hhead).
    rewrite head_lookup in Hhead. unfold label_of. rewrite Hn. congruence.
  - exfalso. apply last_None in Hlast. subst out. simpl in HlenM.
    destruct lins as [|lin lins].
    + destruct X; [congruence|]. simpl in *. lia.
    + inversion Hlin as [|leaf ? ? ? Hl _]; subst. apply lineage_pos in Hl.
      rewrite fmap_cons in HlenM. simpl in HlenM. unfold id in HlenM. lia.
Qed.

(** X16.  The second row [depth_labels] returns, the cut below the root, is
    the one clustering [cluster] returns with [minsplit = maxsplit = 1] for
    the same arguments (on a tree that is well-formed once the instances are
    in). *)
Theorem depth_labels_depth1_is_cluster (w : gmap nat (Tree Stats)) tree
    (X : list Instance) md t_in out row1 :
  w !! tree = Some t_in ->
  wf_tree (insert_all md t_in X).1 ->
  (depth_labels w tree X md).2 = Ok out ->
  out !! 1%nat = Some row1 ->
  (cluster w tree X 1 1 md).2 = Ok [row1].
Proof.
  intros Hw Hwf Hout Hrow1.
  destruct (depth_labels_ok_inv _ _ _ _ _ _ Hw Hout) as [HX Hrooted].
  destruct (depth_labels_cells w tree X md t_in Hw HX Hrooted)
    as (out' & lins & Hout' & Hlin & HlenM & Hcells).
  assert (out' = out) by congruence. subst out'.
  destruct (Hcells _ _ Hrow1) as [Hrow Hcell].
  rewrite (cluster_splits w tree X 1 1 md t_in) by (lia || exact Hw).
  set (t0 := (insert_all md t_in X).1) in *.
  set (temp := (insert_all md t_in X).2) in *.
  change (Z.to_nat 1) with 1%nat. rewrite splits_seq_S.
  change (1 >=? 1) with true. cbv iota.
  destruct (clusters_of_total t0 temp Hrooted) as [c Hc]. rewrite Hc. cbn [mbind res_bind].
  assert (Hrest : splits_rest 1 temp 1 1 t0 = Ok []).
  { cbn [splits_rest]. destruct (split_cus_total t0 Hwf) as [cus Hcus].
    rewrite Hcus. cbn [mbind res_bind].
    destruct (last cus) as [[[g i] best]|] eqn:Hlast; [|reflexivity].
    destruct (split_cus_last_in _ _ _ _ _ Hcus Hlast) as (r & nb & Hr & _ & Hnb & _).
    destruct (split_total t0 best r nb Hr Hnb) as [t1 ->]. reflexivity. }
  rewrite Hrest. cbn [mbind res_bind]. f_equal. f_equal.
  pose proof (clusters_of_length _ _ _ Hc) as Hlenc.
  pose proof (Forall2_length _ _ _ Hlin) as Hlen'.
  apply clusters_of_spec in Hc.
  apply (list_eq_same_length _ _ (length temp)); [lia|exact Hlenc|].
  intros i x y Hi Hx Hy.
  destruct (Forall2_lookup_r _ _ _ _ _ Hc Hx) as (leaf & Hleaf & x0 & nx & Hd & Hnx & ->).
  destruct (Forall2_lookup_l _ _ _ _ _ Hlin Hleaf) as (lin & Hli & Hl).
  rewrite (Hcell _ _ Hli), (lineage_depth1 _ _ _ _ _ Hl Hd Hnx) in Hy. congruence.
Qed.

(** X17.  The rows [depth_labels] returns are nested cuts: two instances
    with the same label in a row have the same label in every row above it
    (on a tree that is well-formed once the instances are in). *)
Theorem depth_labels_nested (w : gmap nat (Tree Stats)) tree (X : list Instance)
    md t_in out d d' row row' :
  w !! tree = Some t_in ->
  wf_tree (insert_all md t_in X).1 ->
  (depth_labels w tree X md).2 = Ok out ->
  (d <= d')%nat -> out !! d = Some row -> out !! d' = Some row' ->
  forall a b, row' !! a = row' !! b -> row !! a = row !! b.
Proof.
  intros Hw Hwf Hout Hdd Hd Hd' a b Hab.
  destruct (depth_labels_ok_inv _ _ _ _ _ _ Hw Hout) as [HX Hrooted].
  destruct (depth_labels_cells w tree X md t_in Hw HX Hrooted)
    as (out' & lins & Hout' & Hlin & HlenM & Hcells).
  assert (out' = out) by congruence. subst out'.
  destruct (Hcells _ _ Hd) as [Hrow Hcell].
  destruct (Hcells _ _ Hd') as [Hrow' Hcell'].
  destruct (row' !! a) as [lab|] eqn:Ha.
  - symmetry in Hab.
    destruct (lookup_lt_is_Some_2 lins a) as [la Hla];
      [rewrite <- Hrow'; eapply lookup_lt_Some, Ha|].
    destruct (lookup_lt_is_Some_2 lins b) as [lb Hlb];
      [rewrite <- Hrow'; eapply lookup_lt_Some, Hab|].
    rewrite (Hcell _ _ Hla), (Hcell _ _ Hlb).
    rewrite (Hcell' _ _ Hla) in Ha. rewrite (Hcell' _ _ Hlb) in Hab.
    destruct (Forall2_lookup_r _ _ _ _ _ Hlin Hla) as (leafa & _ & Hlina).
    destruct (Forall2_lookup_r _ _ _ _ _ Hlin Hlb) as (leafb & _ & Hlinb).
    pose proof (lineage_agree _ _ _ _ _ _ _ _ Hwf Hlina Hlinb Ha Hab) as Hdrop.
    pose proof (lineage_pos _ _ _ Hlina) as Hpa.
    pose proof (lineage_pos _ _ _ Hlinb) as Hpb.
    assert (Hlen : (length la - (length la - 1 - d') = length lb - (length lb - 1 - d'))%nat).
    { pose proof (f_equal length Hdrop) as Hl. rewrite !length_drop in Hl. exact Hl. }
    replace (length la - 1 - d)%nat
      with ((length la - 1 - d') + ((length la - 1 - d) - (length la - 1 - d')))%nat by lia.
    replace (length lb - 1 - d)%nat
      with ((length lb - 1 - d') + ((length la - 1 - d) - (length la - 1 - d')))%nat by lia.
    rewrite <- (lookup_drop la), <- (lookup_drop lb), Hdrop. reflexivity.
  - symmetry in Hab. apply lookup_ge_None in Ha, Hab.
    rewrite (proj2 (lookup_ge_None row a)), (proj2 (lookup_ge_None row b)) by lia.
    reflexivity.
Qed.

End LabelerRows.

Lemma depth_labels_first_row_witness :
  head [["Conceptr"; "Conceptr"; "Conceptr"; "Conceptr"; "Conceptr"];
        toy_cut0; toy_cut2; toy_cut3] =
  Some (replicate (length toy_instances) "Conceptr").
Proof.
  apply (depth_labels_first_row (Ops := toy_ops) toy_store 5%nat toy_instances true toy_tree
           (mkNode "r" None [1; 2]%nat tt)).
  - reflexivity.
  - apply toy_tree_wf.
  - reflexivity.
  - vm_compute. reflexivity.
Defined.

Lemma depth_labels_last_row_witness :
  exists row,
    last [["Conceptr"; "Conceptr"; "Conceptr"; "Conceptr"; "Conceptr"];
          toy_cut0; toy_cut2; toy_cut3] = Some row /\
    Forall2 (fun leaf lab => label_of toy_tree leaf = Ok lab) toy_instances row.
Proof.
  apply (depth_labels_last_row (Ops := toy_ops) toy_store 5%nat toy_instances true toy_tree).
  - reflexivity.
  - vm_compute. reflexivity.
Defined.

Lemma depth_labels_depth1_is_cluster_witness :
  (cluster (Ops := toy_ops) toy_store 5%nat toy_instances 1 1 true).2 = Ok [toy_cut0].
Proof.
  apply (depth_labels_depth1_is_cluster (Ops := toy_ops) toy_store 5%nat toy_instances true
           toy_tree
           [["Conceptr"; "Conceptr"; "Conceptr"; "Conceptr"; "Conceptr"];
            toy_cut0; toy_cut2; toy_cut3]).
  - reflexivity.
  - apply toy_tree_wf.
  - vm_compute. reflexivity.
  - reflexivity.
Defined.

(** The instances on [g] and [h], together under [c] in the third row of the
    toy tree's depth cuts, are together in the second. *)
Lemma depth_labels_nested_witness :
  toy_cut0 !! 0%nat = toy_cut0 !! 1%nat.
Proof.
  apply (depth_labels_nested (Ops := toy_ops) toy_store 5%nat toy_instances true toy_tree
           [["Conceptr"; "Conceptr"; "Conceptr"; "Conceptr"; "Conceptr"];
            toy_cut0; toy_cut2; toy_cut3] 1 2 toy_cut0 toy_cut2).
  - reflexivity.
  - apply toy_tree_wf.
  - vm_compute. reflexivity.
  - lia.
  - reflexivity.
  - reflexivity.
  - reflexivity.
Defined.

(** ** One instance at a time *)

Section Pointwise.
Context {Stats Instance Score : Type} `{Ops : TreeOps Stats Instance Score}.

Lemma clusters_of_lookup (t : Tree Stats) temp c i leaf :
  clusters_of t temp = Ok c -> temp !! i = Some leaf ->
  clusters_of t [leaf] = Ok (option_list (c !! i)).
Proof.
  unfold clusters_of. intros Hc Hi. apply res_mapM_Forall2 in Hc.
  destruct (Forall2_lookup_l _ _ _ _ _ Hc Hi) as (l & -> & Hl).
  cbn [res_mapM]. rewrite Hl. reflexivity.
Qed.

(** The splits do not depend on the recorded nodes, and the label of a
    recorded node does not depend on the others. *)
Lemma splits_seq_pointwise ms temp rem n (t : Tree Stats) cs i leaf :
  splits_seq ms temp rem n t = Ok cs -> temp !! i = Some leaf ->
  splits_seq ms [leaf] rem n t = Ok (map (fun c => option_list (c !! i)) cs).
Proof.
  intros H Hi. revert n t cs H. induction rem as [|rem IH]; intros n t cs.
  - intros [= <-]. reflexivity.
  - rewrite !splits_seq_S.
    assert (Hrest : forall cs0, splits_rest ms temp (S rem) n t = Ok cs0 ->
              splits_rest ms [leaf] (S rem) n t =
              Ok (map (fun c => option_list (c !! i)) cs0)).
    { intros cs0 Hrest.
      apply splits_rest_inv in Hrest as [(cus & Hcus & Hlast & ->)|(t' & Hstep & Hseq)].
      - rewrite (splits_rest_end _ _ _ _ _ _ Hcus Hlast). reflexivity.
      - rewrite (splits_rest_step _ _ _ _ _ _ Hstep). apply IH, Hseq. }
    destruct (n >=? ms); [|apply Hrest].
    destruct (clusters_of t temp) as [c|e] eqn:Hc; cbn [mbind res_bind]; [|discriminate].
    destruct (splits_rest ms temp (S rem) n t) as [cs0|e];
      cbn [mbind res_bind]; [|discriminate].
    intros [= <-]. rewrite (clusters_of_lookup _ _ _ _ _ Hc Hi), (Hrest cs0 eq_refl).
    reflexivity.
Qed.

(** X18.  With [mod = False] the labels of an instance do not depend on the
    other instances: [cluster] called with the one instance at position [i]
    of a list returns the labels at position [i] of the clusterings it
    returns for the list. *)
Theorem cluster_pointwise (w : gmap nat (Tree Stats)) tree (X : list Instance)
    ms Ms w' cs i x :
  cluster w tree X ms Ms false = (w', Ok cs) ->
  X !! i = Some x ->
  (cluster w tree [x] ms Ms false).2 = Ok (map (fun c => option_list (c !! i)) cs).
Proof.
  intros Hcl Hi. destruct (cluster_ok_args _ _ _ _ _ _ _ _ Hcl) as [Hms [t_in Hw]].
  pose proof (cluster_splits w tree X ms Ms false t_in Hms Hw) as Hseq.
  rewrite Hcl in Hseq. cbn [snd] in Hseq. symmetry in Hseq.
  rewrite (cluster_splits w tree [x] ms Ms false t_in Hms Hw).
  rewrite insert_all_false in *. cbn [fst snd] in *.
  apply (splits_seq_pointwise ms (map (categorize t_in) X) _ _ _ cs i); [exact Hseq|].
  change (map (categorize t_in) X) with (categorize t_in <$> X).
  rewrite list_lookup_fmap, Hi. reflexivity.
Qed.

End Pointwise.

(** The fourth instance of the toy list, the one on [e], by itself. *)
Lemma cluster_pointwise_witness :
  (cluster (Ops := toy_ops) toy_store 5%nat [5%nat] 1 10 false).2 =
  Ok (map (fun c => option_list (c !! 3%nat)) [toy_cut0; toy_cut1; toy_cut2; toy_cut3]).
Proof.
  apply (cluster_pointwise (Ops := toy_ops) toy_store 5%nat toy_instances 1 10
           (cluster (Ops := toy_ops) toy_store 5%nat toy_instances 1 10 false).1).
  - vm_compute. reflexivity.
  - reflexivity.
Defined.

(** ** One call after the other *)

Section Traces.
Context {Stats Instance Score : Type} `{Ops : TreeOps Stats Instance Score}.

Lemma k_loop_sim fuel (a b : gmap nat (Tree Stats) * gen (Instance := Instance)) k cl :
  gen_sim a b -> (k_loop fuel a.1 a.2 k cl).2 = (k_loop fuel b.1 b.2 k cl).2.
Proof.
  revert a b cl. induction fuel as [|fuel IH]; intros [w g] [w_ g_] cl Hsim; [reflexivity|].
  cbn [k_loop fst snd].
  destruct (gen_next w g) as [[w1 g1] s] eqn:H1.
  destruct (gen_next w_ g_) as [[w1_ g1_] s_] eqn:H2.
  destruct (gen_next_sim (w, g) (w_, g_) _ _ _ _ _ _ Hsim H1 H2) as [<- Hsim1].
  destruct s as [c| |e]; [|reflexivity|reflexivity].
  destruct (Z.of_nat (distinct c) >? k); [reflexivity|].
  exact (IH (w1, g1) (w1_, g1_) c Hsim1).
Qed.

(** What the three entry points return depends on the store only through
    the tree they are called with. *)
Lemma cluster_same_tree (w w_ : gmap nat (Tree Stats)) tree (X : list Instance) ms Ms md :
  w !! tree = w_ !! tree ->
  (cluster w tree X ms Ms md).2 = (cluster w_ tree X ms Ms md).2.
Proof.
  intros Heq. unfold cluster.
  apply (exhaust_sim _ (w, cluster_iter tree X ms Ms md) (w_, cluster_iter tree X ms Ms md)).
  unfold gen_sim, cluster_iter. simpl. auto.
Qed.

Lemma k_cluster_same_tree (w w_ : gmap nat (Tree Stats)) tree (X : list Instance) k md :
  w !! tree = w_ !! tree ->
  (k_cluster w tree X k md).2 = (k_cluster w_ tree X k md).2.
Proof.
  intros Heq. unfold k_cluster. destruct (k <? 2); [reflexivity|]. rewrite <- Heq.
  destruct (w !! tree) as [t|] eqn:Hw; [|reflexivity].
  destruct (res_mapM _ X) as [cl|e]; [|reflexivity].
  apply (k_loop_sim _ (w, cluster_iter tree X 1 default_maxsplit md)
                      (w_, cluster_iter tree X 1 default_maxsplit md)).
  unfold gen_sim, cluster_iter. simpl. rewrite Hw. auto.
Qed.

Lemma depth_labels_same_tree (w w_ : gmap nat (Tree Stats)) tree (X : list Instance) md :
  w !! tree = w_ !! tree ->
  (depth_labels w tree X md).2 = (depth_labels w_ tree X md).2.
Proof.
  intros Heq. destruct (w !! tree) as [t_in|] eqn:Hw.
  - destruct (fit_all_spec w tree X md t_in Hw) as (w1 & Hfit & Hw1).
    destruct (fit_all_spec w_ tree X md t_in (eq_sym Heq)) as (w1_ & Hfit_ & Hw1_).
    unfold depth_labels. rewrite Hfit, Hfit_, Hw1, Hw1_. reflexivity.
  - unfold depth_labels, fit_all. rewrite <- Heq, Hw. reflexivity.
Qed.

(** X19.  A call of [cluster] or [k_cluster] leaves no trace, also with
    [mod = True]: what a later call of [cluster], [k_cluster] or
    [depth_labels] on a tree of the caller returns is what it would have
    returned without the call before; the instances fitted with [mod = True]
    are lost with the copy.  [depth_labels] with [mod = True] does leave
    one: the caller's tree object then holds the tree with the instances
    in. *)
Theorem consumers_leave_no_trace (w : gmap nat (Tree Stats)) tree (X : list Instance)
    ms Ms k md tree2 (X2 : list Instance) ms2 Ms2 k2 md2 t2 :
  w !! tree2 = Some t2 ->
  (forall w1,
     w1 = (cluster w tree X ms Ms md).1 \/ w1 = (k_cluster w tree X k md).1 ->
     (cluster w1 tree2 X2 ms2 Ms2 md2).2 = (cluster w tree2 X2 ms2 Ms2 md2).2 /\
     (k_cluster w1 tree2 X2 k2 md2).2 = (k_cluster w tree2 X2 k2 md2).2 /\
     (depth_labels w1 tree2 X2 md2).2 = (depth_labels w tree2 X2 md2).2) /\
  (depth_labels w tree2 X2 true).1 !! tree2 = Some (insert_all true t2 X2).1.
Proof.
  intros Hw2. split.
  - intros w1 Hw1.
    assert (Heq : w1 !! tree2 = w !! tree2).
    { assert (Hdom : tree2 ∈ dom w) by (apply elem_of_dom; eauto).
      destruct Hw1 as [-> | ->].
      - unfold cluster.
        destruct (exhaust_advances (gen_fuel (cluster_iter tree X ms Ms md)) w
                    (cluster_iter tree X ms Ms md)) as [g' Hadv].
        apply (rtc_next_step_keeps w) in Hadv; [exact (proj1 Hadv tree2 Hdom)|].
        split; reflexivity.
      - unfold k_cluster. destruct (k <? 2); [reflexivity|].
        destruct (w !! tree) as [t|]; [|reflexivity].
        destruct (res_mapM _ X) as [cl|e]; [|reflexivity].
        destruct (k_loop_advances (gen_fuel (cluster_iter tree X 1 default_maxsplit md)) w
                    (cluster_iter tree X 1 default_maxsplit md) k cl) as [g' Hadv].
        apply (rtc_next_step_keeps w) in Hadv; [exact (proj1 Hadv tree2 Hdom)|].
        split; reflexivity. }
    split; [apply cluster_same_tree, Heq|].
    split; [apply k_cluster_same_tree, Heq|apply depth_labels_same_tree, Heq].
  - destruct (fit_all_spec w tree2 X2 true t2 Hw2) as (w1 & Hfit & Hw1).
    unfold depth_labels. rewrite Hfit, Hw1. exact Hw1.
Qed.

End Traces.

Lemma consumers_leave_no_trace_witness :
  (forall w1,
     w1 = (cluster (Ops := marking_ops) toy_store 5%nat [7%nat] 1 10 true).1 \/
     w1 = (k_cluster (Ops := marking_ops) toy_store 5%nat [7%nat] 3 true).1 ->
     (cluster (Ops := marking_ops) w1 5%nat [8%nat] 1 2 true).2 =
     (cluster (Ops := marking_ops) toy_store 5%nat [8%nat] 1 2 true).2 /\
     (k_cluster (Ops := marking_ops) w1 5%nat [8%nat] 2 true).2 =
     (k_cluster (Ops := marking_ops) toy_store 5%nat [8%nat] 2 true).2 /\
     (depth_labels (Ops := marking_ops) w1 5%nat [8%nat] true).2 =
     (depth_labels (Ops := marking_ops) toy_store 5%nat [8%nat] true).2) /\
  (depth_labels (Ops := marking_ops) toy_store 5%nat [8%nat] true).1 !! 5%nat =
  Some (insert_all (Ops := marking_ops) true toy_tree [8%nat]).1.
Proof.
  apply (consumers_leave_no_trace (Ops := marking_ops) toy_store 5%nat [7%nat] 1 10 3 true
           5%nat [8%nat] 1 2 2 true toy_tree).
  reflexivity.
Defined.

(** With the marking collaborator the difference shows: a second
    [depth_labels] call sees the instance of the first in the root's name, a
    [depth_labels] call after a [cluster] call does not. *)
Example depth_labels_leaves_trace :
  (depth_labels (Ops := marking_ops) toy_store 5%nat [8%nat] true).2 =
  Ok [["Conceptr'"]; ["Concepta"]; ["Conceptc"]; ["Concepth"]] /\
  (depth_labels (Ops := marking_ops)
     (depth_labels (Ops := marking_ops) toy_store 5%nat [8%nat] true).1
     5%nat [8%nat] true).2 =
  Ok [["Conceptr''"]; ["Concepta"]; ["Conceptc"]; ["Concepth"]] /\
  (depth_labels (Ops := marking_ops)
     (cluster (Ops := marking_ops) toy_store 5%nat [8%nat] 1 10 true).1
     5%nat [8%nat] true).2 =
  Ok [["Conceptr'"]; ["Concepta"]; ["Conceptc"]; ["Concepth"]].
Proof. repeat split; vm_compute; reflexivity. Qed.

(** ** Sorting the candidates *)

Section SortKeys.
Context {Stats Instance Score : Type} `{Ops : TreeOps Stats Instance Score}.

(** The positions in the comprehension of lines 64-66 rise strictly. *)
Lemma candidates_positions (t : Tree Stats) i0 cs l :
  candidates t i0 cs = Ok l ->
  Forall (fun a => (i0 <= a.1.2)%nat) l /\
  forall p q a b, (p < q)%nat -> l !! p = Some a -> l !! q = Some b ->
    (a.1.2 < b.1.2)%nat.
Proof.
  revert i0 l; induction cs as [|c0 cs IH]; intros i0 l; simpl.
  - intros [= <-]. split; [constructor|]. intros p q a b _ Hp. discriminate.
  - destruct (nodes t !! c0) as [n0|]; [|discriminate].
    destruct (candidates t (S i0) cs) as [rest|] eqn:Hrest; simpl; [|discriminate].
    destruct (IH _ _ Hrest) as [Hlow Hrise].
    assert (Hlow' : Forall (fun a : Score * nat * nat => (i0 <= a.1.2)%nat) rest).
    { eapply Forall_impl; [exact Hlow|]. cbv beta. intros a Ha. lia. }
    intros [= <-]. destruct (children n0) as [|k ks]; [split; assumption|].
    split; [constructor; [simpl; lia|exact Hlow']|].
    intros p q a b Hpq Hp Hq. destruct q as [|q]; [lia|]. simpl in Hq.
    destruct p as [|p]; simpl in Hp.
    + injection Hp as <-. simpl. rewrite Forall_forall in Hlow.
      apply (Hlow b). eapply list_elem_of_lookup_2, Hq.
    + apply (Hrise p q); [lia|exact Hp|exact Hq].
Qed.

(** X20.  Sorting [split_cus] never compares two node objects: two entries
    of the list that is sorted differ in their position [i], so [<] on the
    triples is decided by the gains or by the positions, whatever the
    comparison of nodes would give, a TypeError included. *)
Theorem candidates_never_compare_nodes (t : Tree Stats) i0 cs l p q a b node_lt :
  candidates t i0 cs = Ok l ->
  l !! p = Some a -> l !! q = Some b -> p <> q ->
  triple_lt_with node_lt a b = Some (triple_lt a b).
Proof.
  intros Hl Hp Hq Hpq. destruct (candidates_positions _ _ _ _ Hl) as [_ Hrise].
  assert (Hne : a.1.2 <> b.1.2).
  { destruct (Nat.lt_total p q) as [Hlt|[Heq|Hgt]]; [|contradiction|].
    - pose proof (Hrise p q a b Hlt Hp Hq). lia.
    - pose proof (Hrise q p b a Hgt Hq Hp). lia. }
  destruct a as [[g1 i1] c1], b as [[g2 i2] c2]. simpl in Hne.
  unfold triple_lt_with, triple_lt.
  destruct (score_eqb g1 g2); [|reflexivity].
  rewrite (proj2 (Nat.eqb_neq i1 i2) Hne). reflexivity.
Qed.

End SortKeys.

(** The two candidates of the toy tree, [a] at position 0 and [b] at position
    1, with the same gain and nodes that cannot be compared. *)
Lemma candidates_never_compare_nodes_witness :
  triple_lt_with (Ops := toy_ops) (fun _ _ => None) (2, 0%nat, 1%nat) (2, 1%nat, 2%nat) =
  Some (triple_lt (Ops := toy_ops) (2, 0%nat, 1%nat) (2, 1%nat, 2%nat)).
Proof.
  apply (candidates_never_compare_nodes (Ops := toy_ops) toy_tree 0 [1; 2]%nat
           [(2, 0%nat, 1%nat); (2, 1%nat, 2%nat)] 0 1).
  - vm_compute. reflexivity.
  - reflexivity.
  - reflexivity.
  - lia.
Defined.

(** ** Labels and ancestors *)

Lemma lineage_up_inv {Stats} (t : Tree Stats) c n p lin :
  nodes t !! c = Some n -> parent n = Some p -> lineage t c lin ->
  exists lin_p, lin = ("Concept" +:+ concept_id n) :: lin_p /\ lineage t p lin_p.
Proof.
  intros Hn Hp H. destruct H as [c n' Hn' Hp'|c n' p' labs Hn' Hp' Hl]; [congruence|].
  assert (n' = n) by congruence. subst n'.
  assert (p' = p) by congruence. subst p'. eauto.
Qed.

Lemma lineage_total {Stats} (t : Tree Stats) c : rooted t c -> exists lin, lineage t c lin.
Proof.
  intros [k Hk]. induction Hk as [c n Hn Hp|c n p k Hn Hp _ [lin IH]].
  - eexists. eapply lineage_top; eassumption.
  - eexists. eapply lineage_up; eassumption.
Qed.

(** The label the walk of [cluster_iter] gives is one of the chain. *)
Lemma depth1_in_lineage {Stats} (t : Tree Stats) c lin x nx :
  lineage t c lin -> depth1 t c x -> nodes t !! x = Some nx ->
  "Concept" +:+ concept_id nx ∈ lin.
Proof.
  intros Hl Hd Hx. eapply list_elem_of_lookup_2, lineage_depth1; eassumption.
Qed.

(** A split takes labels out of the chains and adds none. *)
Lemma split_lineage_sub {Stats} (t t' : Tree Stats) best c lin lin' :
  wf_tree t -> split t best = Ok t' ->
  lineage t c lin -> lineage t' c lin' ->
  forall lab, lab ∈ lin' -> lab ∈ lin.
Proof.
  intros Hwf Hs Hlin.
  pose proof (split_wf _ _ _ Hwf Hs) as Hwf'.
  destruct (split_inv _ _ _ Hs) as (r & b & Hr & Hb & Hroot & Hl).
  destruct (wf_root t Hwf) as (r0 & Hr0 & Hrp).
  assert (r0 = r) by congruence. subst r0.
  assert (Hr' : nodes t' !! root t = Some (split_node t r b best (root t) r))
    by (rewrite Hl, Hr; reflexivity).
  assert (Hrp' : parent (split_node t r b best (root t) r) = None).
  { destruct (wf_root t' Hwf') as (r' & Hr1 & Hrp1). rewrite Hroot in Hr1. congruence. }
  assert (Htop : forall l, lineage t' (root t) l -> l = ["Concept" +:+ concept_id r]).
  { intros l Hlt. rewrite <- (split_node_id t r b best (root t) r).
    eapply lineage_fun; [exact Hlt|]. eapply lineage_top; eassumption. }
  revert lin'. induction Hlin as [c n Hn Hp|c n p lin_p Hn Hp Hlp IH]; intros lin' Hlin' lab Hlab.
  - assert (c = root t) by (eapply wf_sole; eassumption). subst c.
    assert (n = r) by congruence. subst n.
    rewrite (Htop _ Hlin') in Hlab. exact Hlab.
  - assert (Hn' : nodes t' !! c = Some (split_node t r b best c n))
      by (rewrite Hl, Hn; reflexivity).
    destruct (decide (c ∈ children b)) as [Hin|Hnin].
    + assert (Hp' : parent (split_node t r b best c n) = Some (root t))
        by (rewrite split_node_parent, decide_True by assumption; reflexivity).
      destruct (lineage_up_inv _ _ _ _ _ Hn' Hp' Hlin') as (l' & -> & Hl').
      rewrite split_node_id in Hlab. rewrite (Htop _ Hl') in Hlab.
      apply elem_of_cons in Hlab as [->|Hlab]; [apply list_elem_of_here|].
      apply list_elem_of_singleton in Hlab as ->.
      apply list_elem_of_further.
      eapply last_Some_elem_of, (lineage_last t p lin_p r Hwf Hr Hlp).
    + assert (Hp' : parent (split_node t r b best c n) = Some p)
        by (rewrite split_node_parent, decide_False by assumption; assumption).
      destruct (lineage_up_inv _ _ _ _ _ Hn' Hp' Hlin') as (l' & -> & Hl').
      rewrite split_node_id in Hlab.
      apply elem_of_cons in Hlab as [->|Hlab]; [apply list_elem_of_here|].
      apply list_elem_of_further. eapply IH; eassumption.
Qed.

Section Ancestors.
Context {Stats Instance Score : Type} `{Ops : TreeOps Stats Instance Score}.

Lemma rtc_split_lineage_sub (t t' : Tree Stats) c lin lin' :
  wf_tree t -> rtc split_step t t' ->
  lineage t c lin -> lineage t' c lin' ->
  forall lab, lab ∈ lin' -> lab ∈ lin.
Proof.
  intros Hwf H. revert lin.
  induction H as [t|t t1 t' [cus g i best Hcus Hlast Hs] _ IH]; intros lin Hlin Hlin' lab Hlab.
  - rewrite (lineage_fun _ _ _ _ Hlin Hlin'). exact Hlab.
  - destruct (lineage_total t1 c) as [lin1 Hlin1].
    { eapply split_rooted; [exact Hwf|exact Hs|].
      exists (length lin). eapply lineage_chain, Hlin. }
    eapply (split_lineage_sub t t1 best c lin lin1); try eassumption.
    eapply IH; [eapply split_wf; eassumption|exact Hlin1|exact Hlin'|exact Hlab].
Qed.

Lemma yields_label_in_lineage (w : gmap nat (Tree Stats)) tree (X : list Instance)
    ms Ms md cs w' g' t_in n c i leaf lab lin :
  w !! tree = Some t_in ->
  wf_tree (insert_all md t_in X).1 ->
  yields w (cluster_iter tree X ms Ms md) cs w' g' ->
  cs !! n = Some c ->
  (insert_all md t_in X).2 !! i = Some leaf -> c !! i = Some lab ->
  lineage (insert_all md t_in X).1 leaf lin ->
  lab ∈ lin.
Proof.
  intros Hw Hwf H Hn Hleaf Hlab Hlin.
  destruct (yields_created _ _ _ _ _ _ _ _ _ t_in H Hw) as [snaps Hem].
  destruct (emitted_lookup _ _ _ _ _ _ _ _ _ Hem Hn) as (k & t & _ & _ & _ & Hrtc & Hc).
  apply clusters_of_spec in Hc.
  destruct (Forall2_lookup_l _ _ _ _ _ Hc Hleaf) as (lab' & Hlab' & x & nx & Hd & Hnx & ->).
  assert (lab = "Concept" +:+ concept_id nx) by congruence. subst lab.
  destruct (lineage_total t leaf (depth1_rooted _ _ _ Hd)) as [lin' Hlin'].
  eapply rtc_split_lineage_sub; [exact Hwf|exact Hrtc|exact Hlin|exact Hlin'|].
  eapply depth1_in_lineage; eassumption.
Qed.

(** X21.  Whatever the splits, the label of an instance in a clustering of
    [cluster_iter] is the label of the node recorded for it or of one of that
    node's ancestors in the tree before the splits (the tree with the
    instances in, well-formed); so it is found at the instance's position in
    one of the rows [depth_labels] returns for the same arguments. *)
Theorem cluster_labels_are_ancestors (w : gmap nat (Tree Stats)) tree (X : list Instance)
    ms Ms md cs w' g' t_in n c i leaf lab :
  w !! tree = Some t_in ->
  wf_tree (insert_all md t_in X).1 ->
  yields w (cluster_iter tree X ms Ms md) cs w' g' ->
  cs !! n = Some c ->
  (insert_all md t_in X).2 !! i = Some leaf -> c !! i = Some lab ->
  (forall lin, lineage (insert_all md t_in X).1 leaf lin -> lab ∈ lin) /\
  (forall out, (depth_labels w tree X md).2 = Ok out ->
     exists d row, out !! d = Some row /\ row !! i = Some lab).
Proof.
  intros Hw Hwf H Hn Hleaf Hlab.
  assert (Hanc : forall lin, lineage (insert_all md t_in X).1 leaf lin -> lab ∈ lin).
  { intros lin. eapply yields_label_in_lineage; eassumption. }
  split; [exact Hanc|]. intros out Hout.
  destruct (depth_labels_ok_inv _ _ _ _ _ _ Hw Hout) as [HX Hrooted].
  destruct (depth_labels_cells w tree X md t_in Hw HX Hrooted)
    as (out' & lins & Hout' & Hlin & HlenM & Hcells).
  assert (out' = out) by congruence. subst out'.
  destruct (Forall2_lookup_l _ _ _ _ _ Hlin Hleaf) as (lin & Hli & Hl).
  destruct (proj1 (list_elem_of_lookup _ _) (Hanc lin Hl)) as [k Hk].
  pose proof (lookup_lt_Some _ _ _ Hk) as Hklt.
  assert (HM : (length lin <= length out)%nat).
  { rewrite HlenM. apply max_list_elem_of_le, list_elem_of_fmap. exists lin.
    split; [reflexivity|]. eapply list_elem_of_lookup_2, Hli. }
  destruct (lookup_lt_is_Some_2 out (length lin - 1 - k)) as [row Hrow]; [lia|].
  exists (length lin - 1 - k)%nat, row. split; [exact Hrow|].
  destruct (Hcells _ _ Hrow) as [_ Hcell]. rewrite (Hcell _ _ Hli), <- Hk.
  f_equal. lia.
Qed.

End Ancestors.

(** The first instance of the toy run, recorded at [g] below [c], [a] and
    the root: in the third clustering its label is the one of [c]. *)
Lemma cluster_labels_are_ancestors_witness :
  (forall lin, lineage toy_tree 7%nat lin -> "Conceptc" ∈ lin) /\
  (forall out,
     (depth_labels (Ops := toy_ops) toy_store 5%nat toy_instances false).2 = Ok out ->
     exists d row, out !! d = Some row /\ row !! 0%nat = Some "Conceptc").
Proof.
  eapply (cluster_labels_are_ancestors (Ops := toy_ops) toy_store 5%nat toy_instances
            1 10 false [toy_cut0; toy_cut1; toy_cut2; toy_cut3] _ _ toy_tree 2 toy_cut2
            0 7%nat).
  - reflexivity.
  - apply toy_tree_wf.
  - run_yields.
  - reflexivity.
  - reflexivity.
  - reflexivity.
Defined.

(** ** Two generators at once *)

Section PairFacts.
Context {Stats Instance Score : Type} `{Ops : TreeOps Stats Instance Score}.

Lemma run_loop_store (w : gmap nat (Tree Stats)) r temp ms rem resumed n w' g' s :
  run_loop (Instance := Instance) w r temp ms rem resumed n = (w', g', s) ->
  w' = w \/ exists t', w' = <[r := t']> w.
Proof.
  unfold run_loop. destruct (w !! r) as [t|]; [|intros [= <- _ _]; tauto].
  destruct (for_loop ms temp rem resumed n t) as [t' [c rem' n'| |e]];
    intros [= <- _ _]; eauto.
Qed.

Lemma run_loop_suspended (w : gmap nat (Tree Stats)) r temp ms rem resumed n w' fr s :
  run_loop (Instance := Instance) w r temp ms rem resumed n = (w', GSuspended fr, s) ->
  r ∈ dom w'.
Proof.
  unfold run_loop. destruct (w !! r) as [t|]; [|discriminate].
  destruct (for_loop ms temp rem resumed n t) as [t' [c rem' n'| |e]];
    [|discriminate|discriminate].
  intros [= <- _ _]. apply elem_of_dom. rewrite lookup_insert_eq. eauto.
Qed.

(** A [next] call leaves alone every object of the store that is not the
    generator's own copy. *)
Lemma gen_next_other (w : gmap nat (Tree Stats)) (g : gen (Instance := Instance))
    w' g' s r0 :
  gen_next w g = (w', g', s) -> r0 ∈ dom w -> own g <> Some r0 ->
  w' !! r0 = w !! r0.
Proof.
  intros H Hin Hown. destruct g as [tree X ms Ms md|fr|].
  - eapply gen_next_created_frame; eassumption.
  - cbn [gen_next] in H. eapply run_loop_frame; [exact H|].
    intros ->. apply Hown. reflexivity.
  - cbn [gen_next] in H. injection H as <- _ _. reflexivity.
Qed.

(** A generator that is suspended after a call has its copy in the store:
    the object it had, or a new one. *)
Lemma gen_next_own (w : gmap nat (Tree Stats)) (g : gen (Instance := Instance))
    w' g' s r :
  gen_next w g = (w', g', s) -> own g' = Some r ->
  r ∈ dom w' /\ (own g = Some r \/ r ∉ dom w).
Proof.
  intros H Hown. destruct g' as [| fr' |]; [discriminate| |discriminate].
  injection Hown as <-.
  destruct (gen_next_shape _ _ _ _ _ H) as [Hc|(fr0 & [= <-] & Hfr)]; [discriminate|].
  destruct g as [tree X ms Ms md|fr|]; [| |contradiction].
  - rewrite Hfr. split; [|right; apply fresh_not_dom].
    cbn [gen_next] in H.
    destruct (ms <? 1); [discriminate|]. destruct (ms >? Ms); [discriminate|].
    unfold deepcopy in H. destruct (w !! tree) as [t|]; [|discriminate].
    destruct (fit_all _ _ X md) as [[w2 temp]|]; [|discriminate].
    apply run_loop_suspended in H. exact H.
  - rewrite Hfr. split; [|left; reflexivity].
    cbn [gen_next] in H. apply run_loop_suspended in H. exact H.
Qed.

Lemma gen_next_dom (w : gmap nat (Tree Stats)) (g : gen (Instance := Instance))
    w' g' s r0 :
  gen_next w g = (w', g', s) -> r0 ∈ dom w -> r0 ∈ dom w'.
Proof.
  intros H Hin. destruct (decide (own g = Some r0)) as [Hown|Hown].
  - destruct g as [|fr|]; [discriminate| |discriminate]. injection Hown as <-.
    cbn [gen_next] in H. apply run_loop_store in H as [->|[t' ->]]; [exact Hin|].
    apply elem_of_dom. rewrite lookup_insert_eq. eauto.
  - apply elem_of_dom. rewrite (gen_next_other _ _ _ _ _ _ H Hin Hown).
    apply elem_of_dom, Hin.
Qed.

Lemma apart_sym (w : gmap nat (Tree Stats)) (g1 g2 : gen (Instance := Instance)) :
  apart w g1 g2 -> apart w g2 g1.
Proof. intros [H1 H2]. split; assumption. Qed.

Lemma own_reads (g : gen (Instance := Instance)) r : own g = Some r -> reads g = Some r.
Proof. destruct g; [discriminate|intros H; exact H|discriminate]. Qed.

(** A call on one of two generators that are apart leaves them apart. *)
Lemma apart_step (w : gmap nat (Tree Stats)) (g1 g2 : gen (Instance := Instance))
    w1 g1' s :
  apart w g1 g2 -> gen_next w g1 = (w1, g1', s) -> apart w1 g1' g2.
Proof.
  intros [H1 H2] Hnext. split.
  - intros r Hr.
    assert (Hown : own g1' = Some r).
    { destruct g1' as [tree X ms Ms md|fr|]; [|exact Hr|discriminate].
      destruct (gen_next_shape _ _ _ _ _ Hnext) as [Hc|(fr0 & Hc & _)]; discriminate. }
    destruct (gen_next_own _ _ _ _ _ _ Hnext Hown) as [Hin [Hold|Hnew]]; split;
      try exact Hin.
    + apply (H1 r), own_reads, Hold.
    + intros H2own. apply Hnew. apply (H2 r), own_reads, H2own.
  - intros r Hr. destruct (H2 r Hr) as [Hin Hne]. split.
    + eapply gen_next_dom; eassumption.
    + intros Hown. destruct (gen_next_own _ _ _ _ _ _ Hnext Hown) as [_ [Hold|Hnew]];
        [exact (Hne Hold)|exact (Hnew Hin)].
Qed.

(** A generator is at the same point in a store that differs only in objects
    it does not read. *)
Lemma gen_sim_store (w w1 : gmap nat (Tree Stats)) (g : gen (Instance := Instance)) b :
  gen_sim (w, g) b -> (forall r, reads g = Some r -> w1 !! r = w !! r) ->
  gen_sim (w1, g) b.
Proof.
  destruct b as [w_ g_]. unfold gen_sim. cbn [fst snd].
  destruct g as [tree X ms Ms md|fr|], g_ as [tree_ X_ ms_ Ms_ md_|fr_|]; try tauto.
  - intros (HX & H1 & H2 & H3 & Heq) Hr. rewrite (Hr tree eq_refl). auto.
  - intros (HX & H1 & H2 & H3 & Heq) Hr. rewrite (Hr (fr_tree fr) eq_refl). auto.
Qed.

Lemma interleaved_solo (w : gmap nat (Tree Stats)) g1 g2 ss1 ss2 w' g1' g2' :
  interleaved w g1 g2 ss1 ss2 w' g1' g2' ->
  forall wa g1a wb g2b,
    apart w g1 g2 -> gen_sim (w, g1) (wa, g1a) -> gen_sim (w, g2) (wb, g2b) ->
    (exists wa' ga', answers wa g1a ss1 wa' ga') /\
    (exists wb' gb', answers wb g2b ss2 wb' gb').
Proof.
  induction 1 as [w g1 g2
                 |w g1 g2 w1 g1' s ss1 ss2 w' g1'' g2' Hnext _ IH
                 |w g1 g2 w1 g2' s ss1 ss2 w' g1' g2'' Hnext _ IH];
    intros wa g1a wb g2b Hap Hs1 Hs2.
  - split; eexists _, _; constructor.
  - destruct (gen_next wa g1a) as [[wa1 g1a1] sa] eqn:Hna.
    destruct (gen_next_sim (w, g1) (wa, g1a) _ _ _ _ _ _ Hs1 Hnext Hna) as [<- Hs1'].
    destruct (IH wa1 g1a1 wb g2b) as [(wa' & ga' & Ha) Hb].
    + eapply apart_step; eassumption.
    + exact Hs1'.
    + apply (gen_sim_store w); [exact Hs2|]. intros r Hr.
      destruct (proj2 Hap r Hr) as [Hin Hne].
      eapply gen_next_other; eassumption.
    + split; [|exact Hb]. exists wa', ga'. econstructor; eassumption.
  - destruct (gen_next wb g2b) as [[wb1 g2b1] sb] eqn:Hnb.
    destruct (gen_next_sim (w, g2) (wb, g2b) _ _ _ _ _ _ Hs2 Hnext Hnb) as [<- Hs2'].
    destruct (IH wa g1a wb1 g2b1) as [Ha (wb' & gb' & Hb)].
    + apply apart_sym. eapply apart_step; [apply apart_sym, Hap|exact Hnext].
    + apply (gen_sim_store w); [exact Hs1|]. intros r Hr.
      destruct (proj1 Hap r Hr) as [Hin Hne].
      eapply gen_next_other; eassumption.
    + exact Hs2'.
    + split; [exact Ha|]. exists wb', gb'. econstructor; eassumption.
Qed.

(** X22.  Two generators of [cluster_iter] do not disturb each other, not on
    the same tree either and not with [mod = True]: when [next] calls on the
    two are interleaved in any order, each generator answers its calls
    (clusterings, the end of the iteration, exceptions) as it answers them
    when it is run alone. *)
Theorem generators_independent (w : gmap nat (Tree Stats)) tree1 tree2
    (X1 X2 : list Instance) ms1 Ms1 md1 ms2 Ms2 md2 t1 t2 ss1 ss2 w' g1' g2' :
  w !! tree1 = Some t1 -> w !! tree2 = Some t2 ->
  interleaved w (cluster_iter tree1 X1 ms1 Ms1 md1) (cluster_iter tree2 X2 ms2 Ms2 md2)
              ss1 ss2 w' g1' g2' ->
  (exists wa ga, answers w (cluster_iter tree1 X1 ms1 Ms1 md1) ss1 wa ga) /\
  (exists wb gb, answers w (cluster_iter tree2 X2 ms2 Ms2 md2) ss2 wb gb).
Proof.
  intros Hw1 Hw2 H.
  apply (interleaved_solo _ _ _ _ _ _ _ _ H).
  - unfold cluster_iter. split; intros r [= <-]; (split; [|discriminate]);
      apply elem_of_dom; eauto.
  - unfold gen_sim, cluster_iter. simpl. auto.
  - unfold gen_sim, cluster_iter. simpl. auto.
Qed.

End PairFacts.

(** Two generators on the toy tree, one fitting and one categorizing, called
    in turn: the first, the second, the first again. *)
Lemma generators_independent_witness :
  (exists wa ga,
     answers (Ops := marking_ops) toy_store (cluster_iter 5%nat toy_instances 1 10 true)
       [Yield toy_cut0; Yield toy_cut1] wa ga) /\
  (exists wb gb,
     answers (Ops := marking_ops) toy_store (cluster_iter 5%nat toy_instances 2 3 false)
       [Yield toy_cut1] wb gb).
Proof.
  eapply (generators_independent (Ops := marking_ops) toy_store 5%nat 5%nat
            toy_instances toy_instances 1 10 true 2 3 false toy_tree toy_tree).
  - reflexivity.
  - reflexivity.
  - eapply interleaved_left; [vm_compute; reflexivity|].
    eapply interleaved_right; [vm_compute; reflexivity|].
    eapply interleaved_left; [vm_compute; reflexivity|].
    apply interleaved_nil.
Defined.

(** ** The data sets of the benchmark *)

Section DatasetFacts.
Context {Rng : Type} (draw : Rng -> Z -> Z -> Z * Rng).
Hypothesis Hdraw : draw_in_range draw.

Lemma randint_ok (s : Rng) a b :
  a <= b -> randint draw s a b = Ok (draw s a b) /\ a <= (draw s a b).1 <= b.
Proof.
  intros Hab. unfold randint. rewrite Z.gtb_ltb, (proj2 (Z.ltb_ge b a)) by lia.
  split; [reflexivity|apply Hdraw, Hab].
Qed.

Lemma ds_attrs_spec n_val js (i : gmap string Z) (s : Rng) :
  1 <= n_val ->
  exists i' s',
    ds_attrs draw js n_val i s = Ok (i', s') /\
    dom i' = dom i ∪ list_to_set (pretty <$> js) /\
    (map_Forall (fun _ v => 1 <= v <= n_val) i ->
     map_Forall (fun _ v => 1 <= v <= n_val) i').
Proof.
  intros Hn. revert i s. induction js as [|j js IH]; intros i s.
  - exists i, s. split; [reflexivity|]. split; [|tauto].
    rewrite fmap_nil, list_to_set_nil, (right_id_L ∅ (∪)). reflexivity.
  - cbn [ds_attrs]. destruct (randint_ok s 1 n_val Hn) as [-> Hv].
    destruct (draw s 1 n_val) as [v s1]. cbn [mbind res_bind fst] in *.
    destruct (IH (<[pretty j := v]> i) s1) as (i' & s' & -> & Hdom & Hall).
    exists i', s'. split; [reflexivity|]. split.
    + rewrite Hdom, dom_insert_L, fmap_cons, list_to_set_cons.
      rewrite (comm_L (∪) {[pretty j]} (dom i)), (assoc_L (∪)). reflexivity.
    + intros Hi. apply Hall, map_Forall_insert_2; assumption.
Qed.

Lemma ds_insts_spec n_val n n_attr (acc : list (gmap string Z)) (s : Rng) :
  1 <= n_val ->
  exists out s',
    ds_insts draw n n_attr n_val acc s = Ok (acc ++ out, s') /\
    length out = n /\
    Forall (fun inst =>
              dom inst = list_to_set (pretty <$> seq 0 n_attr) /\
              map_Forall (fun _ v => 1 <= v <= n_val) inst) out.
Proof.
  intros Hn. revert acc s. induction n as [|n IH]; intros acc s.
  - exists [], s. rewrite app_nil_r. split; [reflexivity|]. split; [reflexivity|constructor].
  - cbn [ds_insts].
    destruct (ds_attrs_spec n_val (seq 0 n_attr) ∅ s Hn) as (i & s1 & -> & Hdom & Hall).
    cbn [mbind res_bind].
    destruct (IH (acc ++ [i]) s1) as (out & s' & -> & Hlen & Hout).
    exists (i :: out), s'. rewrite <- app_assoc. split; [reflexivity|].
    split; [simpl; lia|]. constructor; [|exact Hout]. split.
    + rewrite Hdom, dom_empty_L, (left_id_L ∅ (∪)). reflexivity.
    + apply Hall, map_Forall_empty.
Qed.

Lemma size_keys n : size (list_to_set (pretty <$> seq 0 n) : gset string) = n.
Proof.
  rewrite size_list_to_set, length_fmap, length_seq; [reflexivity|].
  apply NoDup_fmap_2; [apply _|apply NoDup_seq].
Qed.

(** The loop over [j] from a [j] above 0: every draw goes into the row. *)
Lemma dt_attrs_row n_val a n (i y : list Z) (s : Rng) :
  1 <= n_val ->
  exists vs s',
    dt_attrs draw (seq (S a) n) n_val i y s = Ok (i ++ vs, y, s') /\
    length vs = n /\ Forall (fun v => 1 <= v <= n_val) vs.
Proof.
  intros Hn. revert a i s. induction n as [|n IH]; intros a i s.
  - exists [], s. rewrite app_nil_r. split; [reflexivity|]. split; [reflexivity|constructor].
  - cbn [seq dt_attrs]. destruct (randint_ok s 1 n_val Hn) as [-> Hv].
    destruct (draw s 1 n_val) as [v s1]. cbn [mbind res_bind fst Nat.eqb] in *.
    destruct (IH (S a) (i ++ [v]) s1) as (vs & s' & -> & Hlen & Hvs).
    exists (v :: vs), s'. rewrite <- app_assoc. split; [reflexivity|].
    split; [simpl; lia|]. constructor; assumption.
Qed.

(** The loop over [j] for one instance: the first draw is the label, the
    others are the row. *)
Lemma dt_attrs_spec n_val n_attr (y : list Z) (s : Rng) :
  1 <= n_val ->
  exists row lab s',
    dt_attrs draw (seq 0 n_attr) n_val [] y s = Ok (row, y ++ lab, s') /\
    length row = (n_attr - 1)%nat /\
    length lab = (if decide (n_attr = 0%nat) then 0 else 1)%nat /\
    Forall (fun v => 1 <= v <= n_val) row /\ Forall (fun v => 1 <= v <= n_val) lab.
Proof.
  intros Hn. destruct n_attr as [|n].
  - exists [], [], s. rewrite app_nil_r. repeat split; constructor.
  - cbn [seq dt_attrs]. destruct (randint_ok s 1 n_val Hn) as [-> Hv].
    destruct (draw s 1 n_val) as [v s1]. cbn [mbind res_bind fst Nat.eqb] in *.
    destruct (dt_attrs_row n_val 0 n [] (y ++ [v]) s1 Hn) as (vs & s' & -> & Hlen & Hvs).
    exists vs, [v], s'. split; [reflexivity|]. split; [lia|].
    split; [reflexivity|]. split; [exact Hvs|]. constructor; [exact Hv|constructor].
Qed.

Lemma dt_insts_spec n_val n n_attr (x : list (list Z)) (y : list Z) (s : Rng) :
  1 <= n_val ->
  exists rows labs s',
    dt_insts draw n n_attr n_val x y s = Ok (x ++ rows, y ++ labs, s') /\
    length rows = n /\
    length labs = (if decide (n_attr = 0%nat) then 0 else n)%nat /\
    Forall (fun row => length row = (n_attr - 1)%nat /\
                       Forall (fun v => 1 <= v <= n_val) row) rows /\
    Forall (fun v => 1 <= v <= n_val) labs.
Proof.
  intros Hn. revert x y s. induction n as [|n IH]; intros x y s.
  - exists [], [], s. rewrite !app_nil_r. split; [reflexivity|].
    split; [reflexivity|]. split; [destruct (decide _); reflexivity|].
    split; constructor.
  - cbn [dt_insts].
    destruct (dt_attrs_spec n_val n_attr y s Hn)
      as (row & lab & s1 & -> & Hrow & Hlab & Hrv & Hlv).
    cbn [mbind res_bind].
    destruct (IH (x ++ [row]) (y ++ lab) s1)
      as (rows & labs & s' & -> & Hrows & Hlabs & Hrs & Hls).
    exists (row :: rows), (lab ++ labs), s'. rewrite <- !app_assoc.
    split; [reflexivity|]. split; [simpl; lia|]. split.
    + rewrite length_app, Hlab, Hlabs. destruct (decide (n_attr = 0%nat)); lia.
    + split; [constructor; auto|]. apply Forall_app. auto.
Qed.

(** X23.  With [n_val >= 1], [generate_dataset] returns [n_inst] instances
    (none for a negative [n_inst]), each a dict with exactly the [n_attr] keys
    [str(0)], ..., [str(n_attr - 1)] and values between 1 and [n_val]. *)
Theorem generate_dataset_shape (s : Rng) n_inst n_attr n_val :
  1 <= n_val ->
  exists instances s',
    generate_dataset draw s n_inst n_attr n_val = Ok (instances, s') /\
    length instances = Z.to_nat n_inst /\
    Forall (fun inst : gmap string Z =>
              size inst = Z.to_nat n_attr /\
              (forall key, is_Some (inst !! key) <->
                 exists j, (j < Z.to_nat n_attr)%nat /\ key = pretty j) /\
              (forall key v, inst !! key = Some v -> 1 <= v <= n_val)) instances.
Proof.
  intros Hn. unfold generate_dataset.
  destruct (ds_insts_spec n_val (Z.to_nat n_inst) (Z.to_nat n_attr) [] s Hn)
    as (out & s' & -> & Hlen & Hout).
  exists out, s'. split; [reflexivity|]. split; [exact Hlen|].
  eapply Forall_impl; [exact Hout|]. cbv beta. intros inst [Hdom Hall]. split; [|split].
  - rewrite <- size_dom, Hdom. apply size_keys.
  - intros key. rewrite <- elem_of_dom, Hdom, elem_of_list_to_set, list_elem_of_fmap.
    split.
    + intros (j & -> & Hj). apply elem_of_seq in Hj. exists j. split; [lia|reflexivity].
    + intros (j & Hj & ->). exists j. split; [reflexivity|]. apply elem_of_seq. lia.
  - exact Hall.
Qed.

(** X24.  With [n_val >= 1], [generate_dt_dataset] returns [n_inst] rows of
    [n_attr - 1] values each (the draw for [j = 0] is the label, not a
    feature), and one label for each row; but no label at all when [n_attr]
    is 0 or less.  All values lie between 1 and [n_val]. *)
Theorem generate_dt_dataset_shape (s : Rng) n_inst n_attr n_val :
  1 <= n_val ->
  exists x y s',
    generate_dt_dataset draw s n_inst n_attr n_val = Ok (x, y, s') /\
    length x = Z.to_nat n_inst /\
    length y = (if decide (n_attr <= 0) then 0%nat else Z.to_nat n_inst) /\
    Forall (fun row => length row = (Z.to_nat n_attr - 1)%nat /\
                       Forall (fun v => 1 <= v <= n_val) row) x /\
    Forall (fun v => 1 <= v <= n_val) y.
Proof.
  intros Hn. unfold generate_dt_dataset.
  destruct (dt_insts_spec n_val (Z.to_nat n_inst) (Z.to_nat n_attr) [] [] s Hn)
    as (rows & labs & s' & -> & Hrows & Hlabs & Hrs & Hls).
  exists rows, labs, s'. split; [reflexivity|]. split; [exact Hrows|].
  split; [|split; assumption].
  rewrite Hlabs. destruct (decide (Z.to_nat n_attr = 0%nat)), (decide (n_attr <= 0)); lia.
Qed.

End DatasetFacts.

(** X25.  With [n_val < 1] the range of every draw is empty: as soon as
    there is something to draw ([n_inst] and [n_attr] at least 1) both
    generators raise the ValueError of [randint]; with nothing to draw
    ([n_inst <= 0]) they return empty data sets whatever [n_val] is. *)
Theorem generators_empty_range {Rng : Type} (draw : Rng -> Z -> Z -> Z * Rng)
    (s : Rng) n_inst n_attr n_val :
  (n_val < 1 -> 1 <= n_inst -> 1 <= n_attr ->
   exists msg,
     generate_dataset draw s n_inst n_attr n_val = Raise (ValueError msg) /\
     generate_dt_dataset draw s n_inst n_attr n_val = Raise (ValueError msg)) /\
  (n_inst <= 0 ->
   generate_dataset draw s n_inst n_attr n_val = Ok ([], s) /\
   generate_dt_dataset draw s n_inst n_attr n_val = Ok ([], [], s)).
Proof.
  unfold generate_dataset, generate_dt_dataset. split.
  - intros Hv Hi Ha.
    destruct (Z.to_nat n_inst) as [|n] eqn:Hn; [lia|].
    destruct (Z.to_nat n_attr) as [|m] eqn:Hm; [lia|].
    cbn [ds_insts dt_insts seq ds_attrs dt_attrs]. unfold randint.
    rewrite Z.gtb_ltb, (proj2 (Z.ltb_lt n_val 1)) by lia.
    eexists. split; reflexivity.
  - intros Hi. replace (Z.to_nat n_inst) with 0%nat by lia. split; reflexivity.
Qed.

Lemma counter_draw_in_range : draw_in_range counter_draw.
Proof.
  intros s a b Hab. unfold counter_draw. cbn [fst].
  pose proof (Z.mod_pos_bound s (b - a + 1)). lia.
Qed.

Lemma generate_dataset_shape_witness :
  exists instances s',
    generate_dataset counter_draw 7 3 2 5 = Ok (instances, s') /\
    length instances = Z.to_nat 3 /\
    Forall (fun inst : gmap string Z =>
              size inst = Z.to_nat 2 /\
              (forall key, is_Some (inst !! key) <->
                 exists j, (j < Z.to_nat 2)%nat /\ key = pretty j) /\
              (forall key v, inst !! key = Some v -> 1 <= v <= 5)) instances.
Proof.
  apply (generate_dataset_shape counter_draw counter_draw_in_range 7 3 2 5).
  lia.
Defined.

Lemma generate_dt_dataset_shape_witness :
  exists x y s',
    generate_dt_dataset counter_draw 7 3 2 5 = Ok (x, y, s') /\
    length x = Z.to_nat 3 /\
    length y = (if decide (2 <= 0) then 0%nat else Z.to_nat 3) /\
    Forall (fun row => length row = (Z.to_nat 2 - 1)%nat /\
                       Forall (fun v => 1 <= v <= 5) row) x /\
    Forall (fun v => 1 <= v <= 5) y.
Proof.
  apply (generate_dt_dataset_shape counter_draw counter_draw_in_range 7 3 2 5).
  lia.
Defined.

Lemma generators_empty_range_witness :
  exists msg,
    generate_dataset counter_draw 7 3 2 0 = Raise (ValueError msg) /\
    generate_dt_dataset counter_draw 7 3 2 0 = Raise (ValueError msg).
Proof.
  apply (proj1 (generators_empty_range counter_draw 7 3 2 0)); lia.
Defined.

(** The numbers the counter gives from state 7 on, for two instances of
    three attributes with values up to 5. *)
Example counter_dt_dataset :
  generate_dt_dataset counter_draw 7 2 3 5 = Ok ([[4; 5]; [2; 3]], [3; 1], 13).
Proof. vm_compute. reflexivity. Qed.
